(** * Rayforge Sync: the save-synchronisation core of [Rayforge-Sync.py]

    A shallow embedding of the file-system logic of the application
    (manifest loading, game registration, upload and download), of the
    controls of the main window, of the welcome dialog and of the start of
    the application, with the properties of the specification that it
    satisfies and further properties of the code.

    Conventions of the model.
    - Python [str] values are [string]s; the methods [str.lower()] and
      [str.strip()] are parameters of the development (the class [Str]),
      which holds for every choice of them.  A path is the list of its
      components below the file-system root.
    - The whole machine has one file system, a tree of named entries: the
      server share, the local save directories and the application's backup
      folder are paths into the same tree, as they are for the program.
    - Every library call that touches the file system may fail with
      [OSError]: the state carries a schedule of faults, consumed one entry per
      call (an empty schedule means that no further call fails).  Where the
      program asks whether such an error is a [PermissionError], the next
      entry of the schedule answers.
    - Values that the program obtains from its environment (the dialog's
      answer, [uuid.uuid4()], [datetime.now()], the user's click on the
      overwrite warning) are arguments of the handlers.
    - The library calls ([pathlib], [os], [shutil], [json]) follow their
      documented behaviour on a POSIX system; in particular [os.rename]
      replaces an existing file.  Symbolic links are left out, and so are
      access rights, but for the refusals that the schedule injects. *)

From Stdlib Require Import Ascii String ZArith.
From stdpp Require Import base option list strings gmap.

Set Warnings "-register-all".

(** ** Strings *)

(** The two methods of [str] that the program calls, [str.lower()] and
    [str.strip()].  Which characters they fold and which they remove is
    the business of Python's Unicode tables; the program only applies them
    and compares the results, and so does the development: it is carried
    out for every pair of functions. *)
Class Str : Type := {
  lower : string → string;
  strip : string → string
}.

(** The two methods on strings of ASCII characters, for the examples:
    [lower_ascii] maps the letters A-Z to a-z, [strip_ascii] removes the
    characters for which [str.isspace()] holds (tab to carriage return,
    the four separators and the space) at both ends. *)
Definition ascii_lower (c : ascii) : ascii :=
  let n := nat_of_ascii c in
  if (65 <=? n)%nat && (n <=? 90)%nat then ascii_of_nat (n + 32) else c.

Fixpoint lower_ascii (s : string) : string :=
  match s with
  | EmptyString => EmptyString
  | String c s' => String (ascii_lower c) (lower_ascii s')
  end.

Definition is_space (c : ascii) : bool :=
  let n := nat_of_ascii c in
  ((9 <=? n)%nat && (n <=? 13)%nat) || ((28 <=? n)%nat && (n <=? 32)%nat).

Fixpoint lstrip (s : string) : string :=
  match s with
  | EmptyString => EmptyString
  | String c s' => if is_space c then lstrip s' else s
  end.

Fixpoint rstrip (s : string) : string :=
  match s with
  | EmptyString => EmptyString
  | String c s' =>
      match rstrip s' with
      | EmptyString => if is_space c then EmptyString else String c EmptyString
      | r => String c r
      end
  end.

Definition strip_ascii (s : string) : string := rstrip (lstrip s).

Definition ascii_str : Str := {| lower := lower_ascii; strip := strip_ascii |}.

(** The development is carried out for an arbitrary instance of [Str]. *)
Section Python.
Context {python_str : Str}.

(** [str(uuid.uuid4())]: the 128-bit value printed as 32 lower-case
    hexadecimal digits in groups of 8-4-4-4-12. *)
Definition hex_digit (n : N) : ascii :=
  match n with
  | 0 => "0" | 1 => "1" | 2 => "2" | 3 => "3" | 4 => "4" | 5 => "5"
  | 6 => "6" | 7 => "7" | 8 => "8" | 9 => "9" | 10 => "a" | 11 => "b"
  | 12 => "c" | 13 => "d" | 14 => "e" | _ => "f"
  end%N%char.

(** The [digits] low-order hexadecimal digits of [n], most significant first,
    in front of [tail]. *)
Fixpoint hex_field (digits : nat) (n : N) (tail : string) : string :=
  match digits with
  | O => tail
  | S d => hex_field d (n / 16)%N (String (hex_digit (n mod 16)%N) tail)
  end.

Definition uuid_str (u : N) : string :=
  hex_field 8 (u / 16 ^ 24)%N
    (String "-" (hex_field 4 (u / 16 ^ 20)%N
      (String "-" (hex_field 4 (u / 16 ^ 16)%N
        (String "-" (hex_field 4 (u / 16 ^ 12)%N
          (String "-" (hex_field 12 u EmptyString)))))))).

(** ** Insertion-ordered dictionaries with string keys

    Used for the objects of a JSON document and for the entries of a
    directory.  A lookup finds the first binding of a key, an assignment
    replaces it in place or appends a new binding, a removal drops every
    binding of the key. *)
Section assoc.
Context {V : Type}.

Fixpoint assoc_get (k : string) (kvs : list (string * V)) : option V :=
  match kvs with
  | [] => None
  | (k', v) :: kvs' => if decide (k = k') then Some v else assoc_get k kvs'
  end.

Fixpoint assoc_set (k : string) (v : V) (kvs : list (string * V))
  : list (string * V) :=
  match kvs with
  | [] => [(k, v)]
  | (k', v') :: kvs' =>
      if decide (k = k') then (k, v) :: kvs'
      else (k', v') :: assoc_set k v kvs'
  end.

Definition assoc_del (k : string) (kvs : list (string * V))
  : list (string * V) :=
  filter (λ kv, kv.1 ≠ k) kvs.
End assoc.

(** ** JSON documents, as [json.load] returns them *)
Inductive json : Type :=
  | JNull
  | JBool (b : bool)
  | JNum (n : Z)
  | JStr (s : string)
  | JList (items : list json)
  | JDict (members : list (string * json)).

(** The exceptions the program can meet.  [FileNotFoundError],
    [FileExistsError], [NotADirectoryError], [IsADirectoryError] and
    [shutil.Error] are subclasses of [OSError].  [OSError] itself stands
    for the other errors of the operating system: those of a call that
    fails for a reason outside the file-system tree (a refused access, a
    lost connection, a full disk), whatever their subclass -
    [PermissionError] is one, see [is_PermissionError] - and those of
    [os.rename] onto a directory that is not empty or into the source
    itself.  [UnicodeDecodeError] and [JSONDecodeError] are subclasses of
    [ValueError], neither one of the other. *)
Inductive exn : Type :=
  | JSONDecodeError
  | UnicodeDecodeError
  | TypeError
  | KeyError
  | AttributeError
  | OSError
  | FileNotFoundError
  | FileExistsError
  | NotADirectoryError
  | IsADirectoryError
  | ShutilError.

Definition is_OSError (e : exn) : bool :=
  match e with
  | OSError | FileNotFoundError | FileExistsError
  | NotADirectoryError | IsADirectoryError | ShutilError => true
  | _ => false
  end.

(** Python truth value of a JSON value ([not v] is its negation). *)
Definition truthy (v : json) : bool :=
  match v with
  | JNull => false
  | JBool b => b
  | JNum n => negb (n =? 0)%Z
  | JStr s => negb (bool_decide (s = EmptyString))
  | JList l => negb (bool_decide (l = []))
  | JDict d => negb (bool_decide (d = []))
  end.

(** [v.get(k)] and [v.get(k, default)]: only a [dict] has the method. *)
Definition py_get (k : string) (v : json) : exn + option json :=
  match v with
  | JDict d => inr (assoc_get k d)
  | _ => inl AttributeError
  end.

(** [v[k]] for a string key [k]. *)
Definition py_getitem (k : string) (v : json) : exn + json :=
  match v with
  | JDict d =>
      match assoc_get k d with Some x => inr x | None => inl KeyError end
  | _ => inl TypeError
  end.

(** [for g in v]: the values a [for] loop (or a comprehension) visits. *)
Definition py_iter (v : json) : exn + list json :=
  match v with
  | JList l => inr l
  | JDict d => inr (JStr <$> d.*1)
  | JStr s =>
      inr ((λ c, JStr (String c EmptyString)) <$> list_ascii_of_string s)
  | _ => inl TypeError
  end.

(** [v.lower()]: a method of [str] only. *)
Definition py_lower (v : json) : exn + string :=
  match v with
  | JStr s => inr (lower s)
  | _ => inl AttributeError
  end.

(** [v.append(x)]: a method of [list] only. *)
Definition py_append (x : json) (v : json) : exn + json :=
  match v with
  | JList l => inr (JList (l ++ [x]))
  | _ => inl AttributeError
  end.

(** ** The file system *)

(** What a file holds, as far as [open(p, 'r')] and [json.load] can tell:
    text that [json.load] parses to the document [j]; any other text, which
    it rejects with [JSONDecodeError]; or bytes that are no text in the
    encoding of [open], so that reading them raises [UnicodeDecodeError]. *)
Inductive content : Type :=
  | JsonText (j : json)
  | Bytes (s : string)
  | Undecodable (s : string).

Inductive node : Type :=
  | File (c : content)
  | Dir (entries : list (string * node)).

Definition path := list string.

Fixpoint lookup_path (p : path) (n : node) : option node :=
  match p with
  | [] => Some n
  | x :: p' =>
      match n with
      | Dir es =>
          match assoc_get x es with
          | Some c => lookup_path p' c
          | None => None
          end
      | File _ => None
      end
  end.

(** The error of a failed lookup: a file in the way of the path, or a
    missing entry. *)
Fixpoint path_error (p : path) (n : node) : exn :=
  match n with
  | File _ => NotADirectoryError
  | Dir es =>
      match p with
      | [] => FileNotFoundError
      | x :: p' =>
          match assoc_get x es with
          | Some c => path_error p' c
          | None => FileNotFoundError
          end
      end
  end.

Definition stat (p : path) (n : node) : exn + node :=
  match lookup_path p n with
  | Some c => inr c
  | None => inl (path_error p n)
  end.

(** [update_path p v n] replaces the entry at [p] by [v] ([None] removes
    it).  The parent of [p] has to be a directory; the root cannot be
    removed. *)
Fixpoint update_path (p : path) (v : option node) (n : node) : option node :=
  match p with
  | [] => v
  | x :: p' =>
      match n with
      | File _ => None
      | Dir es =>
          match p' with
          | [] =>
              Some (Dir (match v with
                         | Some c => assoc_set x c es
                         | None => assoc_del x es
                         end))
          | _ :: _ =>
              match assoc_get x es with
              | Some c =>
                  match update_path p' v c with
                  | Some c' => Some (Dir (assoc_set x c' es))
                  | None => None
                  end
              | None => None
              end
          end
      end
  end.

Definition fs_update (p : path) (v : option node) (n : node) : exn + node :=
  match update_path p v n with
  | Some n' => inr n'
  | None => inl (path_error (removelast p) n)
  end.

(** No directory lists a name twice. *)
Fixpoint wf_node (n : node) : bool :=
  match n with
  | File _ => true
  | Dir es =>
      bool_decide (NoDup es.*1) && forallb (λ e, wf_node e.2) es
  end.

(** [os.makedirs(p, exist_ok=True)], also [Path.mkdir(parents=True,
    exist_ok=True)]: creates the missing directories along [p]. *)
Fixpoint fs_makedirs (p : path) (n : node) : exn + node :=
  match n with
  | File _ => inl (match p with [] => FileExistsError | _ => NotADirectoryError end)
  | Dir es =>
      match p with
      | [] => inr n
      | x :: p' =>
          match fs_makedirs p' (default (Dir []) (assoc_get x es)) with
          | inr c' => inr (Dir (assoc_set x c' es))
          | inl e => inl e
          end
      end
  end.

(** [Path.mkdir()]: the parent has to exist and the path must be free. *)
Definition fs_mkdir (p : path) (n : node) : exn + node :=
  match lookup_path p n with
  | Some _ => inl FileExistsError
  | None => fs_update p (Some (Dir [])) n
  end.

(** [os.rename(src, dst)] with POSIX semantics: a file replaces an existing
    file, a directory replaces an empty directory; nothing changes when the
    call fails. *)
Definition fs_rename (src dst : path) (n : node) : exn + node :=
  match stat src n with
  | inl e => inl e
  | inr sn =>
      if decide (src = dst) then inr n
      else if bool_decide (src `prefix_of` dst) then inl OSError
      else
        match sn, lookup_path dst n with
        | File _, Some (Dir _) => inl IsADirectoryError
        | Dir _, Some (File _) => inl NotADirectoryError
        | Dir _, Some (Dir (_ :: _)) => inl OSError
        | _, _ =>
            match fs_update src None n with
            | inl e => inl e
            | inr n1 => fs_update dst (Some sn) n1
            end
        end
  end.

(** [shutil.rmtree(p)]. *)
Definition fs_rmtree (p : path) (n : node) : exn + node :=
  match stat p n with
  | inl e => inl e
  | inr (File _) => inl NotADirectoryError
  | inr (Dir _) => fs_update p None n
  end.

(** [os.remove(p)]. *)
Definition fs_remove (p : path) (n : node) : exn + node :=
  match stat p n with
  | inl e => inl e
  | inr (Dir _) => inl IsADirectoryError
  | inr (File _) => fs_update p None n
  end.

(** The names [p.iterdir()] yields. *)
Definition fs_listdir (p : path) (n : node) : exn + list string :=
  match stat p n with
  | inl e => inl e
  | inr (File _) => inl NotADirectoryError
  | inr (Dir es) => inr es.*1
  end.

Definition is_dir (p : path) (n : node) : bool :=
  match lookup_path p n with Some (Dir _) => true | _ => false end.

Definition exists_path (p : path) (n : node) : bool :=
  match lookup_path p n with Some _ => true | None => false end.

(** [shutil.copy2(file, dst)] inside a directory listing: [x] is the name of
    the source file and of the destination entry.  An existing file is
    overwritten; when the destination entry is a directory the file is
    copied into it under its own name. *)
Definition copy2_entry (x : string) (c : content) (d : list (string * node))
  : option (list (string * node)) :=
  match assoc_get x d with
  | Some (Dir sub) =>
      match assoc_get x sub with
      | Some (Dir _) => None
      | _ => Some (assoc_set x (Dir (assoc_set x (File c) sub)) d)
      end
  | _ => Some (assoc_set x (File c) d)
  end.

(** The entries a copy starts from at a destination: none when the
    destination is created by the copy, the present ones when it is a
    directory and [dirs_exist_ok] holds; otherwise [os.makedirs] fails. *)
Definition dst_entries (exist_ok : bool) (dst : option node)
  : option (list (string * node)) :=
  match dst with
  | None => Some []
  | Some (Dir d) => if exist_ok then Some d else None
  | Some (File _) => None
  end.

(** The loop of [shutil.copytree] over the entries [es] of the source, [d]
    being the entries of the destination so far and [rec] the copy of a
    sub-directory.  One fault is consumed per file copied; an entry that
    fails is skipped and the loop goes on with the others, as in [shutil]. *)
Definition copy_entries
    (rec : node → option node → list bool → option node * bool * list bool)
  : list (string * node) → list (string * node) → list bool →
    list (string * node) * bool * list bool :=
  fix go es d fl :=
    match es with
    | [] => (d, true, fl)
    | (x, c) :: es' =>
        match c with
        | File data =>
            match (if default false (head fl) then None
                   else copy2_entry x data d) with
            | Some d1 => go es' d1 (tail fl)
            | None => let '(d', _, fl') := go es' d (tail fl) in (d', false, fl')
            end
        | Dir _ =>
            let '(r, ok1, fl1) := rec c (assoc_get x d) fl in
            let d1 := match r with Some r' => assoc_set x r' d | None => d end in
            let '(d', ok2, fl') := go es' d1 fl1 in
            (d', ok1 && ok2, fl')
        end
    end.

(** [shutil.copytree(src, dst, dirs_exist_ok=exist_ok)] on the directory
    [src], [dst] being what is at the destination.  The result is the new
    destination, whether everything was copied, and the rest of the fault
    schedule.  One fault is consumed for listing the source and one for
    creating the destination directory. *)
Fixpoint copytree_into (exist_ok : bool) (src : node) (dst : option node)
    (fl : list bool) {struct src} : option node * bool * list bool :=
  match src with
  | File _ => (dst, false, fl)
  | Dir es =>
      if default false (head fl) then (dst, false, tail fl) else
      if default false (head (tail fl)) then (dst, false, tail (tail fl)) else
      match dst_entries exist_ok dst with
      | None => (dst, false, tail (tail fl))
      | Some d0 =>
          let '(d', ok, fl') :=
            copy_entries (λ c d fl, copytree_into exist_ok c d fl)
              es d0 (tail (tail fl)) in
          (Some (Dir d'), ok, fl')
      end
  end.

Definition basename (p : path) : string := default EmptyString (last p).

(** [shutil.copy2(src, dst)] on paths. *)
Definition fs_copy2 (src dst : path) (n : node) : exn + node :=
  match stat src n with
  | inl e => inl e
  | inr (Dir _) => inl IsADirectoryError
  | inr (File c) =>
      match lookup_path dst n with
      | Some (Dir _) =>
          match lookup_path (dst ++ [basename src]) n with
          | Some (Dir _) => inl IsADirectoryError
          | _ => fs_update (dst ++ [basename src]) (Some (File c)) n
          end
      | _ => fs_update dst (Some (File c)) n
      end
  end.

(** [open(p, 'w')] creates or truncates the file; writing then fills it. *)
Definition fs_write (p : path) (c : content) (n : node) : exn + node :=
  match lookup_path p n with
  | Some (Dir _) => inl IsADirectoryError
  | _ => fs_update p (Some (File c)) n
  end.

(** [open(p, 'r')] followed by [json.load]. *)
Definition fs_parse (p : path) (n : node) : exn + json :=
  match stat p n with
  | inl e => inl e
  | inr (Dir _) => inl IsADirectoryError
  | inr (File (Undecodable _)) => inl UnicodeDecodeError
  | inr (File (Bytes _)) => inl JSONDecodeError
  | inr (File (JsonText j)) => inr j
  end.

(** [Path.with_suffix]: the suffix of a name starts at its last dot, unless
    that dot is the first or the last character of the name. *)
Fixpoint has_dot (s : string) : bool :=
  match s with
  | EmptyString => false
  | String c s' => Ascii.eqb c "." || has_dot s'
  end.

Fixpoint cut_last_dot (s : string) : option string :=
  match s with
  | EmptyString => None
  | String c s' =>
      match cut_last_dot s' with
      | Some r => Some (String c r)
      | None =>
          if Ascii.eqb c "." && negb (bool_decide (s' = EmptyString))
             && negb (has_dot s')
          then Some EmptyString else None
      end
  end.

Definition stem (name : string) : string :=
  match name with
  | EmptyString => EmptyString
  | String c rest =>
      match cut_last_dot rest with
      | Some r => String c r
      | None => name
      end
  end.

Definition with_suffix (suffix : string) (p : path) : path :=
  removelast p ++ [stem (basename p) +:+ suffix].

(** ** The application state *)

Inductive icon : Type := Critical | Warning | Information.

(** The text of a message box: literal text, interpolated values and
    interpolated exceptions of the f-string, in order. *)
Inductive piece : Type :=
  | Lit (s : string)
  | Val (v : json)
  | Exc (e : exn).

Record QMessageBox : Type := MessageBox {
  box_icon : icon;
  box_title : string;
  box_text : list piece
}.

(** An entry of the game list: the game's dictionary (stored under
    [Qt.ItemDataRole.UserRole]) and whether it is greyed out because the
    game has no local path on this machine. *)
Record QListWidgetItem : Type := ListItem {
  item_data : json;
  item_gray : bool
}.

Record state : Type := State {
  fs : node;                              (* the file system, from its root *)
  faults : list bool;                     (* true: the next call raises OSError;
                                             at an except PermissionError clause:
                                             the error is a PermissionError *)
  local_game_paths : gmap string path;    (* self.local_game_paths *)
  game_list_widget : list QListWidgetItem;
  selected : option nat;                  (* the selected row, if any *)
  show_overwrite_warning : bool;          (* the persisted preference *)
  shown : list QMessageBox                (* the message boxes displayed, oldest first *)
}.

Definition set_fs (n : node) (s : state) : state :=
  State n (faults s) (local_game_paths s) (game_list_widget s) (selected s)
    (show_overwrite_warning s) (shown s).

Definition set_faults (fl : list bool) (s : state) : state :=
  State (fs s) fl (local_game_paths s) (game_list_widget s) (selected s)
    (show_overwrite_warning s) (shown s).

Definition set_game_list (items : list QListWidgetItem) (sel : option nat)
    (s : state) : state :=
  State (fs s) (faults s) (local_game_paths s) items sel
    (show_overwrite_warning s) (shown s).

Definition set_show_overwrite_warning (b : bool) (s : state) : state :=
  State (fs s) (faults s) (local_game_paths s) (game_list_widget s)
    (selected s) b (shown s).

Definition add_box (b : QMessageBox) (s : state) : state :=
  State (fs s) (faults s) (local_game_paths s) (game_list_widget s)
    (selected s) (show_overwrite_warning s) (shown s ++ [b]).

(** ** Computations: state and exceptions *)

Inductive result (A : Type) : Type :=
  | Ret (a : A)
  | Raise (e : exn).
#[global] Arguments Ret {A} a.
#[global] Arguments Raise {A} e.

Definition py (A : Type) : Type := state → result A * state.

#[global] Instance py_ret : MRet py := λ A a s, (Ret a, s).

#[global] Instance py_bind : MBind py := λ A B k m s,
  match m s with
  | (Ret a, s') => k a s'
  | (Raise e, s') => (Raise e, s')
  end.

Definition raise {A : Type} (e : exn) : py A := λ s, (Raise e, s).

(** [try: m], with the exception (if any) handed to the [except] clauses. *)
Definition try {A : Type} (m : py A) : py (result A) := λ s,
  let '(r, s') := m s in (Ret r, s').

Definition lift {A : Type} (r : exn + A) : py A := λ s,
  match r with
  | inl e => (Raise e, s)
  | inr a => (Ret a, s)
  end.

Definition get_fs : py node := λ s, (Ret (fs s), s).

Fixpoint for_ {A : Type} (l : list A) (body : A → py unit) : py unit :=
  match l with
  | [] => mret tt
  | x :: l' => body x;; for_ l' body
  end.

(** A call into the operating system: it raises [OSError] when the fault
    schedule says so. *)
Definition syscall : py unit := λ s,
  match faults s with
  | true :: fl => (Raise OSError, set_faults fl s)
  | false :: fl => (Ret tt, set_faults fl s)
  | [] => (Ret tt, s)
  end.

(** The test of an [except PermissionError] clause.  The handlers that
    have one ([setup_new_server], [connect_to_existing_server], [main])
    check and read paths and write a file: the errors that these calls
    compute from the tree (a missing entry, a file or a directory in the
    way, content that cannot be read) are of other classes, and an
    [OSError] is the error of a call that failed by the schedule.  For
    that one the schedule decides: its next entry says whether the call
    was refused, that is, whether the error is a [PermissionError]. *)
Definition is_PermissionError (e : exn) : py bool := λ s,
  match e, faults s with
  | OSError, refused :: fl => (Ret refused, set_faults fl s)
  | _, _ => (Ret false, s)
  end.

Definition fs_apply (f : node → exn + node) : py unit := λ s,
  match f (fs s) with
  | inl e => (Raise e, s)
  | inr n => (Ret tt, set_fs n s)
  end.

Definition fs_do (f : node → exn + node) : py unit := syscall;; fs_apply f.

Definition fs_ask {A : Type} (f : node → exn + A) : py A :=
  syscall;; n ← get_fs; lift (f n).

Definition path_mkdir_parents_exist_ok (p : path) : py unit :=
  fs_do (fs_makedirs p).
Definition path_mkdir (p : path) : py unit := fs_do (fs_mkdir p).
Definition os_rename (src dst : path) : py unit := fs_do (fs_rename src dst).
Definition os_remove (p : path) : py unit := fs_do (fs_remove p).
Definition shutil_rmtree (p : path) : py unit := fs_do (fs_rmtree p).
Definition shutil_copy2 (src dst : path) : py unit := fs_do (fs_copy2 src dst).
Definition path_iterdir (p : path) : py (list string) := fs_ask (fs_listdir p).
Definition path_is_dir (p : path) : py bool :=
  fs_ask (λ n, inr (is_dir p n)).
Definition json_load (p : path) : py json := fs_ask (fs_parse p).

(** [with open(p, 'w') as f: json.dump(v, f, indent=4)]: opening truncates
    the file, the dump then writes the text; either can fail, and a failed
    dump leaves a file that does not parse. *)
Definition json_dump (v : json) (p : path) : py unit :=
  fs_do (fs_write p (Bytes EmptyString));;
  fs_do (fs_write p (JsonText v)).

(** The exception of a [shutil.copytree] that did not copy everything:
    the error of [os.scandir] or of [os.makedirs] when the call fails at
    the source or at the destination themselves, [shutil.Error] (which
    collects the errors met further down) otherwise. *)
Definition copytree_error (exist_ok : bool) (dst : option node)
    (fl : list bool) : exn :=
  if default false (head fl) then OSError
  else if default false (head (tail fl)) then OSError
  else match dst_entries exist_ok dst with
       | None => FileExistsError
       | Some _ => ShutilError
       end.

(** [shutil.copytree(src, dst, dirs_exist_ok=exist_ok)], for a destination
    outside the source: the missing ancestors of [dst] are created, the
    entries of [src] are copied into [dst], and an exception is raised at
    the end if any of them failed. *)
Definition shutil_copytree (exist_ok : bool) (src dst : path) : py unit := λ s,
  match stat src (fs s) with
  | inl e => (Raise e, s)
  | inr (File _) => (Raise NotADirectoryError, s)
  | inr (Dir es) =>
      match fs_makedirs (removelast dst) (fs s) with
      | inl e => (Raise e, s)
      | inr n1 =>
          let '(r, ok, fl) :=
            copytree_into exist_ok (Dir es) (lookup_path dst n1) (faults s) in
          let n2 := match r, update_path dst r n1 with
                    | Some _, Some n2 => n2
                    | _, _ => fs s
                    end in
          (if ok then Ret tt
           else Raise (copytree_error exist_ok (lookup_path dst n1) (faults s)),
           set_faults fl (set_fs n2 s))
      end
  end.

(** [shutil.move(src, dst)]: into [dst] when that is a directory, by
    [os.rename] when that works, by copy and removal otherwise. *)
Definition shutil_move (src dst : path) : py unit :=
  n ← get_fs;
  if is_dir dst n && bool_decide (src = dst) then os_rename src dst else
  let real_dst := if is_dir dst n then dst ++ [basename src] else dst in
  if is_dir dst n && exists_path real_dst n then raise ShutilError else
  r ← try (os_rename src real_dst);
  match r with
  | Ret _ => mret tt
  | Raise e =>
      if is_OSError e then
        n ← get_fs;
        if is_dir src n then
          if bool_decide (src `prefix_of` dst) then raise ShutilError
          else shutil_copytree false src real_dst;; shutil_rmtree src
        else shutil_copy2 src real_dst;; os_remove src
      else raise e
  end.

(** ** Message boxes and widgets *)

Definition message_box (i : icon) (title : string) (text : list piece)
  : py unit := λ s, (Ret tt, add_box (MessageBox i title text) s).

Definition nl : string := String (ascii_of_nat 10) EmptyString.

Definition critical (title : string) (text : list piece) : py unit :=
  message_box Critical title text.
Definition warning (title : string) (text : list piece) : py unit :=
  message_box Warning title text.
Definition information (title : string) (text : list piece) : py unit :=
  message_box Information title text.

(** [self.game_list_widget.clear()] (the selection goes with the items) and
    [addItem]. *)
Definition clear_game_list : py unit := λ s,
  (Ret tt, set_game_list [] None s).
Definition add_item (item : QListWidgetItem) : py unit := λ s,
  (Ret tt, set_game_list (game_list_widget s ++ [item]) (selected s) s).

(** [self.get_selected_game_item()]. *)
Definition get_selected_game_item : py (option QListWidgetItem) := λ s,
  (Ret (selected s ≫= λ i, game_list_widget s !! i), s).

(** Python hashes a dictionary key before looking it up: a list or a dict
    as key raises [TypeError].  The keys of the local path map are strings. *)
Definition paths_get (game_id : json) : py (option path) := λ s,
  match game_id with
  | JStr k => (Ret (local_game_paths s !! k), s)
  | JList _ | JDict _ => (Raise TypeError, s)
  | _ => (Ret None, s)
  end.

(** A string that names one entry of a directory: it is not empty, it is
    neither [.] nor [..], and it holds no separator and no NUL character. *)
Definition plain_name (x : string) : bool :=
  negb (bool_decide (x = EmptyString))
  && negb (bool_decide (x = ".")) && negb (bool_decide (x = ".."))
  && forallb (λ c, negb (Ascii.eqb c "/") && negb (Ascii.eqb c "\")
                   && negb (Ascii.eqb c "000"))
       (list_ascii_of_string x).

(** [p / v]: only a string can be joined to a path.  The string is taken
    as one component of the path, which is what [pathlib] does with a
    [plain_name]; it reads a string with a separator as several
    components, [..] as a step to the parent, and an absolute path as the
    result. *)
Definition path_join (p : path) (v : json) : py path :=
  match v with
  | JStr x => mret (p ++ [x])
  | _ => raise TypeError
  end.

(** The answer of the user to the overwrite warning. *)
Record reply : Type := Reply {
  clicked_ok : bool;
  dont_show_again : bool
}.

(** [MainWindow._show_overwrite_warning]. *)
Definition _show_overwrite_warning (user : reply) (title : string)
    (text : list piece) : py bool := λ s,
  if negb (show_overwrite_warning s) then (Ret true, s)
  else
    let s1 := add_box (MessageBox Warning title text) s in
    let s2 := if dont_show_again user
              then set_show_overwrite_warning false s1 else s1 in
    (Ret (clicked_ok user), s2).

(** [MainWindow._clear_directory_contents]; [remove_item] is the body of
    its loop. *)
Definition remove_item (item : path) : py unit :=
  d ← path_is_dir item;
  if (d : bool) then shutil_rmtree item else os_remove item.

Definition _clear_directory_contents (dir_path : path) : py unit :=
  d ← path_is_dir dir_path;
  if negb d then mret tt
  else
    items ← path_iterdir dir_path;
    for_ items (λ name, remove_item (dir_path ++ [name])).

(** The fields of [AddGameDialog] when the dialog closes, and the button
    that closed it. *)
Record AddGameDialog : Type := Dialog {
  game_name_edit : string;
  local_path : option path;
  pressed_ok : bool
}.

(** [AddGameDialog.validate_and_accept]: the dialog is accepted only with a
    name that is not blank and a selected directory. *)
Definition validate_and_accept (d : AddGameDialog) : bool :=
  negb (bool_decide (strip (game_name_edit d) = EmptyString))
  && bool_decide (is_Some (local_path d)).

(** [dialog.exec() == QDialog.Accepted]. *)
Definition dialog_accepted (d : AddGameDialog) : bool :=
  pressed_ok d && validate_and_accept d.

(** [AddGameDialog.get_data]. *)
Definition get_data (d : AddGameDialog) : string * option path :=
  (strip (game_name_edit d), local_path d).

(** [existing_names = [g['name'].lower() for g in games]]. *)
Fixpoint lower_names (games : list json) : exn + list string :=
  match games with
  | [] => inr []
  | g :: games' =>
      match py_getitem "name" g with
      | inl e => inl e
      | inr v =>
          match py_lower v with
          | inl e => inl e
          | inr x =>
              match lower_names games' with
              | inl e => inl e
              | inr xs => inr (x :: xs)
              end
          end
      end
  end.

(** [server_data["games"].append(new_game_data)]: the list inside the
    document is extended in place. *)
Definition append_game (new_game_data : json) (server_data : json)
  : exn + json :=
  match py_getitem "games" server_data with
  | inl e => inl e
  | inr games =>
      match py_append new_game_data games, server_data with
      | inr games', JDict d => inr (JDict (assoc_set "games" games' d))
      | inl e, _ => inl e
      | _, _ => inl TypeError
      end
  end.

(** ** [MainWindow] *)
Section MainWindow.
(** [self.server_path] and [self.local_backup_root]. *)
Variables (server_path local_backup_root : path).

Definition games_json_path : path := server_path ++ ["games.json"].

Definition games_json_temp_path : path :=
  with_suffix ".json.tmp" games_json_path.

(** The body of the loop of [load_games_from_json]: entries that are not
    dictionaries, or whose [id] or [name] is missing or false, are skipped.
    [QListWidgetItem(game_name)] takes a string. *)
Definition list_game (game : json) : py unit :=
  match game with
  | JDict d =>
      let game_id := default JNull (assoc_get "id" d) in
      let game_name := default JNull (assoc_get "name" d) in
      if negb (truthy game_id) || negb (truthy game_name) then mret tt
      else
        match game_name with JStr _ => mret tt | _ => raise TypeError end;;
        local ← paths_get game_id;
        add_item (ListItem game (negb (bool_decide (is_Some local))))
  | _ => mret tt
  end.

(** The [try] block of [load_games_from_json]. *)
Definition read_games_list : py (list json) :=
  data ← json_load games_json_path;
  match data with
  | JDict d =>
      match assoc_get "games" d with
      | Some (JList games_list) => mret games_list
      | _ => raise TypeError
      end
  | _ => raise TypeError
  end.

(** [MainWindow.load_games_from_json].  The final [update_ui_state] finds
    no selection (the list was cleared) and only disables buttons. *)
Definition load_games_from_json : py unit :=
  clear_game_list;;
  r ← try read_games_list;
  match r with
  | Raise JSONDecodeError =>
      critical "Error Loading Games"
        [Lit ("'games.json' is corrupted and cannot be read."
              +:+ nl +:+ nl +:+ "Error: "); Exc JSONDecodeError]
  | Raise TypeError =>
      critical "Error Loading Games"
        [Lit ("'games.json' has an invalid format."
              +:+ nl +:+ nl +:+ "Error: "); Exc TypeError]
  | Raise e =>
      critical "Error Loading Games"
        [Lit "Could not read 'games.json': "; Exc e]
  | Ret games_list => for_ games_list list_game
  end.

(** The end of step 2 of [add_new_game]: the document is written to the
    temporary file, which is then renamed over the manifest. *)
Definition write_games_json (server_data : json) : py unit :=
  json_dump server_data games_json_temp_path;;
  os_rename games_json_temp_path games_json_path.

(** The [try] block of step 2 of [add_new_game]: read the manifest, check
    the name, append the record, write the manifest. *)
Definition update_games_json (game_name : string) (new_game_data : json)
    (game_server_dir : path) : py unit :=
  server_data ← json_load games_json_path;
  games ← lift (py_get "games" server_data);
  items ← lift (py_iter (default (JList []) games));
  existing_names ← lift (lower_names items);
  if bool_decide (lower game_name ∈ existing_names) then
    warning "Duplicate Game"
      [Lit "A game named '"; Val (JStr game_name); Lit "' already exists."];;
    shutil_rmtree game_server_dir
  else
    server_data' ← lift (append_game new_game_data server_data);
    write_games_json server_data'.

(** [MainWindow.add_new_game].  The handler ends after step 2: nothing
    follows its comment "3. Save Local Path". *)
Definition add_new_game (dialog : AddGameDialog) (uuid4 : N) : py unit :=
  if negb (dialog_accepted dialog) then mret tt
  else
    let game_name := (get_data dialog).1 in
    let game_id := uuid_str uuid4 in
    let new_game_data :=
      JDict [("id", JStr game_id); ("name", JStr game_name)] in
    let game_server_dir := server_path ++ [game_id] in
    r ← try (path_mkdir_parents_exist_ok (game_server_dir ++ ["save_data"]);;
             path_mkdir_parents_exist_ok (game_server_dir ++ ["backup"]));
    match r with
    | Raise e =>
        critical "Server Error"
          [Lit "Could not create server directories: "; Exc e]
    | Ret _ =>
        r ← try (update_games_json game_name new_game_data game_server_dir);
        match r with
        | Raise e =>
            critical "Server Error"
              [Lit "Could not update 'games.json': "; Exc e];;
            r ← try (shutil_rmtree game_server_dir);
            match r with
            | Raise e_roll =>
                critical "Rollback Error"
                  [Lit "Failed to update JSON and also failed to clean up directories: ";
                   Exc e_roll]
            | Ret _ => mret tt
            end
        | Ret _ => mret tt
        end
    end.

(** Step 1 of [upload_save]: the server's save is moved to the backup
    folder when there is anything in it. *)
Definition backup_server_save (server_save_path backup_dest : path)
  : py unit :=
  names ← path_iterdir server_save_path;
  if bool_decide (names = []) then mret tt
  else shutil_move server_save_path backup_dest;;
       path_mkdir server_save_path.

(** The [try] block of [upload_save]; [now] is the time stamp
    [datetime.now().strftime("%Y-%m-%d_%H-%M-%S")]. *)
Definition upload_files (now : string) (game_id game_name : json)
    (local_path : path) : py unit :=
  game_dir ← path_join server_path game_id;
  let server_save_path := game_dir ++ ["save_data"] in
  let server_backup_path := game_dir ++ ["backup"] in
  let backup_dest := server_backup_path ++ [now] in
  backup_server_save server_save_path backup_dest;;
  shutil_copytree true local_path server_save_path;;
  information "Upload Complete"
    [Lit "Successfully uploaded save for '"; Val game_name; Lit "'."].

(** [MainWindow.upload_save]. *)
Definition upload_save (now : string) (user : reply) : py unit :=
  selected_item ← get_selected_game_item;
  match selected_item with
  | None => mret tt
  | Some item =>
      let game_data := item_data item in
      game_id ← lift (py_getitem "id" game_data);
      game_name ← lift (py_getitem "name" game_data);
      local_path_str ← paths_get game_id;
      match local_path_str with
      | None | Some [] => warning "Error" [Lit "Local path not set."]
      | Some local_path =>
          go ← _show_overwrite_warning user "Confirm Upload"
                 [Lit "This will overwrite the server save data for '";
                  Val game_name;
                  Lit ("'." +:+ nl +:+ nl
                       +:+ "The existing server data will be backed up. Continue?")];
          if negb go then mret tt
          else
            r ← try (upload_files now game_id game_name local_path);
            match r with
            | Raise e =>
                critical "Upload Failed" [Lit "An error occurred: "; Exc e]
            | Ret _ => mret tt
            end
      end
  end.

(** Step 1 of [download_save]: the backup folder is created, then the
    local save is copied into it and cleared when there is anything in
    it. *)
Definition backup_local_save (local_path backup_dest : path) : py unit :=
  path_mkdir_parents_exist_ok backup_dest;;
  names ← path_iterdir local_path;
  if bool_decide (names = []) then mret tt
  else shutil_copytree true local_path backup_dest;;
       _clear_directory_contents local_path.

(** The [try] block of [download_save]. *)
Definition download_files (now : string) (game_id game_name : json)
    (local_path : path) : py unit :=
  game_dir ← path_join server_path game_id;
  let server_save_path := game_dir ++ ["save_data"] in
  backup_dir ← path_join local_backup_root game_id;
  let backup_dest := backup_dir ++ [now] in
  backup_local_save local_path backup_dest;;
  shutil_copytree true server_save_path local_path;;
  information "Download Complete"
    [Lit "Successfully downloaded save for '"; Val game_name; Lit "'."].

(** [MainWindow.download_save]. *)
Definition download_save (now : string) (user : reply) : py unit :=
  selected_item ← get_selected_game_item;
  match selected_item with
  | None => mret tt
  | Some item =>
      let game_data := item_data item in
      game_id ← lift (py_getitem "id" game_data);
      game_name ← lift (py_getitem "name" game_data);
      local_path_str ← paths_get game_id;
      match local_path_str with
      | None | Some [] => warning "Error" [Lit "Local path not set."]
      | Some local_path =>
          go ← _show_overwrite_warning user "Confirm Download"
                 [Lit "This will overwrite your local save data for '";
                  Val game_name;
                  Lit ("'." +:+ nl +:+ nl
                       +:+ "Your existing local data will be backed up. Continue?")];
          if negb go then mret tt
          else
            r ← try (download_files now game_id game_name local_path);
            match r with
            | Raise e =>
                critical "Download Failed" [Lit "An error occurred: "; Exc e]
            | Ret _ => mret tt
            end
      end
  end.
End MainWindow.

(** ** The data model of the specification *)

(** A game record of the catalog and its JSON form ([new_game_data] in
    [add_new_game]). *)
Record GameRecord : Type := Game {
  rec_id : string;
  rec_name : string
}.

Definition record_json (g : GameRecord) : json :=
  JDict [("id", JStr (rec_id g)); ("name", JStr (rec_name g))].

(** The manifest [{ "games": [...] }] of a catalog. *)
Definition manifest_json (c : list GameRecord) : json :=
  JDict [("games", JList (record_json <$> c))].

(** A record has an identifier and a name. *)
Definition valid_record (g : GameRecord) : Prop :=
  rec_id g ≠ EmptyString ∧ rec_name g ≠ EmptyString.

(** Identifiers are unique, names are unique up to case. *)
Definition catalog_invariant (c : list GameRecord) : Prop :=
  NoDup (rec_id <$> c) ∧ NoDup ((λ g, lower (rec_name g)) <$> c).

(** An entry of the manifest that lacks an identifier or a name. *)
Definition incomplete_entry (d : list (string * json)) : Prop :=
  assoc_get "id" d = None ∨ assoc_get "name" d = None.

(** The schema the loader accepts: an object whose [games] is a list. *)
Definition valid_schema (data : json) : bool :=
  match data with
  | JDict d =>
      match assoc_get "games" d with
      | Some (JList _) => true
      | _ => false
      end
  | _ => false
  end.

(** Neither path is an ancestor of (or equal to) the other. *)
Definition incomparable (p q : path) : Prop :=
  ¬ p `prefix_of` q ∧ ¬ q `prefix_of` p.

#[global] Instance valid_record_dec g : Decision (valid_record g).
Proof. unfold valid_record. apply _. Defined.

#[global] Instance catalog_invariant_dec c : Decision (catalog_invariant c).
Proof. unfold catalog_invariant. apply _. Defined.

#[global] Instance incomparable_dec p q : Decision (incomparable p q).
Proof. unfold incomparable, path in *. apply _. Defined.

(** [s'] differs from [s] in the file system and the fault schedule only. *)
Definition io_step (s s' : state) : Prop :=
  s' = set_faults (faults s') (set_fs (fs s') s).

(** [n'] agrees with [n] everywhere but at [p], above it and below it. *)
Definition changes_only (p : path) (n n' : node) : Prop :=
  ∀ q, incomparable p q → lookup_path q n' = lookup_path q n.

(** A computation that never changes the local path map. *)
Definition keeps_local_paths {A : Type} (m : py A) : Prop :=
  ∀ s, local_game_paths (m s).2 = local_game_paths s.

(** A computation that only acts on the file system (and consumes faults). *)
Definition io_only {A : Type} (m : py A) : Prop :=
  ∀ s r s', m s = (r, s') → io_step s s'.

(** The message boxes of the handlers. *)
Definition corrupt_manifest : QMessageBox :=
  MessageBox Critical "Error Loading Games"
    [Lit ("'games.json' is corrupted and cannot be read."
          +:+ nl +:+ nl +:+ "Error: "); Exc JSONDecodeError].

Definition invalid_schema : QMessageBox :=
  MessageBox Critical "Error Loading Games"
    [Lit ("'games.json' has an invalid format."
          +:+ nl +:+ nl +:+ "Error: "); Exc TypeError].

Definition could_not_read (e : exn) : QMessageBox :=
  MessageBox Critical "Error Loading Games"
    [Lit "Could not read 'games.json': "; Exc e].

Definition could_not_create_directories (e : exn) : QMessageBox :=
  MessageBox Critical "Server Error"
    [Lit "Could not create server directories: "; Exc e].

Definition could_not_update (e : exn) : QMessageBox :=
  MessageBox Critical "Server Error"
    [Lit "Could not update 'games.json': "; Exc e].

Definition upload_failed (e : exn) : QMessageBox :=
  MessageBox Critical "Upload Failed" [Lit "An error occurred: "; Exc e].

Definition download_failed (e : exn) : QMessageBox :=
  MessageBox Critical "Download Failed" [Lit "An error occurred: "; Exc e].

Definition local_path_not_set : QMessageBox :=
  MessageBox Warning "Error" [Lit "Local path not set."].

Definition duplicate_game (game_name : string) : QMessageBox :=
  MessageBox Warning "Duplicate Game"
    [Lit "A game named '"; Val (JStr game_name); Lit "' already exists."].

Definition rollback_error (e : exn) : QMessageBox :=
  MessageBox Critical "Rollback Error"
    [Lit "Failed to update JSON and also failed to clean up directories: ";
     Exc e].

Definition upload_complete (game_name : json) : QMessageBox :=
  MessageBox Information "Upload Complete"
    [Lit "Successfully uploaded save for '"; Val game_name; Lit "'."].

Definition download_complete (game_name : json) : QMessageBox :=
  MessageBox Information "Download Complete"
    [Lit "Successfully downloaded save for '"; Val game_name; Lit "'."].

(** ** A small installation, used in the examples

    The server share is [/srv], the application keeps its backups under
    [/home/cfg/backups], and the saves of the game are in [/home/celeste]. *)
Definition demo_server : path := ["srv"].
Definition demo_backups : path := ["home"; "cfg"; "backups"].
Definition demo_local : path := ["home"; "celeste"].

Definition demo_fs : node :=
  Dir [("srv", Dir [("games.json", File (JsonText (manifest_json [])))]);
       ("home", Dir [("celeste", Dir [("a.txt", File (Bytes "x"))])])].

Definition demo_state : state := State demo_fs [] ∅ [] None true [].

Definition demo_dialog : AddGameDialog := Dialog "Celeste" (Some demo_local) true.

(** The installation once the game "Celeste" is registered under the
    identifier [g1], configured on this machine and selected in the list:
    the server holds the save [{a.txt: "x"}], the local directory holds
    [{a.txt: "y"}]. *)
Definition demo_game : GameRecord := Game "g1" "Celeste".

Definition demo_synced_fs : node :=
  Dir [("srv", Dir [("games.json", File (JsonText (manifest_json [demo_game])));
                    ("g1", Dir [("save_data", Dir [("a.txt", File (Bytes "x"))]);
                                ("backup", Dir [])])]);
       ("home", Dir [("celeste", Dir [("a.txt", File (Bytes "y"))])])].

Definition demo_synced : state :=
  State demo_synced_fs [] {[ "g1" := demo_local ]}
    [ListItem (record_json demo_game) false] (Some 0) true [].

(** The same installation on a machine whose local save directory is
    still empty. *)
Definition demo_empty_local_fs : node :=
  Dir [("srv", Dir [("games.json", File (JsonText (manifest_json [demo_game])));
                    ("g1", Dir [("save_data", Dir [("a.txt", File (Bytes "x"))]);
                                ("backup", Dir [])])]);
       ("home", Dir [("celeste", Dir [])])].

Definition demo_empty_local : state :=
  State demo_empty_local_fs [] {[ "g1" := demo_local ]}
    [ListItem (record_json demo_game) false] (Some 0) true [].

(** The same installation before the first upload: the server's
    [save_data] is still empty. *)
Definition demo_empty_server_fs : node :=
  Dir [("srv", Dir [("games.json", File (JsonText (manifest_json [demo_game])));
                    ("g1", Dir [("save_data", Dir []); ("backup", Dir [])])]);
       ("home", Dir [("celeste", Dir [("a.txt", File (Bytes "x"))])])].

Definition demo_empty_server : state :=
  State demo_empty_server_fs [] {[ "g1" := demo_local ]}
    [ListItem (record_json demo_game) false] (Some 0) true [].

(** A manifest with a complete record and an entry that has no name. *)
Definition demo_nameless_fs : node :=
  Dir [("srv", Dir [("games.json",
          File (JsonText (JDict [("games",
            JList [record_json (Game "g1" "Hades");
                   JDict [("id", JStr "g2")]])])))]);
       ("home", Dir [("celeste", Dir [("a.txt", File (Bytes "x"))])])].

Definition demo_nameless : state := State demo_nameless_fs [] ∅ [] None true [].

(** A manifest whose only entry has a name but no identifier. *)
Definition demo_idless : state :=
  State (Dir [("srv", Dir [("games.json",
                 File (JsonText (JDict [("games",
                   JList [JDict [("name", JStr "Celeste")]])])))])])
    [] ∅ [] None true [].

Definition demo_dialog2 : AddGameDialog :=
  Dialog "Hollow Knight" (Some ["home"; "hollow"]) true.

Definition demo_time : string := "2024-05-01_12-00-00".

(** The registered game on a new machine: it is listed, greyed out, and
    has no local path yet. *)
Definition demo_new_machine : state :=
  State demo_synced_fs [] ∅ [ListItem (record_json demo_game) true] (Some 0)
    true [].

(** Manifests that cannot be used: text that is not JSON, bytes that are
    no text (the byte 255 is in no UTF-8 text), a document whose [games] is
    not a list, and no file at all. *)
Definition demo_corrupt : state :=
  State (Dir [("srv", Dir [("games.json", File (Bytes "{oops"))])])
    [] ∅ [] None true [].

Definition demo_undecodable : state :=
  State (Dir [("srv", Dir [("games.json",
                 File (Undecodable (String (ascii_of_nat 255) "{}")))])])
    [] ∅ [] None true [].

Definition demo_not_a_list : state :=
  State (Dir [("srv", Dir [("games.json",
                 File (JsonText (JDict [("games", JStr "not-a-list")])))])])
    [] ∅ [] None true [].

Definition demo_missing : state :=
  State (Dir [("srv", Dir [])]) [] ∅ [] None true [].

(** ** The rest of the main window *)

(** [str(p)] for an absolute POSIX path (the empty string for the empty
    path). *)
Definition str_of_path (p : path) : string :=
  foldr (λ x r, "/" +:+ x +:+ r) EmptyString p.

(** The widgets on the right of the main window that [update_ui_state]
    sets: whether a button is enabled (visible, for the button "Set Local
    Path..."), and the text of the status label. *)
Record controls : Type := Controls {
  upload_button : bool;
  download_button : bool;
  set_local_path_button : bool;
  status_label : list piece;
  upload_all_button : bool;
  download_all_button : bool
}.

(** The widgets as [MainWindow.__init__] creates them. *)
Definition initial_controls : controls :=
  Controls true true true [Lit "Select a game to see its status."] true true.

Definition set_local_game_paths (m : gmap string path) (s : state) : state :=
  State (fs s) (faults s) m (game_list_widget s) (selected s)
    (show_overwrite_warning s) (shown s).

(** [self.game_list_widget.count()]. *)
Definition list_count : py nat := λ s,
  (Ret (length (game_list_widget s)), s).

(** [MainWindow.update_ui_state].  Without a selection it returns before
    it reaches the two bulk buttons, which keep their state. *)
Definition update_ui_state (c : controls) : py controls :=
  selected_item ← get_selected_game_item;
  match selected_item with
  | None =>
      mret (Controls false false false [Lit "Select a game from the list."]
              (upload_all_button c) (download_all_button c))
  | Some item =>
      let game_data := item_data item in
      game_id ← lift (py_get "id" game_data);
      game_name ← lift (py_get "name" game_data);
      local ← paths_get (default JNull game_id);
      n ← list_count;
      let bulk := bool_decide (0 < n) in
      match local with
      | None =>
          mret (Controls false false true
                  [Val (default JNull game_name);
                   Lit (" is not configured on this PC." +:+ nl +:+ nl
                        +:+ "Please set the local save directory.")]
                  bulk bulk)
      | Some local_path =>
          mret (Controls true true false
                  [Lit "Game: "; Val (default JNull game_name);
                   Lit (nl +:+ "Local Path: ");
                   Val (JStr (str_of_path local_path))]
                  bulk bulk)
      end
  end.

(** The loop at the end of [set_local_path]: the first item whose [id]
    equals the string [game_id] is selected. *)
Fixpoint find_id (game_id : string) (items : list QListWidgetItem) (i : nat)
  : exn + option nat :=
  match items with
  | [] => inr None
  | item :: items' =>
      match py_get "id" (item_data item) with
      | inl e => inl e
      | inr (Some (JStr x)) =>
          if bool_decide (x = game_id) then inr (Some i)
          else find_id game_id items' (S i)
      | inr _ => find_id game_id items' (S i)
      end
  end.

Definition reselect (game_id : string) : py unit := λ s,
  match find_id game_id (game_list_widget s) 0 with
  | inl e => (Raise e, s)
  | inr None => (Ret tt, s)
  | inr (Some i) => (Ret tt, set_game_list (game_list_widget s) (Some i) s)
  end.

Section MainWindow_controls.
Variable server_path : path.

(** [MainWindow.__init__], from the point where the widgets exist: the
    manifest is loaded and the controls are set. *)
Definition MainWindow_init : py controls :=
  load_games_from_json server_path;;
  update_ui_state initial_controls.

(** The end of [set_local_path], once the path is stored: the list is
    reloaded, the game is selected again and the controls are set.
    [load_games_from_json] ends with [update_ui_state] unless it reported
    an error; in that case the same call was made when the list was
    cleared, through the signal [itemSelectionChanged] (an item was
    selected).  The further calls that this signal triggers set the same
    widgets from the same state. *)
Definition reload_and_reselect (game_id : string) (c : controls)
  : py controls :=
  load_games_from_json server_path;;
  c1 ← update_ui_state c;
  reselect game_id;;
  update_ui_state c1.

(** [MainWindow.set_local_path]; [path_str] is the answer of the directory
    dialog, empty when the user cancelled it.  The local path map of the
    model has string keys, as the identifiers the application issues are
    strings; Python also accepts a number, a boolean or [None] as the key
    of [self.local_game_paths[game_id] = path_str], which this map cannot
    hold: the result is [None] there, and the function is modelled for the
    other identifiers only.  A list or a dictionary as key raises
    [TypeError]. *)
Definition set_local_path (path_str : path) (c : controls) (s : state)
  : option (result controls * state) :=
  match get_selected_game_item s with
  | (Ret (Some item), _) =>
      let game_data := item_data item in
      match py_get "id" game_data, py_get "name" game_data with
      | inr game_id, inr _ =>
          match path_str with
          | [] => Some (Ret c, s)
          | _ :: _ =>
              match default JNull game_id with
              | JStr k =>
                  Some (reload_and_reselect k c
                          (set_local_game_paths
                             (<[k := path_str]> (local_game_paths s)) s))
              | JList _ | JDict _ => Some (Raise TypeError, s)
              | _ => None
              end
          end
      | inl e, _ | _, inl e => Some (Raise e, s)
      end
  | _ => Some (Ret c, s)
  end.
End MainWindow_controls.

(** ** [WelcomeDialog] and [main] *)

Definition is_file (p : path) (n : node) : bool :=
  match lookup_path p n with Some (File _) => true | _ => false end.

(** [Path.exists()] and [Path.is_file()]: a missing path is not an error,
    a failing call is. *)
Definition path_exists (p : path) : py bool :=
  fs_ask (λ n, inr (exists_path p n)).
Definition path_is_file (p : path) : py bool :=
  fs_ask (λ n, inr (is_file p n)).

(** [WelcomeDialog.setup_new_server]; [path_str] is the answer of the
    directory dialog.  The result is the server path that was stored in the
    settings when the dialog was accepted, [None] when it stays open. *)
Definition setup_new_server (path_str : path) : py (option path) :=
  match path_str with
  | [] => mret None
  | _ :: _ =>
      let server_path := path_str in
      let games_json_path := server_path ++ ["games.json"] in
      found ← path_exists games_json_path;
      if (found : bool) then
        warning "Server Already Exists"
          [Lit ("'games.json' already found in this directory." +:+ nl +:+ nl
                +:+ "If you want to connect to this server, "
                +:+ "please choose 'Connect to Existing Server' instead.")];;
        mret None
      else
        r ← try (json_dump (JDict [("games", JList [])]) games_json_path;;
                 information "Success!"
                   [Lit ("New server successfully created at:" +:+ nl);
                    Val (JStr (str_of_path server_path))]);
        match r with
        | Ret _ => mret (Some server_path)
        | Raise e =>
            refused ← is_PermissionError e;
            if (refused : bool) then
              critical "Permission Error"
                [Lit ("Could not write to this directory." +:+ nl +:+ nl
                      +:+ "If this is a network drive (e.g., Samba server), "
                      +:+ "please ensure you are connected in your operating system "
                      +:+ "and have write permissions.")];;
              mret None
            else
              critical "Error" [Lit "An unexpected error occurred: "; Exc e];;
              mret None
        end
  end.

(** [WelcomeDialog.connect_to_existing_server].  When [games.json] is not
    a file, the call [QMessageBox.warning(self, f"...")] lacks its text
    argument and raises [TypeError] inside the [try] block, so the general
    clause reports it. *)
Definition connect_to_existing_server (path_str : path) : py (option path) :=
  match path_str with
  | [] => mret None
  | _ :: _ =>
      let server_path := path_str in
      let games_json_path := server_path ++ ["games.json"] in
      r ← try (found ← path_is_file games_json_path;
               if (found : bool) then json_load games_json_path;; mret tt
               else raise TypeError);
      match r with
      | Raise e =>
          refused ← is_PermissionError e;
          if (refused : bool) then
            critical "Permission Error"
              [Lit ("Could not read from this directory." +:+ nl +:+ nl
                    +:+ "If this is a network drive (e.g., Samba server), "
                    +:+ "please ensure you are connected in your operating system.")];;
            mret None
          else
            warning "File Corrupted"
              [Lit ("Found 'games.json', but it could not be read." +:+ nl
                    +:+ "The file may be corrupted." +:+ nl +:+ nl +:+ "Error: ");
               Exc e];;
            mret None
      | Ret _ =>
          information "Success!"
            [Lit ("Successfully connected to server at:" +:+ nl);
             Val (JStr (str_of_path server_path))];;
          mret (Some server_path)
      end
  end.

(** What the user does in the welcome dialog, one button after the other. *)
Inductive welcome_click : Type :=
  | SetUpNewServer (path_str : path)
  | ConnectToExistingServer (path_str : path)
  | Cancel.

(** [welcome_dialog.exec()]: the dialog stays open until a button handler
    accepts it or the user cancels (or closes) it.  An exception that
    leaves a handler is printed and the dialog goes on. *)
Fixpoint WelcomeDialog_exec (clicks : list welcome_click) : py (option path) :=
  match clicks with
  | [] | Cancel :: _ => mret None
  | SetUpNewServer path_str :: clicks' =>
      r ← try (setup_new_server path_str);
      match r with
      | Ret (Some server_path) => mret (Some server_path)
      | _ => WelcomeDialog_exec clicks'
      end
  | ConnectToExistingServer path_str :: clicks' =>
      r ← try (connect_to_existing_server path_str);
      match r with
      | Ret (Some server_path) => mret (Some server_path)
      | _ => WelcomeDialog_exec clicks'
      end
  end.

(** How [main] ends: with [sys.exit(code)] before any window, or with the
    main window on the screen. *)
Inductive outcome : Type :=
  | Exit (code : nat)
  | MainWindowShown (server_path : path) (c : controls).

(** [main]; [configured] is the server path of the settings ([None] when
    there is none), and the result carries the server path of the settings
    when [main] is done. *)
Definition main (configured : option path) (clicks : list welcome_click)
  : py (outcome * option path) :=
  match configured with
  | None | Some [] =>
      accepted ← WelcomeDialog_exec clicks;
      match accepted with
      | Some server_path =>
          c ← MainWindow_init server_path;
          mret (MainWindowShown server_path c, Some server_path)
      | None => mret (Exit 0, configured)
      end
  | Some server_path =>
      r ← try (path_is_file (server_path ++ ["games.json"]));
      match r with
      | Ret true =>
          c ← MainWindow_init server_path;
          mret (MainWindowShown server_path c, configured)
      | Ret false =>
          critical "Server Not Found"
            [Lit ("Could not find 'games.json' at the configured path:" +:+ nl);
             Val (JStr (str_of_path server_path));
             Lit (nl +:+ nl
                  +:+ "The server may be disconnected or the file is missing."
                  +:+ nl +:+ "Rayforge Sync will now exit.")];;
          mret (Exit 1, None)
      | Raise e =>
          refused ← is_PermissionError e;
          if (refused : bool) then
            critical "Permission Error"
              [Lit ("Could not access the server path:" +:+ nl);
               Val (JStr (str_of_path server_path));
               Lit (nl +:+ nl
                    +:+ "If this is a network drive (e.g., Samba server), "
                    +:+ "please ensure you are connected in your operating system."
                    +:+ nl +:+ "Rayforge Sync will now exit.")];;
            mret (Exit 1, configured)
          else
            critical "Startup Error"
              [Lit ("An unexpected error occurred while accessing the server path:"
                    +:+ nl);
               Exc e; Lit (nl +:+ "Rayforge Sync will now exit.")];;
            mret (Exit 1, configured)
      end
  end.

(** ** Notions used in the further properties *)

(** A computation that leaves the entries at the paths in [P] as they
    are, however it ends. *)
Definition preserves {A : Type} (P : path → Prop) (m : py A) : Prop :=
  ∀ s r s', m s = (r, s') →
            ∀ q, P q → lookup_path q (fs s') = lookup_path q (fs s).

(** The confirmation dialogs of [upload_save] and [download_save]. *)
Definition confirm_upload (game_name : json) : QMessageBox :=
  MessageBox Warning "Confirm Upload"
    [Lit "This will overwrite the server save data for '"; Val game_name;
     Lit ("'." +:+ nl +:+ nl
          +:+ "The existing server data will be backed up. Continue?")].

Definition confirm_download (game_name : json) : QMessageBox :=
  MessageBox Warning "Confirm Download"
    [Lit "This will overwrite your local save data for '"; Val game_name;
     Lit ("'." +:+ nl +:+ nl
          +:+ "Your existing local data will be backed up. Continue?")].

(** No file lies on the way to [p]: walking down [p] from [n] meets
    directories only, until [p] or the first missing entry is reached.
    The directory [p] then exists or can be created. *)
Fixpoint no_file_on_the_way (p : path) (n : node) : bool :=
  match n with
  | File _ => false
  | Dir es =>
      match p with
      | [] => true
      | x :: p' =>
          match assoc_get x es with
          | Some c => no_file_on_the_way p' c
          | None => true
          end
      end
  end.

(** The installation of the examples when the game's directory is missing
    on the server. *)
Definition demo_no_server_save : state :=
  State (Dir [("srv", Dir [("games.json",
                 File (JsonText (manifest_json [demo_game])))]);
              ("home", Dir [("celeste", Dir [("a.txt", File (Bytes "y"))])])])
    [] {[ "g1" := demo_local ]}
    [ListItem (record_json demo_game) false] (Some 0) true [].

(** The entries of the manifest that the loader lists: the dictionaries
    with a true [id] and a true [name]; and the identifier of such an
    entry when it is a string. *)
Definition listed (game : json) : bool :=
  match game with
  | JDict d =>
      truthy (default JNull (assoc_get "id" d))
      && truthy (default JNull (assoc_get "name" d))
  | _ => false
  end.

Definition id_of (game : json) : string :=
  match py_getitem "id" game with
  | inr (JStr game_id) => game_id
  | _ => EmptyString
  end.

(** The entry has a string as [id] and a string as [name]. *)
Definition string_entry (game : json) : Prop :=
  ∃ game_id game_name,
    py_getitem "id" game = inr (JStr game_id) ∧
    py_getitem "name" game = inr (JStr game_name).

(** A manifest with a complete record, a record without a name, an entry
    that is no object and a record with an empty identifier. *)
Definition demo_mixed_games : list json :=
  [record_json (Game "g1" "Hades"); JDict [("id", JStr "g2")]; JNum 7;
   record_json (Game EmptyString "Celeste")].

Definition demo_mixed : state :=
  State (Dir [("srv", Dir [("games.json",
                 File (JsonText (JDict [("games", JList demo_mixed_games)])))])])
    [] {[ "g1" := demo_local ]} [] None true [].

(** The message boxes of the welcome dialog and of [main]. *)
Definition server_already_exists : QMessageBox :=
  MessageBox Warning "Server Already Exists"
    [Lit ("'games.json' already found in this directory." +:+ nl +:+ nl
          +:+ "If you want to connect to this server, "
          +:+ "please choose 'Connect to Existing Server' instead.")].

Definition new_server_created (server_path : path) : QMessageBox :=
  MessageBox Information "Success!"
    [Lit ("New server successfully created at:" +:+ nl);
     Val (JStr (str_of_path server_path))].

Definition unexpected_error (e : exn) : QMessageBox :=
  MessageBox Critical "Error" [Lit "An unexpected error occurred: "; Exc e].

Definition file_corrupted (e : exn) : QMessageBox :=
  MessageBox Warning "File Corrupted"
    [Lit ("Found 'games.json', but it could not be read." +:+ nl
          +:+ "The file may be corrupted." +:+ nl +:+ nl +:+ "Error: ");
     Exc e].

Definition connected_to_server (server_path : path) : QMessageBox :=
  MessageBox Information "Success!"
    [Lit ("Successfully connected to server at:" +:+ nl);
     Val (JStr (str_of_path server_path))].

Definition server_not_found (server_path : path) : QMessageBox :=
  MessageBox Critical "Server Not Found"
    [Lit ("Could not find 'games.json' at the configured path:" +:+ nl);
     Val (JStr (str_of_path server_path));
     Lit (nl +:+ nl
          +:+ "The server may be disconnected or the file is missing."
          +:+ nl +:+ "Rayforge Sync will now exit.")].

Definition startup_error (e : exn) : QMessageBox :=
  MessageBox Critical "Startup Error"
    [Lit ("An unexpected error occurred while accessing the server path:"
          +:+ nl);
     Exc e; Lit (nl +:+ "Rayforge Sync will now exit.")].

(** The boxes of the [except PermissionError] clauses. *)
Definition cannot_write_directory : QMessageBox :=
  MessageBox Critical "Permission Error"
    [Lit ("Could not write to this directory." +:+ nl +:+ nl
          +:+ "If this is a network drive (e.g., Samba server), "
          +:+ "please ensure you are connected in your operating system "
          +:+ "and have write permissions.")].

Definition cannot_read_directory : QMessageBox :=
  MessageBox Critical "Permission Error"
    [Lit ("Could not read from this directory." +:+ nl +:+ nl
          +:+ "If this is a network drive (e.g., Samba server), "
          +:+ "please ensure you are connected in your operating system.")].

Definition cannot_access_server (server_path : path) : QMessageBox :=
  MessageBox Critical "Permission Error"
    [Lit ("Could not access the server path:" +:+ nl);
     Val (JStr (str_of_path server_path));
     Lit (nl +:+ nl
          +:+ "If this is a network drive (e.g., Samba server), "
          +:+ "please ensure you are connected in your operating system."
          +:+ nl +:+ "Rayforge Sync will now exit.")].

(** The controls when no game is selected. *)
Definition no_selection_controls (c : controls) : controls :=
  Controls false false false [Lit "Select a game from the list."]
    (upload_all_button c) (download_all_button c).

(** A machine on its first run: an empty directory [/srv] for the server,
    no settings. *)
Definition demo_first_run : state :=
  State (Dir [("srv", Dir [])]) [] ∅ [] None true [].

(** The installation of the examples with a second directory of saves,
    [/home/other], beside [/home/celeste]; the game is registered and
    nothing was uploaded yet. *)
Definition demo_other : path := ["home"; "other"].

Definition demo_first_machine : state :=
  State (Dir [("srv", Dir [("games.json",
                              File (JsonText (manifest_json [demo_game])));
                           ("g1", Dir [("save_data", Dir []);
                                       ("backup", Dir [])])]);
              ("home", Dir [("celeste", Dir [("a.txt", File (Bytes "x"))]);
                            ("other", Dir [("b.txt", File (Bytes "z"))])])])
    [] {[ "g1" := demo_local ]}
    [ListItem (record_json demo_game) false] (Some 0) true [].

(** * Properties *)

(** ** Dictionaries *)
Section assoc_lemmas.
Context {V : Type}.
Implicit Types (k : string) (v : V) (l : list (string * V)).

Lemma assoc_get_set_eq k v l : assoc_get k (assoc_set k v l) = Some v.
Proof.
  induction l as [|[k' v'] l IH]; simpl.
  - by rewrite decide_True.
  - destruct (decide (k = k')) as [->|Hne]; simpl.
    + by rewrite decide_True.
    + by rewrite decide_False.
Qed.

Lemma assoc_get_set_ne k k' v l :
  k ≠ k' → assoc_get k' (assoc_set k v l) = assoc_get k' l.
Proof.
  intros Hne. induction l as [|[k0 v0] l IH]; simpl.
  - by rewrite decide_False.
  - destruct (decide (k = k0)) as [->|Hk]; simpl.
    + by rewrite !decide_False.
    + destruct (decide (k' = k0)); [done | apply IH].
Qed.

Lemma assoc_get_del_eq k l : assoc_get k (assoc_del k l) = None.
Proof.
  unfold assoc_del. induction l as [|[k' v'] l IH]; [done|].
  rewrite filter_cons. simpl. destruct (decide (k' ≠ k)); simpl; [|done].
  by rewrite decide_False.
Qed.

Lemma assoc_get_del_ne k k' l :
  k ≠ k' → assoc_get k' (assoc_del k l) = assoc_get k' l.
Proof.
  intros Hne. unfold assoc_del. induction l as [|[k0 v0] l IH]; [done|].
  rewrite filter_cons. simpl. destruct (decide (k0 ≠ k)) as [Hk|Hk]; simpl.
  - by rewrite IH.
  - apply dec_stable in Hk. subst k0. by rewrite decide_False.
Qed.

Lemma assoc_get_None k l : assoc_get k l = None ↔ k ∉ l.*1.
Proof.
  induction l as [|[k' v'] l IH]; simpl.
  - split; [intros _; apply not_elem_of_nil | done].
  - rewrite not_elem_of_cons. destruct (decide (k = k')); [|tauto].
    split; [done | tauto].
Qed.

Lemma assoc_set_fresh k v l :
  assoc_get k l = None → assoc_set k v l = l ++ [(k, v)].
Proof.
  induction l as [|[k' v'] l IH]; simpl; [done|].
  destruct (decide (k = k')); [done|]. intros H. by rewrite IH.
Qed.

Lemma assoc_set_same k v l :
  assoc_get k l = Some v → assoc_set k v l = l.
Proof.
  induction l as [|[k' v'] l IH]; simpl; [done|].
  destruct (decide (k = k')) as [->|].
  - by intros [= ->].
  - intros H. by rewrite IH.
Qed.

End assoc_lemmas.

(** ** Paths *)

Lemma incomparable_sym p q : incomparable p q → incomparable q p.
Proof. unfold incomparable. tauto. Qed.

Lemma incomparable_cons x p q :
  incomparable (x :: p) (x :: q) → incomparable p q.
Proof.
  intros [H1 H2]. split; intros H; [apply H1 | apply H2];
    by apply prefix_cons.
Qed.

Lemma incomparable_app_l p r q : incomparable p q → incomparable (p ++ r) q.
Proof.
  intros [H1 H2]. split.
  - intros H. apply H1. by eapply prefix_app_l.
  - intros H.
    destruct (prefix_weak_total p q (p ++ r)) as [?|?]; try done.
    by apply prefix_app_r.
Qed.

Lemma incomparable_snoc p x y : x ≠ y → incomparable (p ++ [x]) (p ++ [y]).
Proof.
  intros Hne. split; intros H; apply prefix_app_inv in H;
    apply prefix_cons_inv_1 in H; congruence.
Qed.

(** ** Lookups after updates *)

Lemma lookup_path_app p q n :
  lookup_path (p ++ q) n = lookup_path p n ≫= lookup_path q.
Proof.
  revert n. induction p as [|x p IH]; intros n; simpl; [done|].
  destruct n as [c|es]; [done|]. destruct (assoc_get x es); [apply IH | done].
Qed.

Lemma lookup_path_prefix_None p q n :
  lookup_path p n = None → p `prefix_of` q → lookup_path q n = None.
Proof. intros H [r ->]. by rewrite lookup_path_app, H. Qed.

Lemma lookup_update_under p v n n' r :
  update_path p v n = Some n' →
  lookup_path (p ++ r) n' = v ≫= lookup_path r.
Proof.
  revert n n'. induction p as [|x p IH]; intros n n' H; simpl in *.
  - by subst v.
  - destruct n as [c|es]; [done|]. destruct p as [|y p].
    + injection H as <-. simpl. destruct v as [c|]; simpl.
      * by rewrite assoc_get_set_eq.
      * by rewrite assoc_get_del_eq.
    + destruct (assoc_get x es) as [c|]; [|done].
      destruct (update_path (y :: p) v c) as [c'|] eqn:Hc; [|done].
      injection H as <-. simpl lookup_path at 1.
      rewrite assoc_get_set_eq. by apply (IH c).
Qed.

Lemma lookup_update_eq p v n n' :
  update_path p v n = Some n' → lookup_path p n' = v.
Proof.
  intros H. pose proof (lookup_update_under p v n n' [] H) as E.
  rewrite app_nil_r in E. rewrite E. by destruct v.
Qed.

Lemma lookup_update_frame p v n n' q :
  update_path p v n = Some n' → incomparable p q →
  lookup_path q n' = lookup_path q n.
Proof.
  revert n n' q. induction p as [|x p IH]; intros n n' q H Hpq.
  - destruct Hpq as [[] _]. apply prefix_nil.
  - destruct q as [|y q]; [destruct Hpq as [_ []]; apply prefix_nil|].
    simpl in H. destruct n as [c|es]; [done|]. destruct p as [|z p].
    + injection H as <-. simpl.
      assert (x ≠ y) as Hxy.
      { intros ->. destruct Hpq as [[] _]. apply prefix_cons, prefix_nil. }
      destruct v; by rewrite ?assoc_get_set_ne, ?assoc_get_del_ne.
    + destruct (assoc_get x es) as [c|] eqn:Hx; [|done].
      destruct (update_path (z :: p) v c) as [c'|] eqn:Hc; [|done].
      injection H as <-. simpl. destruct (decide (x = y)) as [->|Hxy].
      * rewrite assoc_get_set_eq, Hx. eapply IH; [done|].
        by eapply incomparable_cons.
      * by rewrite assoc_get_set_ne.
Qed.

Lemma update_path_is_Some p v n c :
  p ≠ [] → lookup_path p n = Some c → is_Some (update_path p v n).
Proof.
  revert n. induction p as [|x p IH]; intros n Hp H; [done|]. simpl in *.
  destruct n as [?|es]; [done|]. destruct p as [|y p]; [by eexists|].
  destruct (assoc_get x es) as [c0|]; [|done].
  destruct (IH c0) as [c' ->]; [done..|]. by eexists.
Qed.

Lemma update_path_new_is_Some p x v n es :
  lookup_path p n = Some (Dir es) → is_Some (update_path (p ++ [x]) v n).
Proof.
  revert n. induction p as [|y p IH]; intros n H; simpl in *.
  - injection H as ->. by eexists.
  - destruct n as [?|es']; [done|].
    destruct (assoc_get y es') as [c0|] eqn:Hy; [|done].
    destruct (IH c0 H) as [c' Hc']. rewrite Hc'.
    destruct (p ++ [x]) eqn:E; [by destruct p|]. by eexists.
Qed.

(** ** Creating directories *)

Lemma fs_makedirs_frame p n n' q :
  fs_makedirs p n = inr n' → ¬ q `prefix_of` p →
  lookup_path q n' = lookup_path q n.
Proof.
  revert n n' q. induction p as [|x p IH]; intros n n' q H Hq.
  - destruct n; simpl in H; [done|]. by injection H as <-.
  - destruct q as [|y q]; [destruct Hq; apply prefix_nil|].
    simpl in H. destruct n as [c|es]; [done|].
    destruct (fs_makedirs p (default (Dir []) (assoc_get x es)))
      as [e|c'] eqn:Hc; [done|].
    injection H as <-. simpl. destruct (decide (x = y)) as [->|Hxy].
    + rewrite assoc_get_set_eq.
      rewrite (IH _ _ q Hc) by (intros ?; apply Hq; by apply prefix_cons).
      destruct (assoc_get y es); simpl; [done|].
      destruct q; [|done]. destruct Hq. apply prefix_cons, prefix_nil.
    + by rewrite assoc_get_set_ne.
Qed.

Lemma fs_makedirs_lookup p n n' :
  fs_makedirs p n = inr n' →
  lookup_path p n' = Some (default (Dir []) (lookup_path p n)).
Proof.
  revert n n'. induction p as [|x p IH]; intros n n' H.
  - destruct n; simpl in H; [done|]. by injection H as <-.
  - simpl in H. destruct n as [c|es]; [done|].
    destruct (fs_makedirs p (default (Dir []) (assoc_get x es)))
      as [e|c'] eqn:Hc; [done|].
    injection H as <-. simpl. rewrite assoc_get_set_eq, (IH _ _ Hc).
    destruct (assoc_get x es); simpl; [done|]. by destruct p.
Qed.

Lemma fs_makedirs_exists p n es :
  lookup_path p n = Some (Dir es) → fs_makedirs p n = inr n.
Proof.
  revert n. induction p as [|x p IH]; intros n H; simpl in *.
  - by injection H as ->.
  - destruct n as [c|es']; [done|].
    destruct (assoc_get x es') as [c|] eqn:Hx; [|done]. simpl.
    rewrite (IH _ H). by rewrite assoc_set_same.
Qed.

Lemma fs_makedirs_empty p : ∃ n', fs_makedirs p (Dir []) = inr n'.
Proof.
  induction p as [|x p [n' IH]]; simpl; [by eexists|].
  rewrite IH. by eexists.
Qed.

Lemma fs_makedirs_new p x r n es :
  lookup_path p n = Some (Dir es) → assoc_get x es = None →
  ∃ n', fs_makedirs (p ++ x :: r) n = inr n'.
Proof.
  revert n. induction p as [|y p IH]; intros n H Hx; simpl in *.
  - injection H as ->. rewrite Hx. simpl.
    destruct (fs_makedirs_empty r) as [n' ->]. by eexists.
  - destruct n as [c|es']; [done|].
    destruct (assoc_get y es') as [c|] eqn:Hy; [|done]. simpl.
    destruct (IH c H Hx) as [n' ->]. by eexists.
Qed.

(** ** Well-formed trees *)

Lemma node_ind' (P : node → Prop) :
  (∀ c, P (File c)) →
  (∀ es, Forall (λ e, P e.2) es → P (Dir es)) →
  ∀ n, P n.
Proof.
  intros Hf Hd. fix IH 1. intros [c|es]; [apply Hf|]. apply Hd.
  induction es as [|[x c] es IHes]; constructor; [apply IH | apply IHes].
Qed.

Lemma wf_node_Dir es :
  wf_node (Dir es) = true ↔ NoDup es.*1 ∧ Forall (λ e, wf_node e.2 = true) es.
Proof.
  simpl. rewrite andb_true_iff, bool_decide_eq_true, forallb_forall.
  rewrite Forall_forall. split; intros [H1 H2]; split; try done.
  - intros e He. apply H2. by apply list_elem_of_In.
  - intros e He. apply H2. by apply list_elem_of_In.
Qed.

Lemma assoc_get_elem_of {V} k (v : V) l : assoc_get k l = Some v → (k, v) ∈ l.
Proof.
  induction l as [|[k' v'] l IH]; simpl; [done|].
  destruct (decide (k = k')) as [->|].
  - intros [= ->]. left.
  - intros H. right. by apply IH.
Qed.

Lemma wf_node_lookup p n c :
  wf_node n = true → lookup_path p n = Some c → wf_node c = true.
Proof.
  revert n. induction p as [|x p IH]; intros n Hwf H; simpl in H.
  - by injection H as <-.
  - destruct n as [?|es]; [done|].
    destruct (assoc_get x es) as [c0|] eqn:Hx; [|done].
    apply (IH c0); [|done]. apply wf_node_Dir in Hwf as [_ Hall].
    rewrite Forall_forall in Hall. apply (Hall (x, c0)).
    by apply assoc_get_elem_of.
Qed.

(** ** Copying a tree *)

(** Copying into a destination that does not exist yet, or is an empty
    directory, yields a copy of the source when nothing fails. *)
Lemma copy_entries_fresh rec es d fl d' fl' :
  Forall (λ e, ∀ fl r fl', rec e.2 None fl = (r, true, fl') → r = Some e.2) es →
  NoDup (d ++ es).*1 →
  copy_entries rec es d fl = (d', true, fl') → d' = d ++ es.
Proof.
  intros Hrec. revert d fl. induction Hrec as [|[x c] es Hc _ IH];
    intros d fl Hnd H; simpl in H.
  - injection H as <- _. by rewrite app_nil_r.
  - assert (assoc_get x d = None) as Hx.
    { apply assoc_get_None. rewrite fmap_app in Hnd.
      apply NoDup_app in Hnd as (_ & Hnd & _). intros Hin.
      apply (Hnd x Hin). simpl. left. }
    assert (NoDup ((d ++ [(x, c)]) ++ es).*1) as Hnd'.
    { by rewrite <-app_assoc. }
    destruct c as [data|sub].
    + destruct (default false (head fl)).
      { destruct (copy_entries rec es d (tail fl)) as [[? ?] ?]. done. }
      unfold copy2_entry in H. rewrite Hx in H.
      rewrite (assoc_set_fresh _ _ _ Hx) in H.
      rewrite (IH _ _ Hnd' H). by rewrite <-app_assoc.
    + rewrite Hx in H.
      destruct (rec (Dir sub) None fl) as [[r ok1] fl1] eqn:Hr.
      destruct (copy_entries rec es
        (match r with Some r' => assoc_set x r' d | None => d end) fl1)
        as [[d2 ok2] fl2] eqn:Hgo.
      injection H as <- Hok <-. apply andb_true_iff in Hok as [-> ->].
      rewrite (Hc _ _ _ Hr) in Hgo. simpl in Hgo.
      rewrite (assoc_set_fresh _ _ _ Hx) in Hgo.
      rewrite (IH _ _ Hnd' Hgo). by rewrite <-app_assoc.
Qed.

Lemma copytree_into_fresh exist_ok src dst fl r fl' :
  wf_node src = true →
  dst_entries exist_ok dst = Some [] →
  copytree_into exist_ok src dst fl = (r, true, fl') → r = Some src.
Proof.
  revert dst fl r fl'. induction src as [c|es IH] using node_ind';
    intros dst fl r fl' Hwf Hdst H; simpl in H; [done|].
  destruct (default false (head fl)); [done|].
  destruct (default false (head (tail fl))); [done|].
  rewrite Hdst in H.
  destruct (copy_entries _ es [] (tail (tail fl))) as [[d' ok] fl2] eqn:Hgo.
  injection H as <- -> <-. apply wf_node_Dir in Hwf as [Hnd Hall].
  apply copy_entries_fresh in Hgo; [by subst d'| |done].
  rewrite Forall_forall in IH, Hall. apply Forall_forall.
  intros e He fl0 r0 fl0' Hr. eapply (IH e He); [by apply Hall| |done]. done.
Qed.

(** ** Computations *)

Lemma bind_inv {A B} (m : py A) (k : A → py B) s r s' :
  (m ≫= k) s = (r, s') →
  (∃ a s1, m s = (Ret a, s1) ∧ k a s1 = (r, s')) ∨
  (∃ e, m s = (Raise e, s') ∧ r = Raise e).
Proof.
  unfold mbind, py_bind. destruct (m s) as [[a|e] s1]; intros H.
  - left. by exists a, s1.
  - right. injection H as <- <-. by exists e.
Qed.

Lemma bind_Ret {A B} (m : py A) (k : A → py B) s a s1 :
  m s = (Ret a, s1) → (m ≫= k) s = k a s1.
Proof. unfold mbind, py_bind. by intros ->. Qed.

Lemma bind_Raise {A B} (m : py A) (k : A → py B) s e s1 :
  m s = (Raise e, s1) → (m ≫= k) s = (Raise e, s1).
Proof. unfold mbind, py_bind. by intros ->. Qed.

Lemma try_inv {A} (m : py A) s r s' :
  try m s = (r, s') → ∃ r0, r = Ret r0 ∧ m s = (r0, s').
Proof.
  unfold try. destruct (m s) as [r0 s1]. intros [= <- <-]. by exists r0.
Qed.

Lemma lift_inv {A} (x : exn + A) s r s' :
  lift x s = (r, s') →
  s' = s ∧ match x with inl e => r = Raise e | inr a => r = Ret a end.
Proof. unfold lift. destruct x; by intros [= <- <-]. Qed.

Lemma io_step_refl s : io_step s s.
Proof. by destruct s. Qed.

Lemma io_step_trans s1 s2 s3 : io_step s1 s2 → io_step s2 s3 → io_step s1 s3.
Proof. unfold io_step. intros H1 H2. rewrite H2 at 1. by rewrite H1 at 1. Qed.

Lemma io_step_set_fs n s : io_step s (set_fs n s).
Proof. by destruct s. Qed.

Lemma io_step_set_faults fl s : io_step s (set_faults fl s).
Proof. by destruct s. Qed.

Lemma io_step_shown s s' : io_step s s' → shown s' = shown s.
Proof. by intros ->. Qed.

#[local] Hint Resolve io_step_refl io_step_set_fs io_step_set_faults : core.

Lemma changes_only_refl p n : changes_only p n n.
Proof. by intros q _. Qed.

Lemma changes_only_trans p n1 n2 n3 :
  changes_only p n1 n2 → changes_only p n2 n3 → changes_only p n1 n3.
Proof. intros H1 H2 q Hq. by rewrite H2, H1. Qed.

Lemma changes_only_app p r n n' :
  changes_only (p ++ r) n n' → changes_only p n n'.
Proof. intros H q Hq. apply H. by apply incomparable_app_l. Qed.

Lemma changes_only_update p v n n' :
  update_path p v n = Some n' → changes_only p n n'.
Proof. intros H q Hq. by eapply lookup_update_frame. Qed.

Lemma fs_update_inr p v n n' :
  fs_update p v n = inr n' → update_path p v n = Some n'.
Proof. unfold fs_update. destruct (update_path p v n); by intros [= <-]. Qed.

Lemma stat_inr p n c : stat p n = inr c → lookup_path p n = Some c.
Proof. unfold stat. destruct (lookup_path p n); by intros [= <-]. Qed.

Lemma syscall_inv s r s' :
  syscall s = (r, s') →
  io_step s s' ∧ fs s' = fs s ∧ (r = Ret tt ∨ r = Raise OSError).
Proof.
  unfold syscall. destruct (faults s) as [|[] fl]; intros [= <- <-]; auto.
Qed.

Lemma syscall_no_fault s : faults s = [] → syscall s = (Ret tt, s).
Proof. unfold syscall. by intros ->. Qed.

Lemma fs_do_inv f s r s' :
  fs_do f s = (r, s') →
  io_step s s' ∧
  ((r = Ret tt ∧ f (fs s) = inr (fs s')) ∨ (∃ e, r = Raise e ∧ fs s' = fs s)).
Proof.
  unfold fs_do. intros H.
  apply bind_inv in H as [([] & s1 & Hs & H)|(e & Hs & ->)];
    apply syscall_inv in Hs as (Hio & Hfs & _).
  - unfold fs_apply in H. rewrite Hfs in H.
    destruct (f (fs s)) as [e|n] eqn:Hf; injection H as <- <-.
    + split; [done|]. right. by exists e.
    + split; [|by left]. eapply io_step_trans; [done|auto].
  - split; [done|]. right. by exists e.
Qed.

Lemma fs_ask_inv {A} (f : node → exn + A) s r s' :
  fs_ask f s = (r, s') →
  io_step s s' ∧ fs s' = fs s ∧ ∀ a, r = Ret a → f (fs s) = inr a.
Proof.
  unfold fs_ask. intros H.
  apply bind_inv in H as [([] & s1 & Hs & H)|(e & Hs & ->)];
    apply syscall_inv in Hs as (Hio & Hfs & _); [|done].
  apply bind_inv in H as [(n & s2 & Hg & H)|(e & Hg & _)];
    [injection Hg as <- <- | discriminate Hg].
  apply lift_inv in H as [-> H]. rewrite Hfs in H. split_and!; [done..|].
  intros a ->. by destruct (f (fs s)); simplify_eq.
Qed.

Lemma fs_do_no_fault f s :
  faults s = [] →
  fs_do f s = match f (fs s) with
              | inl e => (Raise e, s)
              | inr n => (Ret tt, set_fs n s)
              end.
Proof.
  intros Hf. unfold fs_do. by rewrite (bind_Ret _ _ _ _ _ (syscall_no_fault s Hf)).
Qed.

Lemma fs_ask_no_fault {A} (f : node → exn + A) s :
  faults s = [] →
  fs_ask f s = match f (fs s) with
               | inl e => (Raise e, s)
               | inr a => (Ret a, s)
               end.
Proof.
  intros Hf. unfold fs_ask.
  by rewrite (bind_Ret _ _ _ _ _ (syscall_no_fault s Hf)).
Qed.

(** ** The library calls *)

Lemma fs_write_inr p c n n' :
  fs_write p c n = inr n' → update_path p (Some (File c)) n = Some n'.
Proof.
  unfold fs_write. intros H. apply fs_update_inr.
  by destruct (lookup_path p n) as [[]|].
Qed.

Lemma json_dump_inv v p s r s' :
  json_dump v p s = (r, s') →
  io_step s s' ∧ changes_only p (fs s) (fs s') ∧
  (r = Ret tt → lookup_path p (fs s') = Some (File (JsonText v))).
Proof.
  unfold json_dump. intros H.
  apply bind_inv in H as [([] & s1 & H1 & H)|(e & H1 & ->)];
    apply fs_do_inv in H1 as (Hio1 & H1).
  - assert (changes_only p (fs s) (fs s1)) as Hc1.
    { destruct H1 as [[_ H1]|(e & ? & ->)]; [|apply changes_only_refl].
      apply fs_write_inr in H1. by eapply changes_only_update. }
    apply fs_do_inv in H as (Hio2 & H2). split; [by eapply io_step_trans|].
    destruct H2 as [[-> H2]|(e & -> & H2)].
    + apply fs_write_inr in H2. split.
      * eapply changes_only_trans; [done|]. by eapply changes_only_update.
      * intros _. by eapply lookup_update_eq.
    + rewrite H2. done.
  - split; [done|]. destruct H1 as [[? _]|(e' & _ & ->)]; [done|].
    split; [apply changes_only_refl | done].
Qed.

Lemma fs_rename_inv src dst n n' :
  fs_rename src dst n = inr n' → src ≠ dst →
  ∃ sn n1, lookup_path src n = Some sn ∧
           update_path src None n = Some n1 ∧
           update_path dst (Some sn) n1 = Some n'.
Proof.
  unfold fs_rename. intros H Hne.
  destruct (stat src n) as [e|sn] eqn:Hs; [done|]. apply stat_inr in Hs.
  rewrite decide_False in H by done.
  destruct (bool_decide (src `prefix_of` dst)); [done|].
  exists sn. 
  assert (match fs_update src None n with
          | inl e => inl e
          | inr n1 => fs_update dst (Some sn) n1
          end = inr n') as H'.
  { destruct sn, (lookup_path dst n) as [[|[|]]|]; done. }
  destruct (fs_update src None n) as [e|n1] eqn:H1; [done|].
  exists n1. split_and!; [done| |]; by apply fs_update_inr.
Qed.

Lemma fs_rename_lookup src dst n n' q :
  fs_rename src dst n = inr n' → incomparable src q → incomparable dst q →
  lookup_path q n' = lookup_path q n.
Proof.
  intros H Hs Hd. destruct (decide (src = dst)) as [->|Hne].
  - unfold fs_rename in H. destruct (stat dst n); [done|].
    rewrite decide_True in H by done. by injection H as <-.
  - apply fs_rename_inv in H as (sn & n1 & _ & H1 & H2); [|done].
    rewrite (lookup_update_frame _ _ _ _ _ H2 Hd).
    by rewrite (lookup_update_frame _ _ _ _ _ H1 Hs).
Qed.

Lemma fs_makedirs_is_dir p n n' :
  fs_makedirs p n = inr n' → ∃ es, lookup_path p n' = Some (Dir es).
Proof.
  revert n n'. induction p as [|x p IH]; intros n n' H.
  - destruct n; simpl in H; [done|]. injection H as <-. by eexists.
  - simpl in H. destruct n as [c|es]; [done|].
    destruct (fs_makedirs p (default (Dir []) (assoc_get x es)))
      as [e|c'] eqn:Hc; [done|].
    injection H as <-. simpl. rewrite assoc_get_set_eq. by eapply IH.
Qed.

Lemma removelast_prefix (p : path) : removelast p `prefix_of` p.
Proof.
  destruct (decide (p = [])) as [->|Hp]; [done|].
  rewrite (app_removelast_last "" Hp) at 2. by apply prefix_app_r.
Qed.

Lemma shutil_copytree_inv exist_ok src dst s r s' :
  shutil_copytree exist_ok src dst s = (r, s') →
  io_step s s' ∧ changes_only dst (fs s) (fs s') ∧
  (r = Ret tt →
   (∀ n, lookup_path src (fs s) = Some n → wf_node n = true) →
   dst_entries exist_ok (lookup_path dst (fs s)) = Some [] →
   (∃ es, lookup_path src (fs s) = Some (Dir es)) ∧
   lookup_path dst (fs s') = lookup_path src (fs s)).
Proof.
  unfold shutil_copytree. intros H.
  destruct (stat src (fs s)) as [e|[c|es]] eqn:Hsrc;
    [injection H as <- <-; split_and!; [done|apply changes_only_refl|done]..|].
  apply stat_inr in Hsrc.
  destruct (fs_makedirs (removelast dst) (fs s)) as [e|n1] eqn:Hmk;
    [injection H as <- <-; split_and!; [done|apply changes_only_refl|done]|].
  destruct (copytree_into exist_ok (Dir es) (lookup_path dst n1) (faults s))
    as [[r0 ok] fl] eqn:Hcp.
  injection H as <- <-. simpl. split; [|split].
  - unfold io_step. by destruct s.
  - destruct r0 as [d|]; [|apply changes_only_refl].
    destruct (update_path dst (Some d) n1) as [n2|] eqn:Hup;
      [|apply changes_only_refl].
    intros q Hq. rewrite (lookup_update_frame _ _ _ _ _ Hup Hq).
    apply (fs_makedirs_frame _ _ _ _ Hmk). intros Hpre. apply Hq.
    etrans; [done|apply removelast_prefix].
  - destruct ok; [|done]. intros _ Hwf Hfresh. split; [by eexists|].
    assert (lookup_path dst n1 = lookup_path dst (fs s)) as Hdst.
    { destruct (decide (dst = [])) as [->|Hne].
      - simpl in *. destruct (fs s); [done|]. by injection Hmk as <-.
      - apply (fs_makedirs_frame _ _ _ _ Hmk). intros Hpre.
        rewrite (app_removelast_last "" Hne) in Hpre at 1.
        by apply prefix_snoc_not in Hpre. }
    rewrite Hdst in Hcp. apply copytree_into_fresh in Hcp; [|by apply Hwf|done].
    subst r0. rewrite Hsrc.
    destruct (update_path dst (Some (Dir es)) n1) as [n2|] eqn:Hup.
    + by eapply lookup_update_eq.
    + exfalso. destruct (decide (dst = [])) as [->|Hne]; [done|].
      destruct (fs_makedirs_is_dir _ _ _ Hmk) as [es0 Hpar].
      rewrite (app_removelast_last "" Hne) in Hup.
      destruct (update_path_new_is_Some _ (List.last dst "")
                  (Some (Dir es)) _ _ Hpar) as [? ?].
      congruence.
Qed.

Lemma fs_rename_not_prefix src dst n n' :
  fs_rename src dst n = inr n' → src ≠ dst → ¬ src `prefix_of` dst.
Proof.
  unfold fs_rename. intros H Hne. destruct (stat src n); [done|].
  rewrite decide_False in H by done.
  destruct (bool_decide (src `prefix_of` dst)) eqn:Hb; [done|].
  by apply bool_decide_eq_false in Hb.
Qed.

Lemma fs_rmtree_inr p n n' :
  fs_rmtree p n = inr n' → update_path p None n = Some n'.
Proof.
  unfold fs_rmtree. destruct (stat p n) as [|[]]; [done..|].
  apply fs_update_inr.
Qed.

Lemma fs_remove_inr p n n' :
  fs_remove p n = inr n' → update_path p None n = Some n'.
Proof.
  unfold fs_remove. destruct (stat p n) as [|[]]; [done| |done].
  apply fs_update_inr.
Qed.

Lemma shutil_rmtree_inv p s r s' :
  shutil_rmtree p s = (r, s') →
  io_step s s' ∧ changes_only p (fs s) (fs s') ∧
  (r = Ret tt → lookup_path p (fs s') = None).
Proof.
  intros H. apply fs_do_inv in H as (Hio & [[-> H]|(e & -> & ->)]).
  - apply fs_rmtree_inr in H. split_and!; [done| |].
    + by eapply changes_only_update.
    + intros _. by eapply lookup_update_eq.
  - split_and!; [done|apply changes_only_refl|done].
Qed.

(** Moving a directory to a destination that does not exist. *)
Lemma shutil_move_inv src dst s s' es :
  shutil_move src dst s = (Ret tt, s') →
  wf_node (fs s) = true →
  lookup_path src (fs s) = Some (Dir es) →
  lookup_path dst (fs s) = None →
  io_step s s' ∧
  lookup_path dst (fs s') = Some (Dir es) ∧
  lookup_path src (fs s') = None ∧
  ∀ q, incomparable src q → incomparable dst q →
       lookup_path q (fs s') = lookup_path q (fs s).
Proof.
  intros H Hwf Hsrc Hdst. unfold shutil_move in H.
  assert (src ≠ dst) as Hne by congruence.
  assert (¬ dst `prefix_of` src) as Hds.
  { intros Hpre. by rewrite (lookup_path_prefix_None _ _ _ Hdst Hpre) in Hsrc. }
  apply bind_inv in H as [(n & s0 & Hg & H)|(e & Hg & _)];
    [injection Hg as <- <- | discriminate Hg].
  assert (is_dir dst (fs s) = false) as Hnd by (unfold is_dir; by rewrite Hdst).
  rewrite Hnd in H. simpl in H.
  apply bind_inv in H as [(r0 & s1 & Ht & H)|(e & Ht & _)];
    [|by apply try_inv in Ht as (? & ? & _)].
  apply try_inv in Ht as (r1 & [= ->] & Hren).
  apply fs_do_inv in Hren as (Hio1 & Hren).
  destruct Hren as [[-> Hren]|(e & -> & Hfs1)].
  - injection H as <-.
    pose proof (fs_rename_not_prefix _ _ _ _ Hren Hne) as Hsd.
    split; [done|]. split_and!.
    + apply fs_rename_inv in Hren as (sn & n1 & Hsn & H1 & H2); [|done].
      rewrite (lookup_update_eq _ _ _ _ H2). congruence.
    + apply fs_rename_inv in Hren as (sn & n1 & Hsn & H1 & H2); [|done].
      rewrite (lookup_update_frame _ _ _ _ _ H2) by done.
      by eapply lookup_update_eq.
    + intros q Hq1 Hq2. by eapply fs_rename_lookup.
  - destruct (is_OSError e); [|done].
    apply bind_inv in H as [(n & s0 & Hg & H)|(e0 & Hg & _)];
      [injection Hg as <- <- | discriminate Hg].
    unfold is_dir in H. rewrite Hfs1, Hsrc in H.
    destruct (bool_decide (src `prefix_of` dst)) eqn:Hsd; [done|].
    apply bool_decide_eq_false in Hsd.
    apply bind_inv in H as [([] & s2 & Hcp & H)|(e0 & _ & ?)]; [|done].
    apply shutil_copytree_inv in Hcp as (Hio2 & Hch2 & Hcp).
    rewrite Hfs1 in Hch2, Hcp.
    destruct Hcp as [_ Hcp];
      [done|intros n Hn; by eapply wf_node_lookup|by rewrite Hdst|].
    apply shutil_rmtree_inv in H as (Hio3 & Hch3 & H3).
    split; [eauto using io_step_trans|]. split_and!.
    + rewrite (Hch3 dst) by done. by rewrite Hcp.
    + by apply H3.
    + intros q Hq1 Hq2. by rewrite (Hch3 q), (Hch2 q).
Qed.

Lemma lookup_update_parent p x v n n' es :
  update_path (p ++ [x]) v n = Some n' →
  lookup_path p n = Some (Dir es) →
  lookup_path p n' =
    Some (Dir (match v with
               | Some c => assoc_set x c es
               | None => assoc_del x es
               end)).
Proof.
  revert n n'. induction p as [|y p IH]; intros n n' H Hp; simpl in *.
  - injection Hp as ->. by injection H as <-.
  - destruct n as [?|es0]; [done|].
    destruct (assoc_get y es0) as [c|] eqn:Hy; [|done].
    destruct (p ++ [x]) as [|z r] eqn:E; [by destruct p|].
    destruct (update_path (z :: r) v c) as [c'|] eqn:Hc; [|done].
    injection H as <-. simpl. rewrite assoc_get_set_eq. by apply (IH c).
Qed.

Lemma elem_of_assoc_del {V} k k' (l : list (string * V)) :
  k' ∈ (assoc_del k l).*1 → k' ≠ k ∧ k' ∈ l.*1.
Proof.
  unfold assoc_del. rewrite !list_elem_of_fmap.
  intros ([k0 v] & -> & Hin). apply list_elem_of_filter in Hin as [Hne Hin].
  split; [done|]. by exists (k0, v).
Qed.

Lemma remove_item_inv p x s r s' :
  remove_item (p ++ [x]) s = (r, s') →
  io_step s s' ∧ changes_only p (fs s) (fs s') ∧
  (r = Ret tt → update_path (p ++ [x]) None (fs s) = Some (fs s')).
Proof.
  unfold remove_item. intros H.
  apply bind_inv in H as [(d & s1 & Hd & H)|(e & Hd & ->)];
    apply fs_ask_inv in Hd as (Hio1 & Hfs1 & _).
  - assert (io_step s1 s' ∧
            ((r = Ret tt ∧ update_path (p ++ [x]) None (fs s1) = Some (fs s'))
             ∨ (r ≠ Ret tt ∧ fs s' = fs s1))) as (Hio2 & Hr).
    { destruct d; apply fs_do_inv in H as (Hio2 & [[-> H]|(e & -> & ->)]);
        (split; [done|]); try (by right).
      - left. split; [done|]. by apply fs_rmtree_inr.
      - left. split; [done|]. by apply fs_remove_inr. }
    split; [by eapply io_step_trans|]. rewrite Hfs1 in Hr.
    destruct Hr as [[-> Hr]|[Hr ->]].
    + split; [|done]. eapply changes_only_app, changes_only_update. done.
    + split; [apply changes_only_refl|done].
  - rewrite Hfs1. split_and!; [done|apply changes_only_refl|done].
Qed.

Lemma clear_loop_inv p names s r s' :
  for_ names (λ name, remove_item (p ++ [name])) s = (r, s') →
  io_step s s' ∧ changes_only p (fs s) (fs s') ∧
  (r = Ret tt → ∀ es, lookup_path p (fs s) = Some (Dir es) →
     es.*1 ⊆ names → lookup_path p (fs s') = Some (Dir [])).
Proof.
  revert s. induction names as [|x names IH]; intros s H; simpl in H.
  - injection H as <- <-. split_and!; [done|apply changes_only_refl|].
    intros _ es Hes Hsub. destruct es as [|[y c] es]; [done|].
    exfalso. apply (not_elem_of_nil y), Hsub. simpl. left.
  - apply bind_inv in H as [([] & s1 & H1 & H)|(e & H1 & ->)];
      apply remove_item_inv in H1 as (Hio1 & Hc1 & H1).
    + apply IH in H as (Hio2 & Hc2 & H2).
      split_and!; [by eapply io_step_trans|by eapply changes_only_trans|].
      intros -> es Hes Hsub. specialize (H1 eq_refl).
      apply (H2 eq_refl (assoc_del x es)).
      * by apply (lookup_update_parent _ _ _ _ _ _ H1).
      * intros y Hy. apply elem_of_assoc_del in Hy as [Hne Hy].
        apply Hsub in Hy. by apply elem_of_cons in Hy as [?|?].
    + split_and!; done.
Qed.

Lemma _clear_directory_contents_inv p s r s' :
  _clear_directory_contents p s = (r, s') →
  io_step s s' ∧ changes_only p (fs s) (fs s') ∧
  (r = Ret tt → ∀ es, lookup_path p (fs s) = Some (Dir es) →
     lookup_path p (fs s') = Some (Dir [])).
Proof.
  unfold _clear_directory_contents. intros H.
  apply bind_inv in H as [(d & s1 & Hd & H)|(e & Hd & ->)];
    apply fs_ask_inv in Hd as (Hio1 & Hfs1 & Hd);
    [|rewrite Hfs1; split_and!; [done|apply changes_only_refl|done]].
  specialize (Hd d eq_refl). injection Hd as <-.
  destruct (is_dir p (fs s)) eqn:Hdir; simpl in H.
  - apply bind_inv in H as [(items & s2 & Hl & H)|(e & Hl & ->)];
      apply fs_ask_inv in Hl as (Hio2 & Hfs2 & Hl);
      [|rewrite Hfs2, Hfs1; split_and!;
        [by eapply io_step_trans|apply changes_only_refl|done]].
    specialize (Hl items eq_refl).
    apply clear_loop_inv in H as (Hio3 & Hc3 & H3).
    rewrite Hfs2, Hfs1 in Hc3, H3. rewrite Hfs1 in Hl.
    split_and!; [eauto using io_step_trans|done|].
    intros -> es Hes. apply (H3 eq_refl es Hes).
    unfold fs_listdir, stat in Hl. rewrite Hes in Hl. by injection Hl as <-.
  - injection H as <- <-. rewrite Hfs1.
    split_and!; [done|apply changes_only_refl|].
    intros _ es Hes. unfold is_dir in Hdir. by rewrite Hes in Hdir.
Qed.

(** ** Loading the manifest *)

Lemma lift_inr {A} (x : exn + A) a s : x = inr a → lift x s = (Ret a, s).
Proof. by intros ->. Qed.

Lemma json_load_no_fault p s :
  head (faults s) ≠ Some true →
  ∃ s1, io_step s s1 ∧ fs s1 = fs s ∧
        json_load p s = match fs_parse p (fs s) with
                        | inl e => (Raise e, s1)
                        | inr j => (Ret j, s1)
                        end.
Proof.
  intros Hf. unfold json_load, fs_ask.
  assert (∃ s1, io_step s s1 ∧ fs s1 = fs s ∧ syscall s = (Ret tt, s1))
    as (s1 & Hio & Hfs & Hs).
  { unfold syscall. destruct (faults s) as [|[] fl]; [by exists s|done|].
    by exists (set_faults fl s). }
  exists s1. split_and!; [done..|]. rewrite (bind_Ret _ _ _ _ _ Hs).
  unfold mbind, py_bind, get_fs, lift. rewrite Hfs. by destruct (fs_parse p (fs s)).
Qed.

(** ** Writing the manifest *)

Lemma games_json_temp_path_eq sp :
  games_json_temp_path sp = sp ++ ["games.json.tmp"].
Proof.
  unfold games_json_temp_path, games_json_path, with_suffix, basename.
  by rewrite removelast_last, last_snoc.
Qed.

Lemma games_json_temp_path_incomparable sp :
  incomparable (games_json_temp_path sp) (games_json_path sp).
Proof. rewrite games_json_temp_path_eq. by apply incomparable_snoc. Qed.

Lemma write_games_json_inv sp doc s r s' :
  write_games_json sp doc s = (r, s') →
  io_step s s' ∧
  (∀ q, incomparable (games_json_temp_path sp) q →
        incomparable (games_json_path sp) q →
        lookup_path q (fs s') = lookup_path q (fs s)) ∧
  match r with
  | Ret _ => lookup_path (games_json_path sp) (fs s') = Some (File (JsonText doc))
  | Raise _ => lookup_path (games_json_path sp) (fs s')
               = lookup_path (games_json_path sp) (fs s)
  end.
Proof.
  unfold write_games_json. intros H.
  pose proof (games_json_temp_path_incomparable sp) as Hinc.
  apply bind_inv in H as [([] & s1 & H1 & H)|(e & H1 & ->)];
    apply json_dump_inv in H1 as (Hio1 & Hc1 & H1).
  - specialize (H1 eq_refl).
    apply fs_do_inv in H as (Hio2 & [[-> H]|(e & -> & H)]).
    + split_and!; [by eapply io_step_trans| |].
      * intros q Hq1 Hq2. rewrite (fs_rename_lookup _ _ _ _ _ H Hq1 Hq2).
        by apply Hc1.
      * apply fs_rename_inv in H as (sn & n1 & Hsn & Hn1 & Hn');
          [|intros E; rewrite E in Hinc; destruct Hinc as [[] _]; done].
        rewrite (lookup_update_eq _ _ _ _ Hn'). congruence.
    + rewrite H. split_and!; [by eapply io_step_trans| |by apply Hc1].
      intros q Hq _. by apply Hc1.
  - split_and!; [done| |by apply Hc1]. intros q Hq _. by apply Hc1.
Qed.

(** The loader lists every record that has an identifier and a name. *)
Lemma list_games_valid (c : list GameRecord) (t : state) :
  Forall valid_record c →
  for_ (record_json <$> c) list_game t
  = (Ret tt,
     set_game_list
       (game_list_widget t ++
        ((λ g, ListItem (record_json g)
                 (negb (bool_decide (is_Some (local_game_paths t !! rec_id g)))))
         <$> c))
       (selected t) t).
Proof.
  intros Hc. revert t. induction Hc as [|g c [Hid Hname] _ IH]; intros t.
  - simpl. rewrite app_nil_r. by destruct t.
  - rewrite fmap_cons. cbn [for_].
    assert (list_game (record_json g) t
            = (Ret tt, set_game_list
                 (game_list_widget t ++
                  [ListItem (record_json g)
                     (negb (bool_decide (is_Some (local_game_paths t !! rec_id g))))])
                 (selected t) t)) as Hg.
    { unfold list_game, record_json. simpl.
      rewrite !bool_decide_eq_false_2 by done. simpl. done. }
    rewrite (bind_Ret _ _ _ _ _ Hg).
    rewrite IH. simpl. by rewrite <-app_assoc.
Qed.

Lemma load_games_valid_run sp c t :
  Forall valid_record c →
  lookup_path (games_json_path sp) (fs t)
    = Some (File (JsonText (manifest_json c))) →
  head (faults t) ≠ Some true →
  ∃ t1, io_step (set_game_list [] None t) t1 ∧
        load_games_from_json sp t
        = (Ret tt,
           set_game_list
             ((λ g, ListItem (record_json g)
                 (negb (bool_decide (is_Some (local_game_paths t !! rec_id g)))))
              <$> c) None t1).
Proof.
  intros Hc Hfile Hf.
  assert (head (faults (set_game_list [] None t)) ≠ Some true) as Hf' by done.
  destruct (json_load_no_fault (games_json_path sp) _ Hf')
    as (t1 & Hio & Hfs & Hload).
  exists t1. split; [done|]. unfold load_games_from_json.
  unfold mbind at 1, py_bind at 1. unfold clear_game_list.
  unfold mbind at 1, py_bind at 1. unfold try, read_games_list.
  unfold mbind at 1, py_bind at 1. rewrite Hload. simpl.
  unfold fs_parse, stat. rewrite Hfile. simpl.
  rewrite (list_games_valid c t1 Hc). rewrite Hio. done.
Qed.

Lemma load_games_valid sp c t :
  Forall valid_record c →
  lookup_path (games_json_path sp) (fs t)
    = Some (File (JsonText (manifest_json c))) →
  head (faults t) ≠ Some true →
  let t' := (load_games_from_json sp t).2 in
  game_list_widget t'
  = (λ g, ListItem (record_json g)
            (negb (bool_decide (is_Some (local_game_paths t !! rec_id g))))) <$> c
  ∧ shown t' = shown t ∧ local_game_paths t' = local_game_paths t.
Proof.
  intros Hc Hfile Hf t'.
  destruct (load_games_valid_run sp c t Hc Hfile Hf) as (t1 & Hio & Heq).
  subst t'. rewrite Heq. simpl. by rewrite Hio.
Qed.

(** ** Registration *)

Lemma hex_field_head d n tail :
  ∃ k rest, hex_field (S d) n tail = String (hex_digit k) rest.
Proof.
  revert n tail. induction d as [|d IH]; intros n tail.
  - by eexists _, _.
  - change (hex_field (S (S d)) n tail)
      with (hex_field (S d) (n / 16)%N (String (hex_digit (n mod 16)%N) tail)).
    apply IH.
Qed.

Lemma uuid_str_head u : ∃ k rest, uuid_str u = String (hex_digit k) rest.
Proof. unfold uuid_str. apply hex_field_head. Qed.

Lemma hex_digit_not_g k : (hex_digit k ≠ "g")%char.
Proof. unfold hex_digit. repeat case_match; discriminate. Qed.

Lemma uuid_str_not_games_json u x :
  uuid_str u ≠ String "g" x.
Proof.
  destruct (uuid_str_head u) as (k & rest & ->). intros [= E _].
  by apply hex_digit_not_g in E.
Qed.

Lemma game_dir_incomparable sp u :
  incomparable (sp ++ [uuid_str u]) (games_json_path sp).
Proof. apply incomparable_snoc, uuid_str_not_games_json. Qed.

Lemma fs_parse_inr p n doc :
  fs_parse p n = inr doc → lookup_path p n = Some (File (JsonText doc)).
Proof.
  unfold fs_parse, stat.
  destruct (lookup_path p n) as [[[]|]|]; by intros [= <-].
Qed.

Lemma update_games_json_inv sp name new dir s r s' :
  update_games_json sp name new dir s = (r, s') →
  let gj := games_json_path sp in
  (r = Ret tt ∧ shown s' = shown s ∧
   ∃ doc games items names doc',
     lookup_path gj (fs s) = Some (File (JsonText doc)) ∧
     py_get "games" doc = inr games ∧
     py_iter (default (JList []) games) = inr items ∧
     lower_names items = inr names ∧
     (lower name ∉ names) ∧
     append_game new doc = inr doc' ∧
     lookup_path gj (fs s') = Some (File (JsonText doc')))
  ∨
  ((incomparable dir gj → lookup_path gj (fs s') = lookup_path gj (fs s)) ∧
   ((r = Ret tt ∧ shown s' = shown s ++ [duplicate_game name] ∧
     lookup_path dir (fs s') = None ∧
     ∃ doc games items names,
       lookup_path gj (fs s) = Some (File (JsonText doc)) ∧
       py_get "games" doc = inr games ∧
       py_iter (default (JList []) games) = inr items ∧
       lower_names items = inr names ∧
       lower name ∈ names)
    ∨ (∃ e, r = Raise e ∧
            (shown s' = shown s ∨ shown s' = shown s ++ [duplicate_game name])))).
Proof.
  intros H gj. unfold update_games_json in H.
  apply bind_inv in H as [(doc & s1 & Hl & H)|(e & Hl & ->)];
    apply fs_ask_inv in Hl as (Hio1 & Hfs1 & Hdoc);
    [|right; rewrite Hfs1, (io_step_shown _ _ Hio1); eauto 10].
  specialize (Hdoc doc eq_refl). apply fs_parse_inr in Hdoc. fold gj in Hdoc.
  pose proof (io_step_shown _ _ Hio1) as Hsh1.
  apply bind_inv in H as [(games & s2 & Hg & H)|(e & Hg & ->)];
    apply lift_inv in Hg as [-> Hg];
    [|right; rewrite Hfs1, Hsh1; eauto 10].
  destruct (py_get "games" doc) as [e0|games0] eqn:Hgames; [done|].
  injection Hg as ->.
  apply bind_inv in H as [(items & s2 & Hi & H)|(e & Hi & ->)];
    apply lift_inv in Hi as [-> Hi];
    [|right; rewrite Hfs1, Hsh1; eauto 10].
  destruct (py_iter (default (JList []) games0)) as [e0|items0] eqn:Hitems; [done|].
  injection Hi as ->.
  apply bind_inv in H as [(names & s2 & Hn & H)|(e & Hn & ->)];
    apply lift_inv in Hn as [-> Hn];
    [|right; rewrite Hfs1, Hsh1; eauto 10].
  destruct (lower_names items0) as [e0|names0] eqn:Hnames; [done|].
  injection Hn as ->.
  destruct (bool_decide (lower name ∈ names0)) eqn:Hdup.
  - apply bool_decide_eq_true in Hdup. right.
    apply bind_inv in H as [([] & s2 & Hw & H)|(e & Hw & _)];
      [|discriminate Hw].
    injection Hw as <-.
    apply shutil_rmtree_inv in H as (Hio2 & Hc2 & H2).
    pose proof (io_step_shown _ _ Hio2) as Hsh2. simpl in Hsh2, Hc2.
    rewrite Hsh1 in Hsh2. split.
    + intros Hinc. rewrite (Hc2 _ Hinc). by rewrite Hfs1.
    + destruct r as [[]|e]; [left|right; eauto].
      split_and!; [done|done|by apply H2|]. by exists doc, games0, items0, names0.
  - apply bool_decide_eq_false in Hdup.
    apply bind_inv in H as [(doc' & s2 & Ha & H)|(e & Ha & ->)];
      apply lift_inv in Ha as [-> Ha];
      [|right; rewrite Hfs1, Hsh1; eauto 10].
    destruct (append_game new doc) as [e0|doc'0] eqn:Happ; [done|].
    injection Ha as ->.
    apply write_games_json_inv in H as (Hio2 & _ & Hres).
    pose proof (io_step_shown _ _ Hio2) as Hsh2. rewrite Hsh1 in Hsh2.
    rewrite Hfs1 in Hres. destruct r as [[]|e].
    + left. split_and!; [done..|].
      by exists doc, games0, items0, names0, doc'0.
    + right. split; [done|]. right. eauto.
Qed.

Lemma create_directories_inv dir s r s' :
  (path_mkdir_parents_exist_ok (dir ++ ["save_data"]);;
   path_mkdir_parents_exist_ok (dir ++ ["backup"])) s = (r, s') →
  io_step s s' ∧
  ∀ q, incomparable dir q → lookup_path q (fs s') = lookup_path q (fs s).
Proof.
  intros H.
  assert (∀ x n n' q, fs_makedirs (dir ++ [x]) n = inr n' → incomparable dir q →
            lookup_path q n' = lookup_path q n) as Hmk.
  { intros x n n' q Hn Hq. apply (fs_makedirs_frame _ _ _ _ Hn).
    by apply (incomparable_app_l _ [x]) in Hq as [_ Hq]. }
  apply bind_inv in H as [([] & s1 & H1 & H)|(e & H1 & ->)];
    apply fs_do_inv in H1 as (Hio1 & H1).
  - apply fs_do_inv in H as (Hio2 & H2).
    split; [by eapply io_step_trans|]. intros q Hq.
    destruct H2 as [[_ H2]|(e & _ & ->)];
      [rewrite (Hmk _ _ _ _ H2 Hq)|];
      (destruct H1 as [[_ H1]|(e1 & _ & ->)]; [by apply (Hmk "save_data")|done]).
  - split; [done|]. intros q Hq.
    destruct H1 as [[_ H1]|(e1 & _ & ->)]; [by apply (Hmk "save_data")|done].
Qed.

(** Every way [add_new_game] can end, once the dialog was accepted. *)
Lemma add_new_game_inv sp dialog u s r s' :
  add_new_game sp dialog u s = (r, s') →
  dialog_accepted dialog = true →
  let gj := games_json_path sp in
  let dir := sp ++ [uuid_str u] in
  let name := strip (game_name_edit dialog) in
  let new := record_json (Game (uuid_str u) name) in
  r = Ret tt ∧
  ((∃ e, shown s' = shown s ++ [could_not_create_directories e] ∧
         lookup_path gj (fs s') = lookup_path gj (fs s))
   ∨ (shown s' = shown s ∧
      ∃ doc games items names doc',
        lookup_path gj (fs s) = Some (File (JsonText doc)) ∧
        py_get "games" doc = inr games ∧
        py_iter (default (JList []) games) = inr items ∧
        lower_names items = inr names ∧
        (lower name ∉ names) ∧
        append_game new doc = inr doc' ∧
        lookup_path gj (fs s') = Some (File (JsonText doc')))
   ∨ (shown s' = shown s ++ [duplicate_game name] ∧
      lookup_path gj (fs s') = lookup_path gj (fs s) ∧
      lookup_path dir (fs s') = None ∧
      ∃ doc games items names,
        lookup_path gj (fs s) = Some (File (JsonText doc)) ∧
        py_get "games" doc = inr games ∧
        py_iter (default (JList []) games) = inr items ∧
        lower_names items = inr names ∧
        lower name ∈ names)
   ∨ (∃ boxes e,
        shown s' = shown s ++ boxes ++ [could_not_update e] ∧
        lookup_path gj (fs s') = lookup_path gj (fs s) ∧
        lookup_path dir (fs s') = None)
   ∨ (∃ boxes e e',
        shown s' = shown s ++ boxes ++ [could_not_update e; rollback_error e'] ∧
        lookup_path gj (fs s') = lookup_path gj (fs s))).
Proof.
  intros H Hacc gj dir name new. unfold add_new_game in H.
  rewrite Hacc in H. simpl negb in H. cbv iota in H.
  pose proof (game_dir_incomparable sp u) as Hinc. fold dir gj in Hinc.
  apply bind_inv in H as [(r1 & s1 & Hmk & H)|(e & Hmk & _)];
    [|by apply try_inv in Hmk as (? & ? & _)].
  apply try_inv in Hmk as (r1' & [= ->] & Hmk).
  apply create_directories_inv in Hmk as (Hio1 & Hfr1).
  pose proof (io_step_shown _ _ Hio1) as Hsh1.
  destruct r1' as [[]|e].
  2:{ injection H as <- <-. split; [done|]. left. exists e. simpl.
      rewrite Hsh1. split; [done|]. by apply Hfr1. }
  apply bind_inv in H as [(r2 & s2 & Hup & H)|(e & Hup & _)];
    [|by apply try_inv in Hup as (? & ? & _)].
  apply try_inv in Hup as (r2' & [= ->] & Hup).
  apply update_games_json_inv in Hup. fold gj in Hup.
  rewrite Hsh1, (Hfr1 gj Hinc) in Hup.
  destruct Hup as [(-> & Hsh2 & Hev)|[Hgj Hup]].
  { injection H as <- <-. split; [done|]. right. left. by split. }
  specialize (Hgj Hinc).
  destruct Hup as [(-> & Hsh2 & Hdir & Hev)|(e & -> & Hsh2)].
  { injection H as <- <-. split; [done|]. right. right. left. by split_and!. }
  apply bind_inv in H as [([] & s3 & Hbox & H)|(e0 & Hbox & _)];
    [|discriminate Hbox].
  injection Hbox as <-.
  apply bind_inv in H as [(r3 & s4 & Hrb & H)|(e0 & Hrb & _)];
    [|by apply try_inv in Hrb as (? & ? & _)].
  apply try_inv in Hrb as (r3' & [= ->] & Hrb).
  apply shutil_rmtree_inv in Hrb as (Hio4 & Hc4 & H4).
  pose proof (io_step_shown _ _ Hio4) as Hsh4. simpl in Hsh4, Hc4.
  assert (∃ boxes, shown s4 = shown s ++ boxes ++ [could_not_update e])
    as [boxes Hboxes].
  { destruct Hsh2 as [Hsh2|Hsh2]; rewrite Hsh4, Hsh2.
    - by exists [].
    - exists [duplicate_game name]. by rewrite <-app_assoc. }
  assert (lookup_path gj (fs s4) = lookup_path gj (fs s)) as Hgj4.
  { by rewrite (Hc4 gj Hinc). }
  destruct r3' as [[]|e']; injection H as <- <-; (split; [done|]).
  - do 3 right. left. exists boxes, e. split_and!; [done..|by apply H4].
  - do 4 right. exists boxes, e, e'. simpl. split; [|done].
    rewrite Hboxes. by rewrite <-!app_assoc.
Qed.

Lemma lower_names_records c :
  lower_names (record_json <$> c) = inr ((λ g, lower (rec_name g)) <$> c).
Proof.
  induction c as [|g c IH]; [done|]. rewrite !fmap_cons.
  change (lower_names (record_json g :: (record_json <$> c)))
    with (match lower_names (record_json <$> c) with
          | inl e => inl e
          | inr xs => inr (lower (rec_name g) :: xs)
          end).
  by rewrite IH.
Qed.

Lemma append_game_manifest g c :
  append_game (record_json g) (manifest_json c) = inr (manifest_json (c ++ [g])).
Proof. unfold append_game, manifest_json. simpl. by rewrite fmap_app. Qed.

Lemma app_eq_self {A} (l k : list A) : l ++ k = l → k = [].
Proof. intros H. apply (app_inv_head l). by rewrite app_nil_r. Qed.

Lemma app_ne_self {A} (l k : list A) x : l ++ k ++ [x] ≠ l.
Proof. intros H. apply app_eq_self in H. by destruct k. Qed.

(** What a registration does to the manifest of a catalog. *)
Lemma add_new_game_catalog sp dialog u c s r s' :
  dialog_accepted dialog = true →
  lookup_path (games_json_path sp) (fs s)
    = Some (File (JsonText (manifest_json c))) →
  add_new_game sp dialog u s = (r, s') →
  let g := Game (uuid_str u) (strip (game_name_edit dialog)) in
  (shown s' = shown s ∧
   lookup_path (games_json_path sp) (fs s')
     = Some (File (JsonText (manifest_json (c ++ [g])))) ∧
   lower (rec_name g) ∉ (λ g, lower (rec_name g)) <$> c)
  ∨ (shown s' ≠ shown s ∧
     lookup_path (games_json_path sp) (fs s')
       = Some (File (JsonText (manifest_json c)))).
Proof.
  intros Hacc Hfile H g.
  destruct (add_new_game_inv _ _ _ _ _ _ H Hacc) as
    [_ [(e & Hsh & Hgj)|[(Hsh & Hev)|[(Hsh & Hgj & _)|
     [(boxes & e & Hsh & Hgj & _)|(boxes & e & e' & Hsh & Hgj)]]]]].
  - right. rewrite Hsh, Hgj. split; [|done]. apply (app_ne_self _ []).
  - left. destruct Hev as (doc & games & items & names & doc' & Hdoc & Hg &
      Hi & Hn & Hnot & Happ & Hres).
    rewrite Hfile in Hdoc. injection Hdoc as <-.
    injection Hg as <-. injection Hi as <-.
    rewrite lower_names_records in Hn. injection Hn as <-.
    change (record_json _) with (record_json g) in Happ.
    rewrite append_game_manifest in Happ. injection Happ as <-. done.
  - right. rewrite Hsh, Hgj. split; [|done]. apply (app_ne_self _ []).
  - right. rewrite Hsh, Hgj. split; [|done]. apply app_ne_self.
  - right. rewrite Hsh, Hgj. split; [|done].
    change [could_not_update e; rollback_error e']
      with ([could_not_update e] ++ [rollback_error e']).
    rewrite (app_assoc boxes). apply app_ne_self.
Qed.

Lemma lookup_path_snoc p x n :
  lookup_path (p ++ [x]) n =
  match lookup_path p n with
  | Some (Dir es) => assoc_get x es
  | _ => None
  end.
Proof.
  rewrite lookup_path_app. destruct (lookup_path p n) as [[c|es]|]; simpl; try done.
  by destruct (assoc_get x es).
Qed.

(** A registration under a name that the catalog already has (up to case),
    when no system call fails and the identifier is new on the server: the
    name is refused, the directories just created are removed and the
    manifest stays as it is. *)
Lemma add_new_game_duplicate sp dialog u c s :
  dialog_accepted dialog = true →
  faults s = [] →
  lookup_path (games_json_path sp) (fs s)
    = Some (File (JsonText (manifest_json c))) →
  lower (strip (game_name_edit dialog)) ∈ (λ g, lower (rec_name g)) <$> c →
  lookup_path (sp ++ [uuid_str u]) (fs s) = None →
  ∃ s', add_new_game sp dialog u s = (Ret tt, s') ∧
        shown s' = shown s ++ [duplicate_game (strip (game_name_edit dialog))] ∧
        lookup_path (games_json_path sp) (fs s')
          = lookup_path (games_json_path sp) (fs s) ∧
        lookup_path (sp ++ [uuid_str u]) (fs s') = None.
Proof.
  intros Hacc Hnf Hfile Hdup Hfresh.
  set (dir := sp ++ [uuid_str u]).
  pose proof (game_dir_incomparable sp u) as Hinc. fold dir in Hinc.
  (* the server directory exists and has no entry for the identifier *)
  assert (∃ es, lookup_path sp (fs s) = Some (Dir es) ∧
                assoc_get (uuid_str u) es = None) as (es & Hsp & Hu).
  { unfold games_json_path in Hfile. rewrite lookup_path_snoc in Hfile.
    unfold dir in Hfresh. rewrite lookup_path_snoc in Hfresh.
    destruct (lookup_path sp (fs s)) as [[?|es]|]; try done. by exists es. }
  (* the two directories are created *)
  destruct (fs_makedirs_new sp (uuid_str u) ["save_data"] _ _ Hsp Hu)
    as [n1 Hn1].
  replace (sp ++ [uuid_str u; "save_data"]) with (dir ++ ["save_data"]) in Hn1
    by (unfold dir; by rewrite <-app_assoc).
  destruct (fs_makedirs_is_dir _ _ _ Hn1) as [sd Hsd].
  rewrite lookup_path_snoc in Hsd.
  destruct (lookup_path dir n1) as [[?|es1]|] eqn:Hdir1; try done.
  assert (assoc_get "backup" es1 = None) as Hb.
  { assert (lookup_path (dir ++ ["backup"]) n1 = None) as Hnone.
    { rewrite (fs_makedirs_frame _ _ _ _ Hn1).
      - by eapply lookup_path_prefix_None; [|apply prefix_app_r].
      - intros Hp. apply prefix_app_inv, prefix_cons_inv_1 in Hp. done. }
    rewrite lookup_path_snoc, Hdir1 in Hnone. done. }
  destruct (fs_makedirs_new dir "backup" [] _ _ Hdir1 Hb) as [n2 Hn2].
  assert (lookup_path (games_json_path sp) n2
          = lookup_path (games_json_path sp) (fs s)) as Hgj2.
  { rewrite (fs_makedirs_frame _ _ _ _ Hn2), (fs_makedirs_frame _ _ _ _ Hn1);
      [done|..]; eapply incomparable_app_l, Hinc. }
  destruct (fs_makedirs_is_dir _ _ _ Hn2) as [bk Hbk].
  rewrite lookup_path_snoc in Hbk.
  destruct (lookup_path dir n2) as [[?|es2]|] eqn:Hdir2; try done.
  assert (dir ≠ []) as Hne by (unfold dir; by destruct sp).
  destruct (update_path_is_Some dir None n2 _ Hne Hdir2) as [n3 Hn3].
  (* the run *)
  exists (set_fs n3 (add_box (duplicate_game (strip (game_name_edit dialog)))
                      (set_fs n2 (set_fs n1 s)))).
  split_and!.
  - unfold add_new_game. rewrite Hacc. cbn [negb]. cbv zeta iota.
    fold dir.
    assert (try (path_mkdir_parents_exist_ok (dir ++ ["save_data"]);;
                 path_mkdir_parents_exist_ok (dir ++ ["backup"])) s
            = (Ret (Ret tt), set_fs n2 (set_fs n1 s))) as Hmk.
    { unfold try, path_mkdir_parents_exist_ok.
      erewrite bind_Ret; [|rewrite fs_do_no_fault by done; by rewrite Hn1].
      rewrite fs_do_no_fault by done. simpl. by rewrite Hn2. }
    rewrite (bind_Ret _ _ _ _ _ Hmk).
    assert (try (update_games_json sp (get_data dialog).1
                   (JDict [("id", JStr (uuid_str u));
                           ("name", JStr (get_data dialog).1)]) dir)
              (set_fs n2 (set_fs n1 s))
            = (Ret (Ret tt),
               set_fs n3 (add_box (duplicate_game (strip (game_name_edit dialog)))
                            (set_fs n2 (set_fs n1 s))))) as Hup.
    { unfold try, update_games_json.
      erewrite bind_Ret;
        [|unfold json_load; rewrite fs_ask_no_fault by done;
          unfold fs_parse, stat; simpl fs; rewrite Hgj2, Hfile; reflexivity].
      erewrite bind_Ret; [|reflexivity].
      erewrite bind_Ret; [|reflexivity].
      erewrite bind_Ret;
        [|cbn [default]; rewrite lower_names_records; reflexivity].
      simpl fst. rewrite bool_decide_eq_true_2 by done.
      erewrite bind_Ret; [|reflexivity].
      unfold shutil_rmtree. rewrite fs_do_no_fault by done.
      unfold fs_rmtree, stat, fs_update. simpl fs. rewrite Hdir2, Hn3. done. }
    by rewrite (bind_Ret _ _ _ _ _ Hup).
  - done.
  - simpl. rewrite (lookup_update_frame _ _ _ _ _ Hn3 Hinc). done.
  - simpl. by eapply lookup_update_eq.
Qed.

Lemma filter_none_lower name (c : list GameRecord) :
  lower name ∉ (λ g, lower (rec_name g)) <$> c →
  filter (λ g, lower (rec_name g) = lower name) c = [].
Proof.
  induction c as [|g c IH]; [done|]. rewrite fmap_cons, not_elem_of_cons.
  intros [Hne Hc]. rewrite filter_cons, decide_False by done. by apply IH.
Qed.

(** ** The local path map *)

Create HintDb keeps.

Lemma keeps_ret {A} (a : A) : keeps_local_paths (mret a : py A).
Proof. by intros s. Qed.

Lemma keeps_raise {A} e : keeps_local_paths (raise e : py A).
Proof. by intros s. Qed.

Lemma keeps_lift {A} (x : exn + A) : keeps_local_paths (lift x).
Proof. intros s. by destruct x. Qed.

Lemma keeps_bind {A B} (m : py A) (k : A → py B) :
  keeps_local_paths m → (∀ a, keeps_local_paths (k a)) →
  keeps_local_paths (m ≫= k).
Proof.
  intros Hm Hk s. unfold mbind, py_bind. specialize (Hm s).
  destruct (m s) as [[a|e] s1]; simpl in *; [|done]. by rewrite Hk.
Qed.

Lemma keeps_try {A} (m : py A) : keeps_local_paths m → keeps_local_paths (try m).
Proof. intros Hm s. unfold try. specialize (Hm s). by destruct (m s). Qed.

Lemma keeps_syscall : keeps_local_paths syscall.
Proof. intros s. unfold syscall. by destruct (faults s) as [|[] ?]. Qed.

Lemma keeps_fs_apply f : keeps_local_paths (fs_apply f).
Proof. intros s. unfold fs_apply. by destruct (f (fs s)). Qed.

Lemma keeps_fs_do f : keeps_local_paths (fs_do f).
Proof.
  apply keeps_bind; [apply keeps_syscall|]. intros _. apply keeps_fs_apply.
Qed.

Lemma keeps_fs_ask {A} (f : node → exn + A) : keeps_local_paths (fs_ask f).
Proof.
  apply keeps_bind; [apply keeps_syscall|]. intros _.
  apply keeps_bind; [done|]. intros n. apply keeps_lift.
Qed.

Lemma keeps_message_box i title text :
  keeps_local_paths (message_box i title text).
Proof. by intros s. Qed.

#[local] Hint Resolve keeps_ret keeps_raise keeps_lift keeps_try keeps_syscall
  keeps_fs_apply keeps_fs_do keeps_fs_ask keeps_message_box : keeps.

Lemma keeps_update_games_json sp name new dir :
  keeps_local_paths (update_games_json sp name new dir).
Proof.
  unfold update_games_json, write_games_json, json_load, json_dump,
    shutil_rmtree, os_rename, warning.
  repeat (apply keeps_bind; [auto with keeps|]; intros ?).
  case_bool_decide; repeat (apply keeps_bind; [auto with keeps|]; intros ?);
    auto with keeps.
Qed.

Lemma keeps_add_new_game sp dialog u :
  keeps_local_paths (add_new_game sp dialog u).
Proof.
  unfold add_new_game, path_mkdir_parents_exist_ok, shutil_rmtree, critical.
  destruct (negb (dialog_accepted dialog)); [auto with keeps|].
  apply keeps_bind; [apply keeps_try, keeps_bind; auto with keeps|].
  intros [[]|e]; [|auto with keeps].
  apply keeps_bind; [apply keeps_try, keeps_update_games_json|].
  intros [[]|e]; [auto with keeps|].
  apply keeps_bind; [auto with keeps|]. intros _.
  apply keeps_bind; [auto with keeps|]. intros [[]|e']; auto with keeps.
Qed.

(** Synchronising the selected game when the local path map has no entry
    for it. *)
Lemma sync_without_local_path sp lbr now user s item gid name :
  selected s ≫= (λ i, game_list_widget s !! i) = Some item →
  py_getitem "id" (item_data item) = inr (JStr gid) →
  py_getitem "name" (item_data item) = inr name →
  local_game_paths s !! gid = None →
  upload_save sp now user s = (Ret tt, add_box local_path_not_set s) ∧
  download_save sp lbr now user s = (Ret tt, add_box local_path_not_set s).
Proof.
  intros Hsel Hid Hname Hpath.
  assert (get_selected_game_item s = (Ret (Some item), s)) as H1.
  { unfold get_selected_game_item. by rewrite Hsel. }
  assert (paths_get (JStr gid) s = (Ret None, s)) as H2.
  { unfold paths_get. by rewrite Hpath. }
  split.
  - unfold upload_save. rewrite (bind_Ret _ _ _ _ _ H1).
    rewrite (bind_Ret _ _ _ _ _ (lift_inr _ _ _ Hid)).
    rewrite (bind_Ret _ _ _ _ _ (lift_inr _ _ _ Hname)).
    by rewrite (bind_Ret _ _ _ _ _ H2).
  - unfold download_save. rewrite (bind_Ret _ _ _ _ _ H1).
    rewrite (bind_Ret _ _ _ _ _ (lift_inr _ _ _ Hid)).
    rewrite (bind_Ret _ _ _ _ _ (lift_inr _ _ _ Hname)).
    by rewrite (bind_Ret _ _ _ _ _ H2).
Qed.

Lemma dialog_accepted_name dialog :
  dialog_accepted dialog = true → strip (game_name_edit dialog) ≠ EmptyString.
Proof.
  unfold dialog_accepted, validate_and_accept.
  rewrite !andb_true_iff, negb_true_iff, bool_decide_eq_false. tauto.
Qed.

Lemma uuid_str_nonempty u : uuid_str u ≠ EmptyString.
Proof. by destruct (uuid_str_head u) as (k & rest & ->). Qed.

(** ** Computations that only act on the file system *)

Create HintDb io.

Lemma io_only_ret {A} (a : A) : io_only (mret a : py A).
Proof. intros s r s' [= <- <-]. apply io_step_refl. Qed.

Lemma io_only_raise {A} e : io_only (raise e : py A).
Proof. intros s r s' [= <- <-]. apply io_step_refl. Qed.

Lemma io_only_lift {A} (x : exn + A) : io_only (lift x).
Proof. intros s r s' H. apply lift_inv in H as [-> _]. apply io_step_refl. Qed.

Lemma io_only_get_fs : io_only get_fs.
Proof. intros s r s' [= <- <-]. apply io_step_refl. Qed.

Lemma io_only_bind {A B} (m : py A) (k : A → py B) :
  io_only m → (∀ a, io_only (k a)) → io_only (m ≫= k).
Proof.
  intros Hm Hk s r s' H.
  apply bind_inv in H as [(a & s1 & H1 & H2)|(e & H1 & _)].
  - eapply io_step_trans; [by eapply Hm | by eapply Hk].
  - by eapply Hm.
Qed.

Lemma io_only_try {A} (m : py A) : io_only m → io_only (try m).
Proof. intros Hm s r s' H. apply try_inv in H as (r0 & _ & H). by eapply Hm. Qed.

Lemma io_only_syscall : io_only syscall.
Proof. intros s r s' H. by apply syscall_inv in H as [? _]. Qed.

Lemma io_only_fs_apply f : io_only (fs_apply f).
Proof.
  intros s r s'. unfold fs_apply.
  destruct (f (fs s)); intros [= <- <-]; auto.
Qed.

Lemma io_only_fs_do f : io_only (fs_do f).
Proof. intros s r s' H. by apply fs_do_inv in H as [? _]. Qed.

Lemma io_only_fs_ask {A} (f : node → exn + A) : io_only (fs_ask f).
Proof. intros s r s' H. by apply fs_ask_inv in H as [? _]. Qed.

Lemma io_only_shutil_copytree exist_ok src dst :
  io_only (shutil_copytree exist_ok src dst).
Proof. intros s r s' H. by apply shutil_copytree_inv in H as [? _]. Qed.

#[local] Hint Resolve io_only_ret io_only_raise io_only_lift io_only_get_fs
  io_only_try io_only_syscall io_only_fs_apply io_only_fs_do io_only_fs_ask
  io_only_shutil_copytree : io.

Lemma io_only_shutil_move src dst : io_only (shutil_move src dst).
Proof.
  unfold shutil_move, os_rename, shutil_rmtree, shutil_copy2, os_remove.
  apply io_only_bind; [auto with io|]. intros n.
  destruct (is_dir dst n && bool_decide (src = dst)); [auto with io|].
  destruct (is_dir dst n && exists_path _ n); [auto with io|].
  apply io_only_bind; [auto with io|]. intros [[]|e]; [auto with io|].
  destruct (is_OSError e); [|auto with io].
  apply io_only_bind; [auto with io|]. intros n'.
  destruct (is_dir src n').
  - destruct (bool_decide _); [auto with io|].
    apply io_only_bind; auto with io.
  - apply io_only_bind; auto with io.
Qed.

Lemma io_only_backup_server_save save bdest :
  io_only (backup_server_save save bdest).
Proof.
  unfold backup_server_save, path_iterdir, path_mkdir.
  apply io_only_bind; [auto with io|]. intros names.
  destruct (bool_decide _); [auto with io|].
  apply io_only_bind; [apply io_only_shutil_move | auto with io].
Qed.

Lemma io_only_clear_directory_contents p :
  io_only (_clear_directory_contents p).
Proof. intros s r s' H. by apply _clear_directory_contents_inv in H as [? _]. Qed.

(** ** Upload *)

Lemma show_overwrite_warning_inv user title text s r s0 :
  _show_overwrite_warning user title text s = (r, s0) →
  ∃ go, r = Ret go ∧ fs s0 = fs s ∧ faults s0 = faults s ∧
        local_game_paths s0 = local_game_paths s ∧
        (shown s0 = shown s ∧ go = true ∨
         shown s0 = shown s ++ [MessageBox Warning title text]).
Proof.
  unfold _show_overwrite_warning.
  destruct (show_overwrite_warning s); simpl; intros [= <- <-].
  - eexists. split; [done|]. destruct (dont_show_again user); simpl;
      split_and!; auto.
  - eexists. split_and!; auto.
Qed.

Lemma fs_mkdir_inr p n n' :
  fs_mkdir p n = inr n' →
  lookup_path p n = None ∧ update_path p (Some (Dir [])) n = Some n'.
Proof.
  unfold fs_mkdir. destruct (lookup_path p n); [done|]. intros H.
  split; [done|]. by apply fs_update_inr.
Qed.

Lemma fs_listdir_inr p n names :
  fs_listdir p n = inr names →
  ∃ es, lookup_path p n = Some (Dir es) ∧ names = es.*1.
Proof.
  unfold fs_listdir, stat. destruct (lookup_path p n) as [[?|es]|]; try done.
  intros [= <-]. by exists es.
Qed.

Lemma backup_server_save_inv save bdest s s' :
  backup_server_save save bdest s = (Ret tt, s') →
  wf_node (fs s) = true → incomparable save bdest →
  ∃ es, lookup_path save (fs s) = Some (Dir es) ∧
        if decide (es = []) then fs s' = fs s
        else lookup_path bdest (fs s) = None →
             lookup_path bdest (fs s') = Some (Dir es) ∧
             lookup_path save (fs s') = Some (Dir []) ∧
             ∀ q, incomparable save q → incomparable bdest q →
                  lookup_path q (fs s') = lookup_path q (fs s).
Proof.
  unfold backup_server_save. intros H Hwf Hinc.
  apply bind_inv in H as [(names & s1 & Hl & H)|(e & Hl & ?)]; [|done].
  apply fs_ask_inv in Hl as (Hio1 & Hfs1 & Hl).
  specialize (Hl names eq_refl). apply fs_listdir_inr in Hl as (es & Hes & ->).
  exists es. split; [done|]. case_bool_decide as Hnames.
  - injection H as <-. destruct es; [|done]. by rewrite decide_True.
  - rewrite decide_False by (by destruct es). intros Hb.
    apply bind_inv in H as [([] & s2 & Hmv & H)|(e & Hmv & ?)]; [|done].
    rewrite <-Hfs1 in Hwf, Hb, Hes.
    destruct (shutil_move_inv _ _ _ _ _ Hmv Hwf Hes Hb) as (_ & Hb2 & Hs2 & Hfr2).
    rewrite Hfs1 in *.
    apply fs_do_inv in H as (_ & [[_ H3]|(e & ? & _)]); [|done].
    apply fs_mkdir_inr in H3 as [_ H3]. split_and!.
    + rewrite (lookup_update_frame _ _ _ _ _ H3 Hinc). done.
    + by eapply lookup_update_eq.
    + intros q Hq1 Hq2. rewrite (lookup_update_frame _ _ _ _ _ H3 Hq1).
      by apply Hfr2.
Qed.

Lemma upload_files_inv sp now gid name (lp : path) s r s' :
  upload_files sp now (JStr gid) name lp s = (r, s') →
  let save := sp ++ [gid; "save_data"] in
  let bdest := sp ++ [gid; "backup"; now] in
  match r with
  | Ret _ =>
      ∃ sa sb, backup_server_save save bdest s = (Ret tt, sa) ∧
               shutil_copytree true lp save sa = (Ret tt, sb) ∧
               s' = add_box (upload_complete name) sb
  | Raise e => io_step s s'
  end.
Proof.
  intros H save bdest. unfold upload_files in H.
  apply bind_inv in H as [(gd & s0 & Hj & H)|(e & Hj & _)];
    [injection Hj as <- <- | discriminate Hj].
  rewrite <-!app_assoc in H. simpl app in H. fold save bdest in H.
  apply bind_inv in H as [([] & sa & Hbk & H)|(e & Hbk & ->)];
    [|by eapply io_only_backup_server_save].
  apply bind_inv in H as [([] & sb & Hcp & H)|(e & Hcp & ->)].
  - injection H as <- <-. by exists sa, sb.
  - eapply io_step_trans; [by eapply io_only_backup_server_save|].
    by eapply io_only_shutil_copytree.
Qed.

Lemma upload_save_inv sp now user s r s' item gid name (lp : path) :
  selected s ≫= (λ i, game_list_widget s !! i) = Some item →
  py_getitem "id" (item_data item) = inr (JStr gid) →
  py_getitem "name" (item_data item) = inr name →
  local_game_paths s !! gid = Some lp → lp ≠ [] →
  upload_save sp now user s = (r, s') →
  last (shown s') = Some (upload_complete name) →
  ∃ s0 sa sb,
    fs s0 = fs s ∧
    backup_server_save (sp ++ [gid; "save_data"]) (sp ++ [gid; "backup"; now]) s0
      = (Ret tt, sa) ∧
    shutil_copytree true lp (sp ++ [gid; "save_data"]) sa = (Ret tt, sb) ∧
    s' = add_box (upload_complete name) sb.
Proof.
  intros Hsel Hid Hname Hpath Hlp H Hlast.
  assert (get_selected_game_item s = (Ret (Some item), s)) as H1.
  { unfold get_selected_game_item. by rewrite Hsel. }
  assert (paths_get (JStr gid) s = (Ret (Some lp), s)) as H2.
  { unfold paths_get. by rewrite Hpath. }
  unfold upload_save in H. rewrite (bind_Ret _ _ _ _ _ H1) in H.
  rewrite (bind_Ret _ _ _ _ _ (lift_inr _ _ _ Hid)) in H.
  rewrite (bind_Ret _ _ _ _ _ (lift_inr _ _ _ Hname)) in H.
  rewrite (bind_Ret _ _ _ _ _ H2) in H.
  destruct lp as [|x lp]; [done|].
  apply bind_inv in H as [(go & s0 & Hw & H)|(e & Hw & _)];
    apply show_overwrite_warning_inv in Hw as (go' & Hgo & Hfs0 & _ & _ & Hsh0);
    [|done].
  injection Hgo as ->. destruct go'; simpl in H.
  - apply bind_inv in H as [(r1 & s1 & Ht & H)|(e & Ht & _)];
      [|by apply try_inv in Ht as (? & ? & _)].
    apply try_inv in Ht as (r1' & [= ->] & Hup).
    apply upload_files_inv in Hup. destruct r1' as [[]|e].
    + injection H as <- <-. destruct Hup as (sa & sb & ? & ? & ?).
      by exists s0, sa, sb.
    + injection H as <- <-. simpl in Hlast. by rewrite last_snoc in Hlast.
  - injection H as <- <-. destruct Hsh0 as [[_ ?]|Hsh0]; [done|].
    rewrite Hsh0, last_snoc in Hlast. done.
Qed.

Lemma incomparable_siblings p x y r1 r2 :
  x ≠ y → incomparable (p ++ x :: r1) (p ++ y :: r2).
Proof.
  intros Hne. split; intros H; apply prefix_app_inv in H;
    apply prefix_cons_inv_1 in H; congruence.
Qed.

(** ** Download *)

Lemma copy_then_clear_stops lp bdest s1 e s2 :
  shutil_copytree true lp bdest s1 = (Raise e, s2) →
  incomparable lp bdest →
  (shutil_copytree true lp bdest;; _clear_directory_contents lp) s1
    = (Raise e, s2) ∧
  lookup_path lp (fs s2) = lookup_path lp (fs s1).
Proof.
  intros H Hinc. split; [by apply bind_Raise|].
  apply shutil_copytree_inv in H as (_ & Hch & _).
  by apply Hch, incomparable_sym.
Qed.

Lemma backup_local_save_inv lp bdest s r s' les :
  backup_local_save lp bdest s = (r, s') →
  lookup_path lp (fs s) = Some (Dir les) → wf_node (Dir les) = true →
  lookup_path bdest (fs s) = None → incomparable lp bdest →
  (lookup_path lp (fs s') = Some (Dir les) ∨
   lookup_path bdest (fs s') = Some (Dir les)) ∧
  (r = Ret tt →
   lookup_path bdest (fs s') = Some (Dir les) ∧
   lookup_path lp (fs s') = Some (Dir [])).
Proof.
  intros H Hlp Hwf Hfresh Hinc. unfold backup_local_save in H.
  apply bind_inv in H as [([] & s1 & Hmk & H)|(e & Hmk & ->)];
    apply fs_do_inv in Hmk as (_ & Hmk).
  2:{ split; [left|done].
      destruct Hmk as [[? _]|(e' & _ & ->)]; done. }
  destruct Hmk as [[_ Hmk]|(e & ? & _)]; [|done].
  assert (lookup_path lp (fs s1) = Some (Dir les)) as Hlp1.
  { rewrite (fs_makedirs_frame _ _ _ _ Hmk); [done|by destruct Hinc]. }
  assert (lookup_path bdest (fs s1) = Some (Dir [])) as Hb1.
  { rewrite (fs_makedirs_lookup _ _ _ Hmk). by rewrite Hfresh. }
  apply bind_inv in H as [(names & s2 & Hl & H)|(e & Hl & ->)];
    apply fs_ask_inv in Hl as (_ & Hfs2 & Hl);
    [|rewrite Hfs2; split; [by left|done]].
  specialize (Hl names eq_refl). rewrite <-Hfs2 in Hlp1, Hb1.
  apply fs_listdir_inr in Hl as (es & Hes & ->).
  rewrite <-Hfs2, Hlp1 in Hes. injection Hes as <-.
  case_bool_decide as Hnames.
  - injection H as <- <-. destruct les; [|done]. split; [by left|done].
  - apply bind_inv in H as [([] & s3 & Hcp & H)|(e & Hcp & ->)];
      apply shutil_copytree_inv in Hcp as (_ & Hch3 & Hcp).
    2:{ split; [left|done]. by rewrite (Hch3 lp (incomparable_sym _ _ Hinc)). }
    destruct Hcp as [_ Hb3]; [done| |by rewrite Hb1|].
    { intros n Hn. rewrite Hlp1 in Hn. by injection Hn as <-. }
    rewrite Hlp1 in Hb3.
    pose proof (Hch3 lp (incomparable_sym _ _ Hinc)) as Hlp3. rewrite Hlp1 in Hlp3.
    apply _clear_directory_contents_inv in H as (_ & Hch4 & H4).
    rewrite <-(Hch4 bdest Hinc) in Hb3. split; [by right|].
    intros ->. split; [done|]. by eapply H4.
Qed.

Lemma download_files_inv sp lbr now gid name (lp : path) s r s' :
  download_files sp lbr now (JStr gid) name lp s = (r, s') →
  let save := sp ++ [gid; "save_data"] in
  let bdest := lbr ++ [gid; now] in
  ∃ ra sa,
    backup_local_save lp bdest s = (ra, sa) ∧
    match ra with
    | Raise e => r = Raise e ∧ s' = sa
    | Ret _ =>
        ∃ rb sb,
          shutil_copytree true save lp sa = (rb, sb) ∧
          match rb with
          | Raise e => r = Raise e ∧ s' = sb
          | Ret _ => r = Ret tt ∧ s' = add_box (download_complete name) sb
          end
    end.
Proof.
  intros H save bdest. unfold download_files in H.
  apply bind_inv in H as [(gd & s0 & Hj & H)|(e & Hj & _)];
    [injection Hj as <- <- | discriminate Hj].
  apply bind_inv in H as [(bd & s0 & Hj & H)|(e & Hj & _)];
    [injection Hj as <- <- | discriminate Hj].
  rewrite <-!app_assoc in H. simpl app in H. fold save bdest in H.
  apply bind_inv in H as [([] & sa & Hbk & H)|(e & Hbk & ->)].
  - exists (Ret tt), sa. split; [done|].
    apply bind_inv in H as [([] & sb & Hcp & H)|(e & Hcp & ->)].
    + exists (Ret tt), sb. split; [done|]. by injection H as <- <-.
    + by exists (Raise e), s'.
  - by exists (Raise e), s'.
Qed.

Lemma download_save_inv sp lbr now user s r s' item gid name (lp : path) :
  selected s ≫= (λ i, game_list_widget s !! i) = Some item →
  py_getitem "id" (item_data item) = inr (JStr gid) →
  py_getitem "name" (item_data item) = inr name →
  local_game_paths s !! gid = Some lp → lp ≠ [] →
  download_save sp lbr now user s = (r, s') →
  (fs s' = fs s ∧ last (shown s') ≠ Some (download_complete name)) ∨
  ∃ s0 r1 s1,
    fs s0 = fs s ∧
    download_files sp lbr now (JStr gid) name lp s0 = (r1, s1) ∧
    fs s' = fs s1 ∧
    (last (shown s') = Some (download_complete name) → r1 = Ret tt ∧ s' = s1).
Proof.
  intros Hsel Hid Hname Hpath Hlp H.
  assert (get_selected_game_item s = (Ret (Some item), s)) as H1.
  { unfold get_selected_game_item. by rewrite Hsel. }
  assert (paths_get (JStr gid) s = (Ret (Some lp), s)) as H2.
  { unfold paths_get. by rewrite Hpath. }
  unfold download_save in H. rewrite (bind_Ret _ _ _ _ _ H1) in H.
  rewrite (bind_Ret _ _ _ _ _ (lift_inr _ _ _ Hid)) in H.
  rewrite (bind_Ret _ _ _ _ _ (lift_inr _ _ _ Hname)) in H.
  rewrite (bind_Ret _ _ _ _ _ H2) in H.
  destruct lp as [|x lp]; [done|].
  apply bind_inv in H as [(go & s0 & Hw & H)|(e & Hw & _)];
    apply show_overwrite_warning_inv in Hw as (go' & Hgo & Hfs0 & _ & _ & Hsh0);
    [|done].
  injection Hgo as ->. destruct go'; simpl in H.
  - right. apply bind_inv in H as [(r1 & s1 & Ht & H)|(e & Ht & _)];
      [|by apply try_inv in Ht as (? & ? & _)].
    apply try_inv in Ht as (r1' & [= ->] & Hdl).
    exists s0, r1', s1. split_and!; [done|done| |].
    + destruct r1'; by injection H as <- <-.
    + destruct r1' as [[]|e]; injection H as <- <-; [done|].
      simpl. by rewrite last_snoc.
  - left. injection H as <- <-. split; [done|].
    destruct Hsh0 as [[_ ?]|Hsh0]; [done|]. by rewrite Hsh0, last_snoc.
Qed.

(** ** Empty sources *)

Lemma backup_server_save_empty save bdest s r s' :
  backup_server_save save bdest s = (r, s') →
  lookup_path save (fs s) = Some (Dir []) →
  fs s' = fs s.
Proof.
  unfold backup_server_save. intros H Hsave.
  apply bind_inv in H as [(names & s1 & Hl & H)|(e & Hl & ->)];
    apply fs_ask_inv in Hl as (_ & Hfs1 & Hl); [|done].
  specialize (Hl names eq_refl). apply fs_listdir_inr in Hl as (es & Hes & ->).
  rewrite Hsave in Hes. injection Hes as <-. simpl in H. by injection H as <- <-.
Qed.

(** ** Incomplete entries of the manifest *)

Lemma lower_names_inr items names e :
  lower_names items = inr names → e ∈ items →
  ∃ n, py_getitem "name" e = inr (JStr n).
Proof.
  revert names. induction items as [|g items IH]; intros names H He.
  - by apply elem_of_nil in He.
  - simpl in H. destruct (py_getitem "name" g) as [?|v] eqn:Hg; [done|].
    destruct (py_lower v) as [?|x] eqn:Hv; [done|].
    destruct (lower_names items) as [?|xs]; [done|].
    apply elem_of_cons in He as [->|He]; [|by eapply IH].
    destruct v; try done. by eexists.
Qed.

(** The loader skips an entry that has no name, or no identifier. *)
Lemma list_game_incomplete d t :
  incomplete_entry d → list_game (JDict d) t = (Ret tt, t).
Proof.
  unfold incomplete_entry, list_game. intros [->| ->]; simpl; [done|].
  by rewrite orb_true_r.
Qed.

(** * The claims of the specification *)

(** C1. Saving the manifest writes the whole document to
    [games.json.tmp], a file in the directory of [games.json], and then
    renames it over [games.json].  After a successful save the manifest
    holds the saved document, and loading it lists the saved catalog (of
    records that have an identifier and a name).  When the save fails, at
    the write or at the rename, [games.json] is what it was before. *)
Theorem atomic_manifest_write (server_path : path) (doc : json)
    (s : state) (r : result unit) (s' : state) :
  write_games_json server_path doc s = (r, s') →
  let tmp := games_json_temp_path server_path in
  let dst := games_json_path server_path in
  (removelast tmp = removelast dst ∧ tmp ≠ dst) ∧
  (∃ r1 s1,
     json_dump doc tmp s = (r1, s1) ∧
     lookup_path dst (fs s1) = lookup_path dst (fs s) ∧
     match r1 with
     | Ret _ =>
         lookup_path tmp (fs s1) = Some (File (JsonText doc)) ∧
         os_rename tmp dst s1 = (r, s')
     | Raise e => r = Raise e ∧ s' = s1
     end) ∧
  (r = Ret tt →
     lookup_path dst (fs s') = Some (File (JsonText doc)) ∧
     ∀ c t, doc = manifest_json c → Forall valid_record c →
            fs t = fs s' → head (faults t) ≠ Some true →
            let t' := (load_games_from_json server_path t).2 in
            item_data <$> game_list_widget t' = record_json <$> c ∧
            shown t' = shown t) ∧
  (∀ e, r = Raise e → lookup_path dst (fs s') = lookup_path dst (fs s)).
Proof.
  intros H tmp dst.
  pose proof (games_json_temp_path_incomparable server_path) as Hinc.
  pose proof (write_games_json_inv _ _ _ _ _ H) as (Hio & Hframe & Hres).
  split_and!.
  - subst tmp dst. rewrite games_json_temp_path_eq. unfold games_json_path.
    by rewrite !removelast_last.
  - intros E. fold tmp dst in Hinc. rewrite E in Hinc. by destruct Hinc as [[] _].
  - unfold write_games_json in H. fold tmp dst in H.
    destruct (json_dump doc tmp s) as [r1 s1] eqn:Hd. exists r1, s1.
    pose proof (json_dump_inv _ _ _ _ _ Hd) as (_ & Hc1 & H1).
    split_and!; [done|by apply Hc1|].
    unfold mbind, py_bind in H. rewrite Hd in H.
    destruct r1 as [[]|e]; [|by injection H as <- <-].
    split; [by apply H1 | done].
  - intros ->. split; [done|]. intros c t -> Hc Ht Hf t'.
    rewrite <-Ht in Hres.
    destruct (load_games_valid server_path c t Hc Hres Hf) as (Hl & Hs & _).
    split; [|done]. subst t'. rewrite Hl. rewrite <-list_fmap_compose.
    by apply list_fmap_ext.
  - by intros e ->.
Qed.

Lemma atomic_manifest_write_witness :
  let s' := (write_games_json demo_server (manifest_json [demo_game])
               demo_state).2 in
  lookup_path (games_json_path demo_server) (fs s')
    = Some (File (JsonText (manifest_json [demo_game]))) ∧
  item_data <$> game_list_widget (load_games_from_json demo_server s').2
    = [record_json demo_game].
Proof.
  intros s'.
  destruct (atomic_manifest_write demo_server (manifest_json [demo_game])
              demo_state (Ret tt) s' eq_refl) as (_ & _ & Hok & _).
  destruct (Hok eq_refl) as [Hfile Hload]. split; [exact Hfile|].
  destruct (Hload [demo_game] s' eq_refl) as [Hitems _].
  - constructor; [|constructor]. split; discriminate.
  - reflexivity.
  - discriminate.
  - exact Hitems.
Defined.

(** C2 (as amended). A registration that fails once the server
    directories exist - because the name is taken or because the manifest
    could not be read or written - leaves the manifest as it was, and the
    directories are removed unless their removal fails too, which is
    reported as "Rollback Error".  And when a registration went through, a
    second one under the same name (up to case), with a new identifier and
    no I/O fault, is refused as "Duplicate Game", its directories are
    removed, and the manifest still has exactly one record of that name. *)
Theorem registration_is_rolled_back (server_path : path)
    (dialog : AddGameDialog) (u : N) (s : state) (r : result unit) (s' : state) :
  add_new_game server_path dialog u s = (r, s') →
  dialog_accepted dialog = true →
  let gj := games_json_path server_path in
  let name := strip (game_name_edit dialog) in
  (shown s' ≠ shown s →
   (∀ e, shown s' ≠ shown s ++ [could_not_create_directories e]) →
   lookup_path gj (fs s') = lookup_path gj (fs s) ∧
   (lookup_path (server_path ++ [uuid_str u]) (fs s') = None ∨
    ∃ boxes e, shown s' = shown s ++ boxes ++ [rollback_error e])) ∧
  (∀ c dialog2 u2,
     lookup_path gj (fs s) = Some (File (JsonText (manifest_json c))) →
     shown s' = shown s →
     dialog_accepted dialog2 = true →
     lower (strip (game_name_edit dialog2)) = lower name →
     faults s' = [] →
     lookup_path (server_path ++ [uuid_str u2]) (fs s') = None →
     ∃ s2,
       add_new_game server_path dialog2 u2 s' = (Ret tt, s2) ∧
       shown s2 = shown s' ++ [duplicate_game (strip (game_name_edit dialog2))] ∧
       lookup_path (server_path ++ [uuid_str u2]) (fs s2) = None ∧
       lookup_path gj (fs s2)
         = Some (File (JsonText (manifest_json (c ++ [Game (uuid_str u) name])))) ∧
       length (filter (λ g, lower (rec_name g) = lower name)
                 (c ++ [Game (uuid_str u) name])) = 1).
Proof.
  intros H Hacc gj name. split.
  - intros Hfail Hdirs.
    destruct (add_new_game_inv _ _ _ _ _ _ H Hacc) as
      [_ [(e & Hsh & Hgj)|[(Hsh & Hev)|[(Hsh & Hgj & Hdir & _)|
       [(boxes & e & Hsh & Hgj & Hdir)|(boxes & e & e' & Hsh & Hgj)]]]]].
    + by destruct (Hdirs e).
    + done.
    + split; [done | by left].
    + split; [done | by left].
    + split; [done|]. right. exists (boxes ++ [could_not_update e]), e'.
      rewrite Hsh. by rewrite <-!app_assoc.
  - intros c dialog2 u2 Hfile Hreg Hacc2 Hname Hnf Hfresh.
    destruct (add_new_game_catalog _ _ _ _ _ _ _ Hacc Hfile H)
      as [(_ & Hgj & Hnew)|(Hne & _)]; [|done].
    fold name in Hgj. simpl in Hnew. fold name in Hnew. subst gj.
    destruct (add_new_game_duplicate server_path dialog2 u2 _ s' Hacc2 Hnf Hgj)
      as (s2 & Hrun & Hsh2 & Hgj2 & Hdir2); [|done|].
    { rewrite Hname, fmap_app. apply elem_of_app. right. simpl. left. }
    exists s2. split_and!; [done|done|done|by rewrite Hgj2|].
    rewrite filter_app, (filter_none_lower _ _ Hnew). simpl.
    rewrite filter_cons, decide_True by done. done.
Qed.






(** C5 fails for downloads.  A successful download into an empty local
    directory still creates the time-stamped backup folder, which stays
    behind empty; on the upload side the backup step changes nothing when
    the server's [save_data] is empty. *)
Theorem download_of_empty_local_creates_backup_folder
    (server_path local_backup_root : path) (now : string) (user : reply)
    (s : state) (r : result unit) (s' : state) (item : QListWidgetItem)
    (gid : string) (name : json) (lp : path) :
  selected s ≫= (λ i, game_list_widget s !! i) = Some item →
  py_getitem "id" (item_data item) = inr (JStr gid) →
  py_getitem "name" (item_data item) = inr name →
  local_game_paths s !! gid = Some lp →
  let bdest := local_backup_root ++ [gid; now] in
  lookup_path lp (fs s) = Some (Dir []) →
  lookup_path bdest (fs s) = None →
  incomparable lp bdest →
  download_save server_path local_backup_root now user s = (r, s') →
  last (shown s') = Some (download_complete name) →
  lookup_path bdest (fs s') = Some (Dir []) ∧
  ∀ t rt t',
    backup_server_save (server_path ++ [gid; "save_data"])
      (server_path ++ [gid; "backup"; now]) t = (rt, t') →
    lookup_path (server_path ++ [gid; "save_data"]) (fs t) = Some (Dir []) →
    fs t' = fs t.
Proof.
  intros Hsel Hid Hname Hpath bdest Hles Hfresh Hinc H Hlast.
  split; [|intros t rt t'; apply backup_server_save_empty].
  assert (lp ≠ []) as Hlp.
  { intros ->. destruct Hinc as [[] _]. apply prefix_nil. }
  destruct (download_save_inv _ _ _ _ _ _ _ _ _ _ _ Hsel Hid Hname Hpath Hlp H)
    as [[_ ?]|(s0 & r1 & s1 & Hfs0 & Hdl & _ & Hs1)]; [done|].
  destruct (Hs1 Hlast) as [-> ->].
  apply download_files_inv in Hdl as (ra & sa & Hbk & Hrest).
  fold bdest in Hbk, Hrest. rewrite <-Hfs0 in Hles, Hfresh.
  destruct ra as [[]|e]; [|by destruct Hrest].
  destruct Hrest as (rb & sb & Hcp & Hrest).
  destruct rb as [[]|e]; [|by destruct Hrest].
  destruct Hrest as [_ ->].
  destruct (backup_local_save_inv _ _ _ _ _ _ Hbk Hles eq_refl Hfresh Hinc)
    as [_ [Hb Hl]]; [done|].
  apply shutil_copytree_inv in Hcp as (_ & Hch & _). simpl.
  by rewrite (Hch bdest Hinc).
Qed.

Lemma download_of_empty_local_creates_backup_folder_witness :
  let s' := (download_save demo_server demo_backups demo_time
               (Reply true false) demo_empty_local).2 in
  lookup_path demo_local (fs demo_empty_local) = Some (Dir []) ∧
  lookup_path demo_backups (fs demo_empty_local) = None ∧
  lookup_path (demo_backups ++ ["g1"; demo_time]) (fs s') = Some (Dir []).
Proof.
  intros s'.
  destruct (download_of_empty_local_creates_backup_folder demo_server
              demo_backups demo_time (Reply true false) demo_empty_local
              (download_save demo_server demo_backups demo_time
                 (Reply true false) demo_empty_local).1
              s' (ListItem (record_json demo_game) false) "g1"
              (JStr "Celeste") demo_local) as [Hb _].
  - reflexivity.
  - reflexivity.
  - reflexivity.
  - reflexivity.
  - reflexivity.
  - reflexivity.
  - split; intros [k Hk]; discriminate Hk.
  - apply surjective_pairing.
  - vm_compute. reflexivity.
  - split_and!; [reflexivity|reflexivity|exact Hb].
Defined.


(** C7 fails for the registrar.  An entry of the manifest that has no name
    is skipped by the loader, but it stops every registration: the name
    check raises on it, so no registration goes through and the manifest
    stays as it is. *)
Theorem registrar_fails_on_entry_without_name (server_path : path)
    (dialog : AddGameDialog) (u : N) (s : state) (r : result unit)
    (s' : state) (doc : json) (games : list json)
    (d : list (string * json)) :
  dialog_accepted dialog = true →
  lookup_path (games_json_path server_path) (fs s)
    = Some (File (JsonText doc)) →
  py_get "games" doc = inr (Some (JList games)) →
  JDict d ∈ games → assoc_get "name" d = None →
  add_new_game server_path dialog u s = (r, s') →
  (∀ t, list_game (JDict d) t = (Ret tt, t)) ∧
  shown s' ≠ shown s ∧
  lookup_path (games_json_path server_path) (fs s')
    = lookup_path (games_json_path server_path) (fs s).
Proof.
  intros Hacc Hfile Hgames Hin Hname H. split.
  { intros t. apply list_game_incomplete. by right. }
  destruct (add_new_game_inv _ _ _ _ _ _ H Hacc) as
    [_ [(e & Hsh & Hgj)|[(Hsh & Hev)|[(Hsh & Hgj & _)|
     [(boxes & e & Hsh & Hgj & _)|(boxes & e & e' & Hsh & Hgj)]]]]].
  - rewrite Hsh. split; [apply (app_ne_self _ [])|done].
  - exfalso.
    destruct Hev as (doc0 & games0 & items & names & doc' & Hdoc & Hg &
      Hi & Hn & _).
    rewrite Hfile in Hdoc. injection Hdoc as <-.
    rewrite Hgames in Hg. injection Hg as <-. injection Hi as <-.
    destruct (lower_names_inr _ _ _ Hn Hin) as [n Hd].
    simpl in Hd. by rewrite Hname in Hd.
  - rewrite Hsh. split; [apply (app_ne_self _ [])|done].
  - rewrite Hsh. split; [apply app_ne_self|done].
  - rewrite Hsh. split; [|done].
    change [could_not_update e; rollback_error e']
      with ([could_not_update e] ++ [rollback_error e']).
    rewrite (app_assoc boxes). apply app_ne_self.
Qed.

(** C8. For a game of the catalog (the selected entry of the game list)
    that has no entry in the local path map, upload and download both end
    with the warning "Local path not set." and change nothing else: the
    file system, on the server and locally, is as before and no system call
    was made. *)
Theorem unconfigured_game_blocks_sync (server_path local_backup_root : path)
    (now : string) (user : reply) (s : state)
    (item : QListWidgetItem) (gid : string) (name : json) :
  selected s ≫= (λ i, game_list_widget s !! i) = Some item →
  py_getitem "id" (item_data item) = inr (JStr gid) →
  py_getitem "name" (item_data item) = inr name →
  local_game_paths s !! gid = None →
  upload_save server_path now user s
    = (Ret tt, add_box local_path_not_set s) ∧
  download_save server_path local_backup_root now user s
    = (Ret tt, add_box local_path_not_set s).
Proof. apply sync_without_local_path. Qed.

Lemma unconfigured_game_blocks_sync_witness :
  upload_save demo_server demo_time (Reply true false) demo_new_machine
    = (Ret tt, add_box local_path_not_set demo_new_machine) ∧
  download_save demo_server demo_backups demo_time (Reply true false)
    demo_new_machine
    = (Ret tt, add_box local_path_not_set demo_new_machine).
Proof.
  apply (unconfigured_game_blocks_sync demo_server demo_backups demo_time
           (Reply true false) demo_new_machine
           (ListItem (record_json demo_game) true) "g1" (JStr "Celeste"));
    reflexivity.
Defined.





(** * Further properties of the code *)

(** ** Computations that leave a part of the file system alone *)

Lemma preserves_weaken {A} (P Q : path → Prop) (m : py A) :
  (∀ q, Q q → P q) → preserves P m → preserves Q m.
Proof. intros HPQ Hm s r s' H q Hq. by apply (Hm s r s' H), HPQ. Qed.

Lemma preserves_ret {A} P (a : A) : preserves P (mret a : py A).
Proof. by intros s r s' [= <- <-]. Qed.

Lemma preserves_raise {A} P e : preserves P (raise e : py A).
Proof. by intros s r s' [= <- <-]. Qed.

Lemma preserves_lift {A} P (x : exn + A) : preserves P (lift x).
Proof. intros s r s' H q _. by apply lift_inv in H as [-> _]. Qed.

Lemma preserves_get_fs P : preserves P get_fs.
Proof. by intros s r s' [= <- <-]. Qed.

Lemma preserves_message_box P i title text :
  preserves P (message_box i title text).
Proof. by intros s r s' [= <- <-]. Qed.

Lemma preserves_bind {A B} P (m : py A) (k : A → py B) :
  preserves P m → (∀ a, preserves P (k a)) → preserves P (m ≫= k).
Proof.
  intros Hm Hk s r s' H q Hq.
  apply bind_inv in H as [(a & s1 & H1 & H2)|(e & H1 & _)].
  - rewrite (Hk a s1 r s' H2 q Hq). by apply (Hm s _ s1 H1).
  - by apply (Hm s _ s' H1).
Qed.

Lemma preserves_try {A} P (m : py A) : preserves P m → preserves P (try m).
Proof.
  intros Hm s r s' H. apply try_inv in H as (r0 & _ & H). by eapply Hm.
Qed.

Lemma preserves_fs_ask {A} P (f : node → exn + A) : preserves P (fs_ask f).
Proof. intros s r s' H q _. apply fs_ask_inv in H as (_ & -> & _). done. Qed.

Lemma preserves_fs_do P f :
  (∀ n n', f n = inr n' → ∀ q, P q → lookup_path q n' = lookup_path q n) →
  preserves P (fs_do f).
Proof.
  intros Hf s r s' H q Hq.
  apply fs_do_inv in H as (_ & [[_ H]|(e & _ & ->)]); [|done].
  by apply (Hf _ _ H).
Qed.

Lemma preserves_for {A} P (l : list A) (body : A → py unit) :
  (∀ x, preserves P (body x)) → preserves P (for_ l body).
Proof.
  intros Hb. induction l as [|x l IH]; simpl.
  - apply preserves_ret.
  - apply preserves_bind; [apply Hb | by intros _].
Qed.

Lemma preserves_update P p v :
  (∀ q, P q → incomparable p q) →
  ∀ n n', fs_update p v n = inr n' →
          ∀ q, P q → lookup_path q n' = lookup_path q n.
Proof.
  intros HP n n' H q Hq. apply fs_update_inr in H.
  eapply lookup_update_frame; [done|by apply HP].
Qed.

Lemma preserves_path_mkdir_parents P p :
  (∀ q, P q → ¬ q `prefix_of` p) → preserves P (path_mkdir_parents_exist_ok p).
Proof.
  intros HP. apply preserves_fs_do. intros n n' H q Hq.
  eapply fs_makedirs_frame; [done|by apply HP].
Qed.

Lemma preserves_path_mkdir P p :
  (∀ q, P q → incomparable p q) → preserves P (path_mkdir p).
Proof.
  intros HP. apply preserves_fs_do. intros n n' H q Hq.
  apply fs_mkdir_inr in H as [_ H].
  eapply lookup_update_frame; [done|by apply HP].
Qed.

Lemma preserves_os_rename P src dst :
  (∀ q, P q → incomparable src q ∧ incomparable dst q) →
  preserves P (os_rename src dst).
Proof.
  intros HP. apply preserves_fs_do. intros n n' H q Hq.
  destruct (HP q Hq). by eapply fs_rename_lookup.
Qed.

Lemma preserves_shutil_rmtree P p :
  (∀ q, P q → incomparable p q) → preserves P (shutil_rmtree p).
Proof.
  intros HP s r s' H q Hq. apply shutil_rmtree_inv in H as (_ & Hch & _).
  by apply Hch, HP.
Qed.

Lemma preserves_os_remove P p :
  (∀ q, P q → incomparable p q) → preserves P (os_remove p).
Proof.
  intros HP. apply preserves_fs_do. intros n n' H q Hq.
  apply fs_remove_inr in H.
  eapply lookup_update_frame; [done|by apply HP].
Qed.

Lemma preserves_shutil_copy2 P src dst :
  (∀ q, P q → incomparable dst q) → preserves P (shutil_copy2 src dst).
Proof.
  intros HP. apply preserves_fs_do. intros n n' H q Hq.
  unfold fs_copy2 in H. destruct (stat src n) as [|[c|]]; [done| |done].
  destruct (lookup_path dst n) as [[|]|].
  - eapply preserves_update; [apply HP|done..].
  - destruct (lookup_path (dst ++ [basename src]) n) as [[|]|]; [|done|].
    + eapply (preserves_update P (dst ++ [basename src])); [|done..].
      intros q' Hq'. by apply incomparable_app_l, HP.
    + eapply (preserves_update P (dst ++ [basename src])); [|done..].
      intros q' Hq'. by apply incomparable_app_l, HP.
  - eapply preserves_update; [apply HP|done..].
Qed.

Lemma preserves_shutil_copytree P exist_ok src dst :
  (∀ q, P q → incomparable dst q) →
  preserves P (shutil_copytree exist_ok src dst).
Proof.
  intros HP s r s' H q Hq. apply shutil_copytree_inv in H as (_ & Hch & _).
  by apply Hch, HP.
Qed.

Lemma preserves_shutil_move P src dst :
  (∀ q, P q → incomparable src q ∧ incomparable dst q) →
  preserves P (shutil_move src dst).
Proof.
  intros HP. unfold shutil_move.
  assert (∀ q, P q → incomparable src q) as HPs by (intros q Hq; by apply HP).
  assert (∀ q, P q → incomparable dst q) as HPd by (intros q Hq; by apply HP).
  apply preserves_bind; [apply preserves_get_fs|]. intros n.
  destruct (is_dir dst n && bool_decide (src = dst));
    [by apply preserves_os_rename|].
  assert (∀ q, P q →
            incomparable (if is_dir dst n then dst ++ [basename src] else dst) q)
    as HPr.
  { intros q Hq. destruct (is_dir dst n); [apply incomparable_app_l|]; auto. }
  destruct (is_dir dst n && exists_path _ n); [apply preserves_raise|].
  apply preserves_bind.
  { apply preserves_try, preserves_os_rename. intros q Hq. split; auto. }
  intros [[]|e]; [apply preserves_ret|].
  destruct (is_OSError e); [|apply preserves_raise].
  apply preserves_bind; [apply preserves_get_fs|]. intros n'.
  destruct (is_dir src n').
  - destruct (bool_decide _); [apply preserves_raise|].
    apply preserves_bind; [by apply preserves_shutil_copytree|].
    intros _. by apply preserves_shutil_rmtree.
  - apply preserves_bind; [by apply preserves_shutil_copy2|].
    intros _. by apply preserves_os_remove.
Qed.

Lemma preserves_backup_server_save P save bdest :
  (∀ q, P q → incomparable save q ∧ incomparable bdest q) →
  preserves P (backup_server_save save bdest).
Proof.
  intros HP. unfold backup_server_save.
  apply preserves_bind; [apply preserves_fs_ask|]. intros names.
  destruct (bool_decide _); [apply preserves_ret|].
  apply preserves_bind; [by apply preserves_shutil_move|].
  intros _. apply preserves_path_mkdir. intros q Hq. by apply HP.
Qed.

Lemma preserves_clear_directory_contents P p :
  (∀ q, P q → incomparable p q) → preserves P (_clear_directory_contents p).
Proof.
  intros HP s r s' H q Hq.
  apply _clear_directory_contents_inv in H as (_ & Hch & _). by apply Hch, HP.
Qed.

Lemma incomparable_not_prefix p q : incomparable p q → ¬ q `prefix_of` p.
Proof. by intros [_ ?]. Qed.

Lemma preserves_backup_local_save P lp bdest :
  (∀ q, P q → incomparable lp q ∧ incomparable bdest q) →
  preserves P (backup_local_save lp bdest).
Proof.
  intros HP. unfold backup_local_save.
  apply preserves_bind.
  { apply preserves_path_mkdir_parents. intros q Hq.
    by apply incomparable_not_prefix, HP. }
  intros _. apply preserves_bind; [apply preserves_fs_ask|]. intros names.
  destruct (bool_decide _); [apply preserves_ret|].
  apply preserves_bind.
  - apply preserves_shutil_copytree. intros q Hq. by apply HP.
  - intros _. apply preserves_clear_directory_contents. intros q Hq. by apply HP.
Qed.

Lemma preserves_show_overwrite_warning P user title text :
  preserves P (_show_overwrite_warning user title text).
Proof.
  intros s r s' H q _.
  apply show_overwrite_warning_inv in H as (go & _ & -> & _). done.
Qed.

(** ** What a synchronisation leaves alone *)

Lemma io_step_local_game_paths s s' :
  io_step s s' → local_game_paths s' = local_game_paths s.
Proof. intros ->. done. Qed.

Lemma io_step_show_overwrite_warning s s' :
  io_step s s' → show_overwrite_warning s' = show_overwrite_warning s.
Proof. intros ->. done. Qed.

Lemma io_only_backup_local_save lp bdest :
  io_only (backup_local_save lp bdest).
Proof.
  unfold backup_local_save, path_mkdir_parents_exist_ok, path_iterdir.
  apply io_only_bind; [auto with io|]. intros _.
  apply io_only_bind; [auto with io|]. intros names.
  destruct (bool_decide _); [auto with io|].
  apply io_only_bind; [auto with io|]. intros _.
  apply io_only_clear_directory_contents.
Qed.

Lemma upload_files_frame sp now gid name lp s r s' q :
  upload_files sp now (JStr gid) name lp s = (r, s') →
  incomparable (sp ++ [gid]) q →
  lookup_path q (fs s') = lookup_path q (fs s).
Proof.
  intros H Hq. unfold upload_files in H.
  apply bind_inv in H as [(gd & s0 & Hj & H)|(e & Hj & _)];
    [injection Hj as <- <- | discriminate Hj].
  revert q Hq.
  match type of H with
  | ?m s = _ => enough (preserves (incomparable (sp ++ [gid])) m) as Hp
  end.
  { intros q Hq. by apply (Hp s r s' H). }
  apply preserves_bind.
  { apply preserves_backup_server_save. intros q Hq.
    split; [apply incomparable_app_l | do 2 apply incomparable_app_l]; done. }
  intros _. apply preserves_bind.
  { apply preserves_shutil_copytree. intros q Hq. by apply incomparable_app_l. }
  intros _. apply preserves_message_box.
Qed.

Lemma download_files_frame sp lbr now gid name lp s r s' q :
  download_files sp lbr now (JStr gid) name lp s = (r, s') →
  incomparable lp q → incomparable (lbr ++ [gid; now]) q →
  lookup_path q (fs s') = lookup_path q (fs s).
Proof.
  intros H Hq1 Hq2. unfold download_files in H.
  apply bind_inv in H as [(gd & s0 & Hj & H)|(e & Hj & _)];
    [injection Hj as <- <- | discriminate Hj].
  apply bind_inv in H as [(gd & s0 & Hj & H)|(e & Hj & _)];
    [injection Hj as <- <- | discriminate Hj].
  rewrite <-!app_assoc in H. simpl app in H.
  revert q Hq1 Hq2.
  match type of H with
  | ?m s = _ =>
      enough (preserves (λ q, incomparable lp q ∧
                              incomparable (lbr ++ [gid; now]) q) m) as Hp
  end.
  { intros q Hq1 Hq2. by apply (Hp s r s' H). }
  apply preserves_bind; [by apply preserves_backup_local_save|].
  intros _. apply preserves_bind.
  { apply preserves_shutil_copytree. by intros q [? _]. }
  intros _. apply preserves_message_box.
Qed.

(** X1. An upload, however it ends, changes nothing outside the server
    directory of the selected game: the manifest, the other games and the
    local save directory are as before; the local path map is unchanged
    too.  This is for a game whose identifier is a single path component,
    as the identifiers that the application issues are: an identifier
    such as [../x] in the manifest names a directory elsewhere. *)
Theorem upload_changes_only_the_game_directory (server_path : path)
    (now : string) (user : reply) (s : state) (r : result unit) (s' : state)
    (item : QListWidgetItem) (gid : string) :
  selected s ≫= (λ i, game_list_widget s !! i) = Some item →
  py_getitem "id" (item_data item) = inr (JStr gid) →
  plain_name gid = true →
  upload_save server_path now user s = (r, s') →
  changes_only (server_path ++ [gid]) (fs s) (fs s') ∧
  local_game_paths s' = local_game_paths s.
Proof.
  intros Hsel Hid _ H.
  assert (get_selected_game_item s = (Ret (Some item), s)) as H1.
  { unfold get_selected_game_item. by rewrite Hsel. }
  unfold upload_save in H. rewrite (bind_Ret _ _ _ _ _ H1) in H.
  rewrite (bind_Ret _ _ _ _ _ (lift_inr _ _ _ Hid)) in H.
  apply bind_inv in H as [(name & s0 & Hn & H)|(e & Hn & _)];
    apply lift_inv in Hn as [-> Hn]; [|split; [apply changes_only_refl|done]].
  unfold paths_get in H at 1.
  apply bind_inv in H as [(lp & s0 & Hp & H)|(e & Hp & _)];
    [injection Hp as <- <- | discriminate Hp].
  destruct (local_game_paths s !! gid) as [[|x lp]|];
    [injection H as <- <-; split; [apply changes_only_refl|done]|
    |injection H as <- <-; split; [apply changes_only_refl|done]].
  apply bind_inv in H as [(go & s0 & Hw & H)|(e & Hw & _)];
    apply show_overwrite_warning_inv in Hw as (go' & Hgo & Hfs0 & _ & Hl0 & _);
    [|done].
  injection Hgo as ->. rewrite <-Hfs0, <-Hl0.
  destruct go'; simpl in H;
    [|injection H as <- <-; split; [apply changes_only_refl|done]].
  apply bind_inv in H as [(r1 & s1 & Ht & H)|(e & Ht & _)];
    [|by apply try_inv in Ht as (? & ? & _)].
  apply try_inv in Ht as (r1' & [= ->] & Hup).
  assert (fs s' = fs s1 ∧ local_game_paths s' = local_game_paths s1) as [-> ->].
  { destruct r1'; by injection H as <- <-. }
  split.
  - intros q Hq. by eapply upload_files_frame.
  - apply upload_files_inv in Hup. destruct r1' as [[]|e].
    + destruct Hup as (sa & sb & Hbk & Hcp & ->). simpl.
      apply io_only_backup_server_save in Hbk.
      apply io_only_shutil_copytree in Hcp.
      by rewrite (io_step_local_game_paths _ _ Hcp),
        (io_step_local_game_paths _ _ Hbk).
    + by apply io_step_local_game_paths.
Qed.

Lemma upload_changes_only_the_game_directory_witness :
  let s' := (upload_save demo_server demo_time (Reply true false)
               demo_synced).2 in
  lookup_path demo_local (fs s') = lookup_path demo_local (fs demo_synced) ∧
  lookup_path (games_json_path demo_server) (fs s')
    = lookup_path (games_json_path demo_server) (fs demo_synced) ∧
  local_game_paths s' = local_game_paths demo_synced.
Proof.
  intros s'.
  destruct (upload_changes_only_the_game_directory demo_server demo_time
              (Reply true false) demo_synced
              (upload_save demo_server demo_time (Reply true false)
                 demo_synced).1
              s' (ListItem (record_json demo_game) false) "g1")
    as [Hframe Hpaths].
  - reflexivity.
  - reflexivity.
  - reflexivity.
  - apply surjective_pairing.
  - split_and!; [apply Hframe|apply Hframe|exact Hpaths];
      apply (bool_decide_unpack _); vm_compute; exact I.
Defined.

(** X2. A download, however it ends, changes nothing outside the local
    save directory of the selected game and its time-stamped backup
    folder - in particular nothing on the server, these two lying
    elsewhere.  The local path map is unchanged too.  This is for a game
    whose identifier is a single path component, as the identifiers that
    the application issues are. *)
Theorem download_changes_only_local_and_backup
    (server_path local_backup_root : path) (now : string) (user : reply)
    (s : state) (r : result unit) (s' : state) (item : QListWidgetItem)
    (gid : string) (lp : path) :
  selected s ≫= (λ i, game_list_widget s !! i) = Some item →
  py_getitem "id" (item_data item) = inr (JStr gid) →
  plain_name gid = true →
  local_game_paths s !! gid = Some lp →
  download_save server_path local_backup_root now user s = (r, s') →
  (∀ q, incomparable lp q →
        incomparable (local_backup_root ++ [gid; now]) q →
        lookup_path q (fs s') = lookup_path q (fs s)) ∧
  local_game_paths s' = local_game_paths s.
Proof.
  intros Hsel Hid _ Hpath H.
  assert (get_selected_game_item s = (Ret (Some item), s)) as H1.
  { unfold get_selected_game_item. by rewrite Hsel. }
  assert (paths_get (JStr gid) s = (Ret (Some lp), s)) as H2.
  { unfold paths_get. by rewrite Hpath. }
  unfold download_save in H. rewrite (bind_Ret _ _ _ _ _ H1) in H.
  rewrite (bind_Ret _ _ _ _ _ (lift_inr _ _ _ Hid)) in H.
  apply bind_inv in H as [(name & s0 & Hn & H)|(e & Hn & _)];
    apply lift_inv in Hn as [-> Hn]; [|done].
  rewrite (bind_Ret _ _ _ _ _ H2) in H.
  destruct lp as [|x lp]; [by injection H as <- <-|].
  apply bind_inv in H as [(go & s0 & Hw & H)|(e & Hw & _)];
    apply show_overwrite_warning_inv in Hw as (go' & Hgo & Hfs0 & _ & Hl0 & _);
    [|done].
  injection Hgo as ->. rewrite <-Hfs0, <-Hl0.
  destruct go'; simpl in H; [|by injection H as <- <-].
  apply bind_inv in H as [(r1 & s1 & Ht & H)|(e & Ht & _)];
    [|by apply try_inv in Ht as (? & ? & _)].
  apply try_inv in Ht as (r1' & [= ->] & Hdl).
  assert (fs s' = fs s1 ∧ local_game_paths s' = local_game_paths s1) as [-> ->].
  { destruct r1'; by injection H as <- <-. }
  split.
  - intros q Hq1 Hq2. by eapply download_files_frame.
  - apply download_files_inv in Hdl as (ra & sa & Hbk & Hrest).
    apply io_only_backup_local_save, io_step_local_game_paths in Hbk.
    destruct ra as [[]|e]; [|by destruct Hrest as [_ ->]].
    destruct Hrest as (rb & sb & Hcp & Hrest).
    apply io_only_shutil_copytree, io_step_local_game_paths in Hcp.
    destruct rb; destruct Hrest as [_ ->]; simpl; congruence.
Qed.

Lemma download_changes_only_local_and_backup_witness :
  let s' := (download_save demo_server demo_backups demo_time
               (Reply true false) demo_synced).2 in
  lookup_path demo_server (fs s') = lookup_path demo_server (fs demo_synced) ∧
  local_game_paths s' = local_game_paths demo_synced.
Proof.
  intros s'.
  destruct (download_changes_only_local_and_backup demo_server demo_backups
              demo_time (Reply true false) demo_synced
              (download_save demo_server demo_backups demo_time
                 (Reply true false) demo_synced).1
              s' (ListItem (record_json demo_game) false) "g1" demo_local)
    as [Hframe Hpaths].
  - reflexivity.
  - reflexivity.
  - reflexivity.
  - reflexivity.
  - apply surjective_pairing.
  - split; [apply Hframe|exact Hpaths];
      apply (bool_decide_unpack _); vm_compute; exact I.
Defined.

(** ** The confirmation dialog *)

Lemma sync_configured_start sp lbr now user s item gid name (lp : path) :
  selected s ≫= (λ i, game_list_widget s !! i) = Some item →
  py_getitem "id" (item_data item) = inr (JStr gid) →
  py_getitem "name" (item_data item) = inr name →
  local_game_paths s !! gid = Some lp → lp ≠ [] →
  upload_save sp now user s
  = (go ← _show_overwrite_warning user "Confirm Upload" (box_text (confirm_upload name));
     if negb go then mret tt
     else r ← try (upload_files sp now (JStr gid) name lp);
          match r with
          | Raise e => critical "Upload Failed" [Lit "An error occurred: "; Exc e]
          | Ret _ => mret tt
          end) s ∧
  download_save sp lbr now user s
  = (go ← _show_overwrite_warning user "Confirm Download" (box_text (confirm_download name));
     if negb go then mret tt
     else r ← try (download_files sp lbr now (JStr gid) name lp);
          match r with
          | Raise e => critical "Download Failed" [Lit "An error occurred: "; Exc e]
          | Ret _ => mret tt
          end) s.
Proof.
  intros Hsel Hid Hname Hpath Hlp.
  assert (get_selected_game_item s = (Ret (Some item), s)) as H1.
  { unfold get_selected_game_item. by rewrite Hsel. }
  assert (paths_get (JStr gid) s = (Ret (Some lp), s)) as H2.
  { unfold paths_get. by rewrite Hpath. }
  unfold upload_save, download_save.
  rewrite !(bind_Ret _ _ _ _ _ H1).
  rewrite !(bind_Ret _ _ _ _ _ (lift_inr _ _ _ Hid)).
  rewrite !(bind_Ret _ _ _ _ _ (lift_inr _ _ _ Hname)).
  rewrite !(bind_Ret _ _ _ _ _ H2). by destruct lp.
Qed.

(** X3. When the user answers the confirmation dialog of an upload or a
    download with Cancel, nothing is read or written: the handler returns
    with the file system and the fault schedule as they were, having shown
    the confirmation only. *)
Theorem cancelled_sync_changes_nothing (server_path local_backup_root : path)
    (now : string) (user : reply) (s : state) (item : QListWidgetItem)
    (gid : string) (name : json) (lp : path) :
  selected s ≫= (λ i, game_list_widget s !! i) = Some item →
  py_getitem "id" (item_data item) = inr (JStr gid) →
  py_getitem "name" (item_data item) = inr name →
  local_game_paths s !! gid = Some lp → lp ≠ [] →
  show_overwrite_warning s = true →
  clicked_ok user = false →
  ∃ s1 s2,
    upload_save server_path now user s = (Ret tt, s1) ∧
    download_save server_path local_backup_root now user s = (Ret tt, s2) ∧
    fs s1 = fs s ∧ faults s1 = faults s ∧
    shown s1 = shown s ++ [confirm_upload name] ∧
    fs s2 = fs s ∧ faults s2 = faults s ∧
    shown s2 = shown s ++ [confirm_download name].
Proof.
  intros Hsel Hid Hname Hpath Hlp Hshow Hno.
  destruct (sync_configured_start server_path local_backup_root now user s
              item gid name lp Hsel Hid Hname Hpath Hlp) as [-> ->].
  unfold mbind, py_bind, _show_overwrite_warning. rewrite Hshow, Hno. simpl.
  eexists _, _. split_and!; try done; by destruct (dont_show_again user).
Qed.

Lemma cancelled_sync_changes_nothing_witness :
  ∃ s1 s2,
    upload_save demo_server demo_time (Reply false false) demo_synced
      = (Ret tt, s1) ∧
    download_save demo_server demo_backups demo_time (Reply false false)
      demo_synced = (Ret tt, s2) ∧
    fs s1 = fs demo_synced ∧ faults s1 = faults demo_synced ∧
    shown s1 = shown demo_synced ++ [confirm_upload (JStr "Celeste")] ∧
    fs s2 = fs demo_synced ∧ faults s2 = faults demo_synced ∧
    shown s2 = shown demo_synced ++ [confirm_download (JStr "Celeste")].
Proof.
  apply (cancelled_sync_changes_nothing demo_server demo_backups demo_time
           (Reply false false) demo_synced
           (ListItem (record_json demo_game) false) "g1" (JStr "Celeste")
           demo_local); try reflexivity.
  discriminate.
Defined.

(** X4. The box "Don't show this warning again" takes effect whatever the
    button: once it was ticked in the confirmation of an upload, also of
    one that the user cancelled, the preference is off, and from then on
    uploads and downloads run without asking - their result does not depend
    on what the user would have answered. *)
Theorem dont_show_again_skips_confirmation
    (server_path local_backup_root : path) (now : string) (user : reply)
    (s : state) (r : result unit) (s' : state) (item : QListWidgetItem)
    (gid : string) (name : json) (lp : path) :
  selected s ≫= (λ i, game_list_widget s !! i) = Some item →
  py_getitem "id" (item_data item) = inr (JStr gid) →
  py_getitem "name" (item_data item) = inr name →
  local_game_paths s !! gid = Some lp → lp ≠ [] →
  show_overwrite_warning s = true →
  dont_show_again user = true →
  upload_save server_path now user s = (r, s') →
  show_overwrite_warning s' = false ∧
  ∀ t now' user1 user2,
    show_overwrite_warning t = false →
    upload_save server_path now' user1 t
      = upload_save server_path now' user2 t ∧
    download_save server_path local_backup_root now' user1 t
      = download_save server_path local_backup_root now' user2 t.
Proof.
  intros Hsel Hid Hname Hpath Hlp Hshow Htick H. split.
  - destruct (sync_configured_start server_path local_backup_root now user s
                item gid name lp Hsel Hid Hname Hpath Hlp) as [Hup _].
    rewrite Hup in H. clear Hup.
    apply bind_inv in H as [(go & s0 & Hw & H)|(e & Hw & _)].
    2: { unfold _show_overwrite_warning in Hw. by destruct (negb _). }
    assert (show_overwrite_warning s0 = false) as H0.
    { unfold _show_overwrite_warning in Hw. rewrite Hshow, Htick in Hw.
      by injection Hw as _ <-. }
    destruct go; simpl in H; [|by injection H as _ <-].
    apply bind_inv in H as [(r1 & s1 & Ht & H)|(e & Ht & _)];
      [|by apply try_inv in Ht as (? & ? & _)].
    apply try_inv in Ht as (r1' & [= ->] & Hf).
    apply upload_files_inv in Hf. destruct r1' as [[]|e].
    + injection H as _ <-. destruct Hf as (sa & sb & Hbk & Hcp & ->). simpl.
      apply io_only_backup_server_save, io_step_show_overwrite_warning in Hbk.
      apply io_only_shutil_copytree, io_step_show_overwrite_warning in Hcp.
      congruence.
    + injection H as _ <-. simpl.
      apply io_step_show_overwrite_warning in Hf. congruence.
  - intros t now' user1 user2 Ht.
    unfold upload_save, download_save, mbind, py_bind, get_selected_game_item.
    destruct (selected t ≫= _) as [it|]; [|done].
    destruct (lift (py_getitem "id" (item_data it)) t) as [[gi|] t1] eqn:E1;
      [|done].
    apply lift_inv in E1 as [-> _].
    destruct (lift (py_getitem "name" (item_data it)) t) as [[gn|] t1] eqn:E2;
      [|done].
    apply lift_inv in E2 as [-> _].
    destruct (paths_get gi t) as [[[[|y l]|]|] t1] eqn:E3; try done.
    assert (t1 = t) as ->.
    { unfold paths_get in E3. destruct gi; by injection E3. }
    unfold _show_overwrite_warning. by rewrite Ht.
Qed.

Lemma dont_show_again_skips_confirmation_witness :
  let s' := (upload_save demo_server demo_time (Reply false true)
               demo_synced).2 in
  show_overwrite_warning s' = false ∧
  upload_save demo_server demo_time (Reply false false) s'
    = upload_save demo_server demo_time (Reply true false) s' ∧
  download_save demo_server demo_backups demo_time (Reply false false) s'
    = download_save demo_server demo_backups demo_time (Reply true false) s'.
Proof.
  intros s'.
  destruct (dont_show_again_skips_confirmation demo_server demo_backups
              demo_time (Reply false true) demo_synced
              (upload_save demo_server demo_time (Reply false true)
                 demo_synced).1
              s' (ListItem (record_json demo_game) false) "g1"
              (JStr "Celeste") demo_local) as [Hoff Hlater].
  - reflexivity.
  - reflexivity.
  - reflexivity.
  - reflexivity.
  - discriminate.
  - reflexivity.
  - reflexivity.
  - apply surjective_pairing.
  - split; [exact Hoff|].
    exact (Hlater s' demo_time (Reply false false) (Reply true false) Hoff).
Defined.

(** ** Runs without I/O faults *)

Lemma fs_makedirs_ok p n :
  no_file_on_the_way p n = true → ∃ n', fs_makedirs p n = inr n'.
Proof.
  revert n. induction p as [|x p IH]; intros n Hn.
  - destruct n as [c|es]; [done|]. by eexists.
  - destruct n as [c|es]; [done|]. simpl in *.
    destruct (assoc_get x es) as [ch|]; simpl.
    + destruct (IH ch Hn) as [n' ->]. by eexists.
    + destruct (fs_makedirs_empty p) as [n' ->]. by eexists.
Qed.

Lemma copy_entries_no_fault rec es d :
  Forall (λ e, ∀ sub, e.2 = Dir sub →
               rec e.2 None [] = (Some e.2, true, [])) es →
  NoDup (d ++ es).*1 →
  copy_entries rec es d [] = (d ++ es, true, []).
Proof.
  intros Hrec. revert d. induction Hrec as [|[x c] es Hc _ IH];
    intros d Hnd; simpl.
  - by rewrite app_nil_r.
  - assert (assoc_get x d = None) as Hx.
    { apply assoc_get_None. rewrite fmap_app in Hnd.
      apply NoDup_app in Hnd as (_ & Hnd & _). intros Hin.
      apply (Hnd x Hin). simpl. left. }
    assert (NoDup ((d ++ [(x, c)]) ++ es).*1) as Hnd'.
    { by rewrite <-app_assoc. }
    destruct c as [data|sub].
    + unfold copy2_entry. rewrite Hx, (assoc_set_fresh _ _ _ Hx).
      rewrite (IH _ Hnd'). by rewrite <-app_assoc.
    + pose proof (Hc sub eq_refl) as Hr. simpl in Hr. rewrite Hx, Hr. simpl.
      rewrite (assoc_set_fresh _ _ _ Hx), (IH _ Hnd'). by rewrite <-app_assoc.
Qed.

Lemma copytree_into_no_fault exist_ok src :
  wf_node src = true →
  ∀ es dst, src = Dir es → dst_entries exist_ok dst = Some [] →
  copytree_into exist_ok src dst [] = (Some src, true, []).
Proof.
  induction src as [c|es IH] using node_ind'; intros Hwf es' dst E Hdst;
    [done|]. clear es' E. simpl. rewrite Hdst.
  apply wf_node_Dir in Hwf as [Hnd Hall].
  rewrite copy_entries_no_fault; [done| |done].
  rewrite Forall_forall in IH, Hall. apply Forall_forall.
  intros e He sub Hsub. by eapply (IH e He); [apply Hall| |].
Qed.

Lemma lookup_path_parent p x n c :
  lookup_path (p ++ [x]) n = Some c →
  ∃ es, lookup_path p n = Some (Dir es) ∧ assoc_get x es = Some c.
Proof.
  rewrite lookup_path_snoc. destruct (lookup_path p n) as [[|es]|]; try done.
  intros H. by exists es.
Qed.

(** Copying a directory onto an empty or a new directory whose parent
    exists. *)
Lemma shutil_copytree_no_fault exist_ok src dst s es ps :
  faults s = [] →
  lookup_path src (fs s) = Some (Dir es) → wf_node (Dir es) = true →
  dst ≠ [] →
  lookup_path (removelast dst) (fs s) = Some (Dir ps) →
  dst_entries exist_ok (lookup_path dst (fs s)) = Some [] →
  ∃ s', shutil_copytree exist_ok src dst s = (Ret tt, s') ∧
        faults s' = [] ∧ io_step s s' ∧
        update_path dst (Some (Dir es)) (fs s) = Some (fs s').
Proof.
  intros Hf Hsrc Hwf Hne Hpar Hdst.
  assert (is_Some (update_path dst (Some (Dir es)) (fs s))) as [n2 Hn2].
  { rewrite (app_removelast_last EmptyString Hne).
    by eapply update_path_new_is_Some. }
  unfold shutil_copytree, stat.
  rewrite Hsrc, (fs_makedirs_exists _ _ _ Hpar), Hf.
  rewrite (copytree_into_no_fault exist_ok (Dir es) Hwf es _ eq_refl Hdst).
  rewrite Hn2. eexists. split; [done|]. split_and!; [done| |done].
  unfold io_step. destruct s. simpl in *. by subst.
Qed.

Lemma clear_loop_no_fault p names :
  NoDup names →
  ∀ s es, faults s = [] → lookup_path p (fs s) = Some (Dir es) →
          names ⊆ es.*1 →
          ∃ s', for_ names (λ name, remove_item (p ++ [name])) s = (Ret tt, s') ∧
                faults s' = [].
Proof.
  induction 1 as [|x names Hx Hnd IH]; intros s es Hf Hp Hsub; simpl.
  - by exists s.
  - assert (x ∈ es.*1) as Hin by (apply Hsub; left).
    destruct (assoc_get x es) as [c|] eqn:Hc;
      [|by apply assoc_get_None in Hc].
    assert (lookup_path (p ++ [x]) (fs s) = Some c) as Hpx.
    { by rewrite lookup_path_snoc, Hp. }
    destruct (update_path_new_is_Some p x None _ _ Hp) as [n1 Hn1].
    assert (remove_item (p ++ [x]) s = (Ret tt, set_fs n1 s)) as Hrm.
    { unfold remove_item, path_is_dir, shutil_rmtree, os_remove.
      erewrite bind_Ret; [|by rewrite fs_ask_no_fault]. simpl.
      unfold is_dir. rewrite Hpx. destruct c.
      - rewrite fs_do_no_fault by done. unfold fs_remove, stat, fs_update.
        by rewrite Hpx, Hn1.
      - rewrite fs_do_no_fault by done. unfold fs_rmtree, stat, fs_update.
        by rewrite Hpx, Hn1. }
    erewrite bind_Ret; [|exact Hrm].
    apply (IH (set_fs n1 s) (assoc_del x es)); [done| |].
    + simpl. by rewrite (lookup_update_parent _ _ _ _ _ _ Hn1 Hp).
    + intros y Hy. assert (y ∈ es.*1) as Hy' by (apply Hsub; by right).
      unfold assoc_del. apply list_elem_of_fmap in Hy' as ([k v] & -> & Hkv).
      apply list_elem_of_fmap. exists (k, v). split; [done|].
      apply list_elem_of_filter. split; [|done]. simpl. intros ->. done.
Qed.

Lemma clear_directory_contents_no_fault p s es :
  faults s = [] → lookup_path p (fs s) = Some (Dir es) → NoDup es.*1 →
  ∃ s', _clear_directory_contents p s = (Ret tt, s') ∧ faults s' = [] ∧
        io_step s s' ∧ changes_only p (fs s) (fs s') ∧
        lookup_path p (fs s') = Some (Dir []).
Proof.
  intros Hf Hp Hnd.
  destruct (clear_loop_no_fault p es.*1 Hnd s es Hf Hp) as (s' & Hrun & Hf');
    [done|].
  assert (_clear_directory_contents p s = (Ret tt, s')) as H.
  { unfold _clear_directory_contents, path_is_dir, path_iterdir.
    erewrite bind_Ret; [|by rewrite fs_ask_no_fault]. unfold is_dir.
    rewrite Hp. simpl.
    erewrite bind_Ret; [exact Hrun|]. rewrite fs_ask_no_fault by done.
    unfold fs_listdir, stat. by rewrite Hp. }
  exists s'. split; [done|]. split; [done|].
  apply _clear_directory_contents_inv in H as (Hio & Hch & Hres).
  split_and!; [done|done|by apply (Hres eq_refl es)].
Qed.

Lemma show_overwrite_warning_ok user title text s :
  clicked_ok user = true →
  ∃ s0, _show_overwrite_warning user title text s = (Ret true, s0) ∧
        fs s0 = fs s ∧ faults s0 = faults s ∧
        local_game_paths s0 = local_game_paths s.
Proof.
  intros Hok. unfold _show_overwrite_warning.
  destruct (show_overwrite_warning s); simpl.
  - rewrite Hok. eexists. split; [done|]. by destruct (dont_show_again user).
  - by eexists.
Qed.

Lemma fs_ask_ok {A} (f : node → exn + A) s a :
  faults s = [] → f (fs s) = inr a → fs_ask f s = (Ret a, s).
Proof. intros Hf Ha. by rewrite fs_ask_no_fault, Ha. Qed.

Lemma fs_do_ok f s n :
  faults s = [] → f (fs s) = inr n → fs_do f s = (Ret tt, set_fs n s).
Proof. intros Hf Hn. by rewrite fs_do_no_fault, Hn. Qed.

Lemma upload_files_empty_server sp now gid name (lp : path) s les :
  faults s = [] →
  lookup_path (sp ++ [gid; "save_data"]) (fs s) = Some (Dir []) →
  lookup_path lp (fs s) = Some (Dir les) → wf_node (Dir les) = true →
  ∃ sb, upload_files sp now (JStr gid) name lp s
          = (Ret tt, add_box (upload_complete name) sb) ∧
        io_step s sb ∧
        update_path (sp ++ [gid; "save_data"]) (Some (Dir les)) (fs s)
          = Some (fs sb).
Proof.
  intros Hf Hsave Hlp Hwf. unfold upload_files.
  erewrite bind_Ret; [|reflexivity].
  change [gid; "save_data"] with ([gid] ++ ["save_data"]) in *.
  rewrite app_assoc in *.
  assert (backup_server_save ((sp ++ [gid]) ++ ["save_data"])
            (((sp ++ [gid]) ++ ["backup"]) ++ [now]) s = (Ret tt, s)) as Hbk.
  { unfold backup_server_save, path_iterdir.
    erewrite bind_Ret;
      [|apply fs_ask_ok; [done|]; unfold fs_listdir, stat; by rewrite Hsave].
    done. }
  erewrite bind_Ret; [|exact Hbk].
  destruct (lookup_path_parent _ _ _ _ Hsave) as (ps & Hpar & _).
  destruct (shutil_copytree_no_fault true lp ((sp ++ [gid]) ++ ["save_data"])
              s les ps) as (sb & Hcp & _ & Hio & Hup); try done.
  { by destruct (sp ++ [gid]). }
  { by rewrite removelast_last. }
  { by rewrite Hsave. }
  erewrite bind_Ret; [|exact Hcp]. by exists sb.
Qed.

Lemma upload_save_first (server_path : path)
    (now : string) (user : reply) (s : state) (item : QListWidgetItem)
    (gid : string) (name : json) (lp : path) (les : list (string * node)) :
  selected s ≫= (λ i, game_list_widget s !! i) = Some item →
  py_getitem "id" (item_data item) = inr (JStr gid) →
  py_getitem "name" (item_data item) = inr name →
  local_game_paths s !! gid = Some lp →
  clicked_ok user = true →
  faults s = [] →
  let save := server_path ++ [gid; "save_data"] in
  lookup_path save (fs s) = Some (Dir []) →
  lookup_path lp (fs s) = Some (Dir les) → wf_node (Dir les) = true →
  incomparable lp save →
  ∃ s', upload_save server_path now user s = (Ret tt, s') ∧
        last (shown s') = Some (upload_complete name) ∧
        lookup_path save (fs s') = Some (Dir les) ∧
        changes_only save (fs s) (fs s').
Proof.
  intros Hsel Hid Hname Hpath Hok Hf save Hsave Hlp Hwf Hinc.
  assert (lp ≠ []) as Hne.
  { intros ->. destruct Hinc as [[] _]. apply prefix_nil. }
  destruct (sync_configured_start server_path [] now user s item gid name lp
              Hsel Hid Hname Hpath Hne) as [-> _].
  destruct (show_overwrite_warning_ok user "Confirm Upload"
              (box_text (confirm_upload name)) s Hok)
    as (s0 & Hw & Hfs0 & Hf0 & _).
  erewrite bind_Ret; [|exact Hw].
  rewrite <-Hfs0 in Hsave, Hlp. rewrite <-Hf0 in Hf.
  destruct (upload_files_empty_server server_path now gid name lp s0 les
              Hf Hsave Hlp Hwf) as (sb & Hup & Hio & Hres).
  exists (add_box (upload_complete name) sb). split_and!.
  - cbn [negb]. erewrite bind_Ret; [|unfold try; by rewrite Hup]. done.
  - simpl. by rewrite last_snoc.
  - simpl. by eapply lookup_update_eq.
  - simpl. rewrite <-Hfs0. by eapply changes_only_update.
Qed.



(** The backup step of a download when nothing fails. *)
Lemma backup_local_save_no_fault (lp bdest : path) s les :
  faults s = [] →
  lookup_path lp (fs s) = Some (Dir les) → wf_node (Dir les) = true →
  lookup_path bdest (fs s) = None → no_file_on_the_way bdest (fs s) = true →
  incomparable lp bdest →
  ∃ s', backup_local_save lp bdest s = (Ret tt, s') ∧ faults s' = [] ∧
        io_step s s' ∧
        lookup_path lp (fs s') = Some (Dir []) ∧
        lookup_path bdest (fs s') = Some (Dir les) ∧
        ∀ q, incomparable lp q → incomparable bdest q →
             lookup_path q (fs s') = lookup_path q (fs s).
Proof.
  intros Hf Hlp Hwf Hb Hway Hlb.
  (* the backup folder is created *)
  destruct (fs_makedirs_ok _ _ Hway) as [n1 Hn1].
  pose proof (fs_makedirs_lookup _ _ _ Hn1) as Hb1. rewrite Hb in Hb1.
  simpl in Hb1.
  assert (∀ q, incomparable bdest q → lookup_path q n1 = lookup_path q (fs s))
    as Hfr1.
  { intros q Hq. apply (fs_makedirs_frame _ _ _ q Hn1). by destruct Hq. }
  assert (lookup_path lp n1 = Some (Dir les)) as Hlp1.
  { rewrite Hfr1; [done|by apply incomparable_sym]. }
  assert (backup_local_save lp bdest s
          = (names ← path_iterdir lp;
             if bool_decide (names = []) then mret tt
             else shutil_copytree true lp bdest;;
                  _clear_directory_contents lp) (set_fs n1 s)) as ->.
  { unfold backup_local_save, path_mkdir_parents_exist_ok.
    erewrite bind_Ret; [|by apply fs_do_ok]. done. }
  erewrite bind_Ret;
    [|apply fs_ask_ok; [done|]; unfold fs_listdir, stat; simpl;
      by rewrite Hlp1].
  destruct les as [|e les'].
  { exists (set_fs n1 s). simpl. split_and!; try done.
    intros q _ Hq. by apply Hfr1. }
  rewrite bool_decide_eq_false_2 by done. set (les := e :: les') in *.
  (* the local save is copied into it *)
  assert (bdest ≠ []) as Hbne.
  { intros ->. destruct Hlb as [_ []]. apply prefix_nil. }
  assert (∃ ps, lookup_path (removelast bdest) n1 = Some (Dir ps)) as [ps Hpar].
  { rewrite (app_removelast_last EmptyString Hbne) in Hb1.
    apply lookup_path_parent in Hb1 as (ps & ? & _). by exists ps. }
  destruct (shutil_copytree_no_fault true lp bdest (set_fs n1 s) les ps)
    as (s2 & Hcp & Hf2 & Hio2 & Hup2); try done.
  { simpl. by rewrite Hb1. }
  simpl in Hup2.
  assert (lookup_path lp (fs s2) = Some (Dir les)) as Hlp2.
  { rewrite (lookup_update_frame _ _ _ _ lp Hup2); [done|].
    by apply incomparable_sym. }
  (* the local directory is cleared *)
  apply wf_node_Dir in Hwf as Hnd. destruct Hnd as [Hnd _].
  destruct (clear_directory_contents_no_fault lp s2 les Hf2 Hlp2 Hnd)
    as (s3 & Hcl & Hf3 & Hio3 & Hch3 & Hlp3).
  exists s3. split_and!; try done.
  - erewrite bind_Ret; [|exact Hcp]. exact Hcl.
  - eapply io_step_trans; [|done]. eapply io_step_trans; [|done]. auto.
  - rewrite (Hch3 bdest) by done. by eapply lookup_update_eq.
  - intros q Hq1 Hq2. rewrite (Hch3 q) by done.
    rewrite (lookup_update_frame _ _ _ _ q Hup2) by done. by apply Hfr1.
Qed.

Lemma download_files_missing_save sp lbr now gid name (lp : path) s les :
  faults s = [] →
  let save := sp ++ [gid; "save_data"] in
  let bdest := lbr ++ [gid; now] in
  lookup_path lp (fs s) = Some (Dir les) →
  wf_node (Dir les) = true →
  lookup_path save (fs s) = None →
  lookup_path bdest (fs s) = None → no_file_on_the_way bdest (fs s) = true →
  incomparable lp bdest → incomparable save lp → incomparable save bdest →
  ∃ e s', download_files sp lbr now (JStr gid) name lp s = (Raise e, s') ∧
          io_step s s' ∧
          lookup_path lp (fs s') = Some (Dir []) ∧
          lookup_path bdest (fs s') = Some (Dir les).
Proof.
  intros Hf save bdest Hlp Hwf Hsave Hb Hway Hlb Hsl Hsb.
  destruct (backup_local_save_no_fault lp bdest s les Hf Hlp Hwf Hb Hway Hlb)
    as (s3 & Hbk & Hf3 & Hio3 & Hlp3 & Hb3 & Hfr3).
  assert (lookup_path save (fs s3) = None) as Hsave3.
  { rewrite Hfr3; [done|by apply incomparable_sym..]. }
  exists (path_error save (fs s3)), s3. split_and!; try done.
  unfold download_files.
  erewrite bind_Ret; [|reflexivity]. erewrite bind_Ret; [|reflexivity].
  rewrite <-!app_assoc. simpl app. fold save bdest.
  erewrite bind_Ret; [|exact Hbk].
  erewrite bind_Raise; [done|]. unfold shutil_copytree, stat.
  by rewrite Hsave3.
Qed.



(** ** Registration without I/O faults *)

Lemma fs_makedirs_new_update p x r n es :
  lookup_path p n = Some (Dir es) → assoc_get x es = None →
  ∃ c n', fs_makedirs r (Dir []) = inr c ∧
          fs_makedirs (p ++ x :: r) n = inr n' ∧
          update_path (p ++ [x]) (Some c) n = Some n'.
Proof.
  revert n. induction p as [|y p IH]; intros n H Hx; simpl in *.
  - injection H as ->. rewrite Hx. simpl.
    destruct (fs_makedirs_empty r) as [c Hc]. rewrite Hc. by eexists _, _.
  - destruct n as [c|es']; [done|].
    destruct (assoc_get y es') as [ch|] eqn:Hy; [|done]. simpl.
    destruct (IH ch H Hx) as (c & n' & Hc & -> & Hup).
    destruct (p ++ [x]) as [|z q] eqn:E; [by destruct p|].
    exists c, (Dir (assoc_set y n' es')). by rewrite Hup.
Qed.

Lemma create_directories_no_fault dir s :
  faults s = [] → dir ≠ [] →
  (∃ es, lookup_path (removelast dir) (fs s) = Some (Dir es)) →
  lookup_path dir (fs s) = None →
  ∃ s', (path_mkdir_parents_exist_ok (dir ++ ["save_data"]);;
         path_mkdir_parents_exist_ok (dir ++ ["backup"])) s = (Ret tt, s') ∧
        faults s' = [] ∧
        lookup_path dir (fs s')
          = Some (Dir [("save_data", Dir []); ("backup", Dir [])]).
Proof.
  intros Hf Hne [es Hpar] Hfree.
  assert (assoc_get (List.last dir EmptyString) es = None) as Hx.
  { rewrite (app_removelast_last EmptyString Hne), lookup_path_snoc, Hpar
      in Hfree. done. }
  destruct (fs_makedirs_new_update _ _ ["save_data"] _ _ Hpar Hx)
    as (c & n1 & Hc & Hmk1 & Hup1).
  injection Hc as <-.
  rewrite <-(app_removelast_last EmptyString Hne) in Hup1.
  change (removelast dir ++ [List.last dir EmptyString; "save_data"])
    with (removelast dir ++ [List.last dir EmptyString] ++ ["save_data"])
    in Hmk1.
  rewrite app_assoc, <-(app_removelast_last EmptyString Hne) in Hmk1.
  pose proof (lookup_update_eq _ _ _ _ Hup1) as Hdir1.
  destruct (fs_makedirs_new_update dir "backup" [] n1 _ Hdir1 eq_refl)
    as (c & n2 & Hc & Hmk2 & Hup2).
  injection Hc as <-.
  exists (set_fs n2 (set_fs n1 s)). split_and!.
  - unfold path_mkdir_parents_exist_ok.
    erewrite bind_Ret; [|by apply fs_do_ok]. by apply fs_do_ok.
  - done.
  - simpl. by rewrite (lookup_update_parent _ _ _ _ _ _ Hup2 Hdir1).
Qed.

Lemma write_games_json_no_fault sp doc s c :
  faults s = [] →
  lookup_path (games_json_path sp) (fs s) = Some (File c) →
  (∀ sub, lookup_path (games_json_temp_path sp) (fs s) ≠ Some (Dir sub)) →
  ∃ s', write_games_json sp doc s = (Ret tt, s') ∧ faults s' = [] ∧
        lookup_path (games_json_temp_path sp) (fs s') = None.
Proof.
  intros Hf Hgj Htmp.
  pose proof (games_json_temp_path_incomparable sp) as Hinc.
  rewrite games_json_temp_path_eq in *. unfold games_json_path in *.
  destruct (lookup_path_parent _ _ _ _ Hgj) as (es & Hsp & _).
  (* the temporary file is created, then written *)
  destruct (update_path_new_is_Some sp "games.json.tmp"
              (Some (File (Bytes EmptyString))) _ _ Hsp) as [n1 Hn1].
  assert (fs_write (sp ++ ["games.json.tmp"]) (Bytes EmptyString) (fs s)
          = inr n1) as Hw1.
  { unfold fs_write, fs_update. rewrite Hn1.
    destruct (lookup_path (sp ++ ["games.json.tmp"]) (fs s))
      as [[?|sub]|] eqn:E; [done| |done].
    by destruct (Htmp sub). }
  pose proof (lookup_update_parent _ _ _ _ _ _ Hn1 Hsp) as Hsp1.
  destruct (update_path_new_is_Some sp "games.json.tmp"
              (Some (File (JsonText doc))) _ _ Hsp1) as [n2 Hn2].
  assert (fs_write (sp ++ ["games.json.tmp"]) (JsonText doc) n1 = inr n2)
    as Hw2.
  { unfold fs_write, fs_update.
    by rewrite Hn2, (lookup_update_eq _ _ _ _ Hn1). }
  pose proof (lookup_update_parent _ _ _ _ _ _ Hn2 Hsp1) as Hsp2.
  (* it is renamed over the manifest *)
  destruct (update_path_new_is_Some sp "games.json.tmp" None _ _ Hsp2)
    as [n3 Hn3].
  pose proof (lookup_update_parent _ _ _ _ _ _ Hn3 Hsp2) as Hsp3.
  destruct (update_path_new_is_Some sp "games.json"
              (Some (File (JsonText doc))) _ _ Hsp3) as [n4 Hn4].
  assert (lookup_path (sp ++ ["games.json"]) n2 = Some (File c)) as Hgj2.
  { rewrite (lookup_update_frame _ _ _ _ _ Hn2 Hinc).
    by rewrite (lookup_update_frame _ _ _ _ _ Hn1 Hinc). }
  assert (fs_rename (sp ++ ["games.json.tmp"]) (sp ++ ["games.json"]) n2
          = inr n4) as Hren.
  { unfold fs_rename, stat, fs_update.
    rewrite (lookup_update_eq _ _ _ _ Hn2).
    rewrite decide_False by (intros E; by apply app_inv_head in E).
    rewrite bool_decide_eq_false_2 by (by destruct Hinc).
    by rewrite Hgj2, Hn3, Hn4. }
  exists (set_fs n4 (set_fs n2 (set_fs n1 s))). split_and!.
  - unfold write_games_json, json_dump, os_rename.
    rewrite games_json_temp_path_eq. unfold games_json_path.
    erewrite bind_Ret; [by apply fs_do_ok|].
    erewrite bind_Ret; [|by apply fs_do_ok]. by apply fs_do_ok.
  - done.
  - simpl. rewrite (lookup_update_frame _ _ _ _ _ Hn4)
      by (by apply incomparable_sym).
    by eapply lookup_update_eq.
Qed.

Lemma try_run {A} (m : py A) s r s' : m s = (r, s') → try m s = (Ret r, s').
Proof. unfold try. by intros ->. Qed.

Lemma game_dir_incomparable_temp sp u :
  incomparable (sp ++ [uuid_str u]) (games_json_temp_path sp).
Proof.
  rewrite games_json_temp_path_eq. apply incomparable_snoc.
  apply uuid_str_not_games_json.
Qed.


Lemma fs_do_false f s fl n :
  faults s = false :: fl → f (fs s) = inr n →
  fs_do f s = (Ret tt, set_fs n (set_faults fl s)).
Proof.
  intros Hf Hn. unfold fs_do, mbind, py_bind, syscall, fs_apply.
  rewrite Hf. simpl. by rewrite Hn.
Qed.

Lemma fs_do_true f s fl :
  faults s = true :: fl → fs_do f s = (Raise OSError, set_faults fl s).
Proof.
  intros Hf. unfold fs_do, mbind, py_bind, syscall. by rewrite Hf.
Qed.

(** X8. Step 1 of a registration has no rollback: when the first
    directory of the game was created and the creation of the second one
    fails, the registration stops with "Could not create server
    directories" and the game's directory, holding an empty [save_data],
    stays on the server; nothing outside it has changed, so the manifest
    does not list the game. *)
Theorem failed_directory_creation_is_not_rolled_back (server_path : path)
    (dialog : AddGameDialog) (u : N) (s : state) (fl : list bool)
    (es : list (string * node)) :
  dialog_accepted dialog = true →
  faults s = false :: true :: fl →
  lookup_path server_path (fs s) = Some (Dir es) →
  lookup_path (server_path ++ [uuid_str u]) (fs s) = None →
  ∃ s', add_new_game server_path dialog u s = (Ret tt, s') ∧
        shown s' = shown s ++ [could_not_create_directories OSError] ∧
        lookup_path (server_path ++ [uuid_str u]) (fs s')
          = Some (Dir [("save_data", Dir [])]) ∧
        changes_only (server_path ++ [uuid_str u]) (fs s) (fs s').
Proof.
  intros Hacc Hf Hsp Hfree.
  set (dir := server_path ++ [uuid_str u]) in *.
  assert (assoc_get (uuid_str u) es = None) as Hx.
  { subst dir. by rewrite lookup_path_snoc, Hsp in Hfree. }
  destruct (fs_makedirs_new_update _ _ ["save_data"] _ _ Hsp Hx)
    as (c & n1 & Hc & Hmk1 & Hup1).
  injection Hc as <-. fold dir in Hup1.
  change (server_path ++ [uuid_str u; "save_data"])
    with (server_path ++ [uuid_str u] ++ ["save_data"]) in Hmk1.
  rewrite app_assoc in Hmk1. fold dir in Hmk1.
  set (s1 := set_fs n1 (set_faults (true :: fl) s)).
  assert ((path_mkdir_parents_exist_ok (dir ++ ["save_data"]);;
           path_mkdir_parents_exist_ok (dir ++ ["backup"])) s
          = (Raise OSError, set_faults fl s1)) as Hmk.
  { unfold path_mkdir_parents_exist_ok.
    erewrite bind_Ret; [|by eapply fs_do_false]. by apply fs_do_true. }
  exists (add_box (could_not_create_directories OSError) (set_faults fl s1)).
  split_and!.
  - unfold add_new_game. rewrite Hacc. cbn [negb]. fold dir.
    erewrite bind_Ret; [|apply try_run; exact Hmk]. done.
  - done.
  - simpl. by eapply lookup_update_eq.
  - simpl. by eapply changes_only_update.
Qed.

(** ** Registration on a manifest of invalid format *)

Lemma lower_names_strings (l : list string) names :
  lower_names (JStr <$> l) = inr names → l = [].
Proof. by destruct l. Qed.

Lemma invalid_schema_names doc games items names :
  valid_schema doc = false →
  py_get "games" doc = inr games →
  py_iter (default (JList []) games) = inr items →
  lower_names items = inr names →
  names = [].
Proof.
  intros Hbad Hg Hi Hn. destruct doc as [| | | | |d]; try done.
  injection Hg as <-. simpl in Hbad.
  destruct (assoc_get "games" d) as [[| | |x|l|d']|]; simpl in Hi; try done.
  - injection Hi as <-.
    assert (list_ascii_of_string x = []) as E.
    { destruct (list_ascii_of_string x); [done|by simpl in Hn]. }
    rewrite E in Hn. by injection Hn as <-.
  - injection Hi as <-. rewrite <-list_fmap_compose in Hn.
    destruct d'; [by injection Hn as <-|by simpl in Hn].
  - injection Hi as <-. by injection Hn as <-.
Qed.

Lemma append_game_valid_schema new doc doc' :
  append_game new doc = inr doc' → valid_schema doc = true.
Proof.
  unfold append_game, py_getitem, valid_schema.
  destruct doc as [| | | | |d]; try done.
  destruct (assoc_get "games" d) as [[]|]; done.
Qed.

(** X9. A manifest that fails the loader's format check - a JSON
    document that is not an object, or whose [games] is missing or not a
    list - blocks every registration: [add_new_game] ends with the error
    "Could not create server directories" or "Could not update
    'games.json'" and leaves the manifest as it is. *)
Theorem invalid_manifest_blocks_registration (server_path : path)
    (dialog : AddGameDialog) (u : N) (s : state) (r : result unit)
    (s' : state) (doc : json) :
  dialog_accepted dialog = true →
  lookup_path (games_json_path server_path) (fs s)
    = Some (File (JsonText doc)) →
  valid_schema doc = false →
  add_new_game server_path dialog u s = (r, s') →
  lookup_path (games_json_path server_path) (fs s')
    = Some (File (JsonText doc)) ∧
  ∃ boxes e,
    shown s' = shown s ++ boxes ∧
    (could_not_create_directories e ∈ boxes ∨ could_not_update e ∈ boxes).
Proof.
  intros Hacc Hfile Hbad H.
  destruct (add_new_game_inv _ _ _ _ _ _ H Hacc) as
    [_ [(e & Hsh & Hgj)|[(Hsh & Hev)|[(Hsh & Hgj & _ & Hev)|
     [(boxes & e & Hsh & Hgj & _)|(boxes & e & e' & Hsh & Hgj)]]]]].
  - split; [congruence|]. exists [could_not_create_directories e], e.
    split; [done|]. left. by apply list_elem_of_singleton.
  - exfalso.
    destruct Hev as (doc0 & games & items & names & doc' & Hdoc & _ & _ & _ &
      _ & Happ & _).
    rewrite Hfile in Hdoc. injection Hdoc as <-.
    apply append_game_valid_schema in Happ. congruence.
  - exfalso.
    destruct Hev as (doc0 & games & items & names & Hdoc & Hg & Hi & Hn & Hin).
    rewrite Hfile in Hdoc. injection Hdoc as <-.
    rewrite (invalid_schema_names _ _ _ _ Hbad Hg Hi Hn) in Hin.
    by apply elem_of_nil in Hin.
  - split; [congruence|]. exists (boxes ++ [could_not_update e]), e.
    split; [done|]. right. apply elem_of_app. right.
    by apply list_elem_of_singleton.
  - split; [congruence|].
    exists (boxes ++ [could_not_update e; rollback_error e']), e.
    split; [done|]. right. apply elem_of_app. right. left.
Qed.

(** ** The loader *)

Lemma set_game_list_same t :
  set_game_list (game_list_widget t ++ []) (selected t) t = t.
Proof. rewrite app_nil_r. by destruct t. Qed.

Lemma list_game_inv g t r t' :
  list_game g t = (r, t') →
  ∃ items, t' = set_game_list (game_list_widget t ++ items) (selected t) t.
Proof.
  intros H.
  assert (t' = t → ∃ items,
            t' = set_game_list (game_list_widget t ++ items) (selected t) t)
    as Hsame.
  { intros ->. exists []. by rewrite set_game_list_same. }
  unfold list_game in H.
  destruct g as [| | | | |d]; try (apply Hsame; by injection H).
  destruct (negb _ || negb _); [apply Hsame; by injection H|].
  assert (∀ r0 t0,
            match default JNull (assoc_get "name" d) with
            | JStr _ => mret ()
            | _ => raise TypeError
            end t = (r0, t0) → t0 = t) as Hname.
  { intros r0 t0.
    destruct (default JNull (assoc_get "name" d)); by intros [= _ <-]. }
  assert (∀ r0 t0, paths_get (default JNull (assoc_get "id" d)) t = (r0, t0) →
                   t0 = t) as Hpaths.
  { intros r0 t0. unfold paths_get.
    destruct (default JNull (assoc_get "id" d)); by intros [= _ <-]. }
  apply bind_inv in H as [([] & t1 & Hn & H)|(e & Hn & _)];
    [|by apply Hsame, (Hname _ _ Hn)].
  apply Hname in Hn as ->.
  apply bind_inv in H as [(l & t1 & Hp & H)|(e & Hp & _)];
    [|by apply Hsame, (Hpaths _ _ Hp)].
  apply Hpaths in Hp as ->. injection H as _ <-. by eexists.
Qed.

Lemma list_games_inv games t r t' :
  for_ games list_game t = (r, t') →
  ∃ items, t' = set_game_list (game_list_widget t ++ items) (selected t) t.
Proof.
  revert t. induction games as [|g games IH]; intros t H; simpl in H.
  - injection H as _ <-. exists []. by rewrite set_game_list_same.
  - apply bind_inv in H as [([] & t1 & Hg & H)|(e & Hg & _)].
    + apply list_game_inv in Hg as [items1 ->].
      apply IH in H as [items2 ->]. exists (items1 ++ items2). simpl.
      by rewrite app_assoc.
    + by apply list_game_inv in Hg.
Qed.

Lemma load_games_from_json_inv sp s r s' :
  load_games_from_json sp s = (r, s') →
  fs s' = fs s ∧ local_game_paths s' = local_game_paths s ∧
  selected s' = None ∧
  (shown s' = shown s ∨
   r = Ret tt ∧ game_list_widget s' = [] ∧ ∃ box, shown s' = shown s ++ [box]).
Proof.
  intros H. unfold load_games_from_json in H.
  apply bind_inv in H as [([] & s0 & Hc & H)|(e & Hc & _)];
    [injection Hc as <- | discriminate Hc].
  apply bind_inv in H as [(r0 & s1 & Ht & H)|(e & Ht & _)];
    [|by apply try_inv in Ht as (? & ? & _)].
  apply try_inv in Ht as (r1 & [= ->] & Hrd).
  assert (io_step (set_game_list [] None s) s1 ∧ fs s1 = fs s) as [Hio Hfs].
  { unfold read_games_list in Hrd.
    apply bind_inv in Hrd as [(data & s2 & Hl & Hrd)|(e & Hl & _)];
      apply fs_ask_inv in Hl as (Hio & Hfs & _); [|done].
    destruct data as [| | | | |d]; try by injection Hrd as _ <-.
    destruct (assoc_get "games" d) as [[]|]; by injection Hrd as _ <-. }
  pose proof (io_step_shown _ _ Hio) as Hsh.
  pose proof (io_step_local_game_paths _ _ Hio) as Hlp.
  assert (game_list_widget s1 = [] ∧ selected s1 = None) as [Hw Hsel].
  { rewrite Hio. done. }
  simpl in Hsh, Hlp.
  destruct r1 as [games|e].
  - apply list_games_inv in H as [items ->]. simpl.
    split_and!; [done|done|done|by left].
  - assert (∃ box, (r, s') = (Ret tt, add_box box s1)) as [box [= -> ->]].
    { destruct e; by eexists. }
    simpl. split_and!; [done|done|done|]. right.
    split_and!; [done|done|]. exists box. by rewrite Hsh.
Qed.

(** X10. Loading the manifest never writes: whatever happens, the file
    system and the local path map are as before and no item is selected.
    When the load reports an error, it reports exactly one and the game
    list is left empty. *)
Theorem loading_changes_only_the_list (server_path : path) (s : state) :
  let r := (load_games_from_json server_path s).1 in
  let s' := (load_games_from_json server_path s).2 in
  fs s' = fs s ∧ local_game_paths s' = local_game_paths s ∧
  selected s' = None ∧
  (shown s' ≠ shown s →
   r = Ret tt ∧ game_list_widget s' = [] ∧ ∃ box, shown s' = shown s ++ [box]).
Proof.
  intros r s'.
  destruct (load_games_from_json_inv server_path s r s')
    as (Hfs & Hlp & Hsel & Hsh); [apply surjective_pairing|].
  split_and!; [done..|]. by destruct Hsh.
Qed.

Lemma list_games_listed items t :
  Forall (λ g, listed g = true → string_entry g) items →
  for_ items list_game t
  = (Ret tt,
     set_game_list
       (game_list_widget t ++
        ((λ g, ListItem g (negb (bool_decide
                   (is_Some (local_game_paths t !! id_of g)))))
         <$> filter (λ g, listed g) items))
       (selected t) t).
Proof.
  intros Hall. revert t. induction Hall as [|g items Hg _ IH]; intros t.
  - simpl. by rewrite set_game_list_same.
  - cbn [for_]. destruct (listed g) eqn:Hl.
    + destruct (Hg eq_refl) as (gid & gname & Hid & Hname).
      destruct g as [| | | | |d]; try done.
      assert (assoc_get "id" d = Some (JStr gid)) as Hid'.
      { simpl in Hid. by destruct (assoc_get "id" d); simplify_eq. }
      assert (assoc_get "name" d = Some (JStr gname)) as Hname'.
      { simpl in Hname. by destruct (assoc_get "name" d); simplify_eq. }
      assert (list_game (JDict d) t
              = (Ret tt, set_game_list
                   (game_list_widget t ++
                    [ListItem (JDict d)
                       (negb (bool_decide
                          (is_Some (local_game_paths t !! gid))))])
                   (selected t) t)) as Hrun.
      { unfold list_game. unfold listed in Hl. rewrite Hid', Hname' in *.
        apply andb_true_iff in Hl as [-> ->]. done. }
      assert (id_of (JDict d) = gid) as Hidof.
      { unfold id_of. by rewrite Hid. }
      rewrite (bind_Ret _ _ _ _ _ Hrun), IH.
      rewrite filter_cons_True by (by rewrite Hl).
      rewrite fmap_cons, Hidof. simpl. by rewrite <-app_assoc.
    + assert (list_game g t = (Ret tt, t)) as Hrun.
      { unfold list_game. destruct g as [| | | | |d]; try done.
        unfold listed in Hl. apply andb_false_iff in Hl as [->| ->]; [done|].
        by rewrite orb_true_r. }
      rewrite (bind_Ret _ _ _ _ _ Hrun), IH.
      by rewrite filter_cons_False by (rewrite Hl; exact id).
Qed.



(** ** The controls of the main window *)

Lemma selected_item_count s item :
  selected s ≫= (λ i, game_list_widget s !! i) = Some item →
  bool_decide (0 < length (game_list_widget s)) = true.
Proof.
  destruct (selected s) as [i|]; [|done]. simpl. intros H.
  apply lookup_lt_Some in H. apply bool_decide_eq_true. lia.
Qed.

Lemma paths_get_default (game_id : option json) s r s' :
  paths_get (default JNull game_id) s = (r, s') →
  s' = s ∧
  ∀ local, r = Ret local →
           ∀ lp, local = Some lp ↔
                 ∃ k, game_id = Some (JStr k) ∧
                      local_game_paths s !! k = Some lp.
Proof.
  unfold paths_get.
  destruct game_id as [[| | |k| |]|]; simpl; intros [= <- <-];
    (split; [done|]); intros local; try done; intros [= <-] lp;
    (split; [|by intros (? & [= <-] & ?)]); try done.
  intros Hlp. by exists k.
Qed.

(** X12. What [update_ui_state] shows.  It changes no state but the
    widgets it returns.  The buttons "Upload" and "Download" are enabled
    together, exactly when a game is selected whose identifier has an entry
    in the local path map; the button "Set Local Path..." is visible
    exactly when a game is selected that has none.  With a selection the
    two bulk buttons are enabled; without one they keep their state. *)
Theorem update_ui_state_enables_sync_iff_configured (c : controls)
    (s : state) (c' : controls) (s' : state) :
  update_ui_state c s = (Ret c', s') →
  let sel := selected s ≫= (λ i, game_list_widget s !! i) in
  let configured :=
    ∃ item gid lp, sel = Some item ∧
                   py_get "id" (item_data item) = inr (Some (JStr gid)) ∧
                   local_game_paths s !! gid = Some lp in
  s' = s ∧
  (upload_button c' = true ↔ configured) ∧
  download_button c' = upload_button c' ∧
  (set_local_path_button c' = true ↔ is_Some sel ∧ ¬ configured) ∧
  (is_Some sel →
   upload_all_button c' = true ∧ download_all_button c' = true) ∧
  (sel = None →
   upload_all_button c' = upload_all_button c ∧
   download_all_button c' = download_all_button c).
Proof.
  intros H sel configured. unfold update_ui_state in H.
  apply bind_inv in H as [(o & s0 & Hg & H)|(e & Hg & ?)]; [|done].
  injection Hg as <- <-. fold sel in H. subst configured.
  destruct sel as [item|] eqn:Hsel.
  2: { injection H as <- <-. simpl. split_and!; try done.
       - split; [done|]. by intros (? & ? & ? & ? & _).
       - split; [done|]. by intros [[? ?] _]. }
  apply bind_inv in H as [(game_id & s0 & Hid & H)|(e & _ & ?)]; [|done].
  apply lift_inv in Hid as [-> Hid].
  apply bind_inv in H as [(game_name & s0 & Hname & H)|(e & _ & ?)]; [|done].
  apply lift_inv in Hname as [-> Hname].
  destruct (py_get "id" (item_data item)) as [|gi] eqn:Egi; [done|].
  injection Hid as <-.
  apply bind_inv in H as [(local & s0 & Hp & H)|(e & _ & ?)]; [|done].
  apply paths_get_default in Hp as [-> Hlocal].
  specialize (Hlocal local eq_refl).
  apply bind_inv in H as [(n & s0 & Hn & H)|(e & _ & ?)]; [|done].
  injection Hn as <- <-.
  rewrite (selected_item_count s item Hsel) in H.
  assert ((∃ item0 gid lp, Some item = Some item0 ∧
             py_get "id" (item_data item0) = inr (Some (JStr gid)) ∧
             local_game_paths s !! gid = Some lp) ↔ is_Some local) as Hconf.
  { split.
    - intros (item0 & gid & lp & [= <-] & Hgid & Hlp).
      rewrite Egi in Hgid. injection Hgid as ->.
      exists lp. apply Hlocal. by exists gid.
    - intros [lp Hlp]. apply Hlocal in Hlp as (k & -> & Hlp).
      by exists item, k, lp. }
  rewrite Hconf. destruct local as [lp|]; injection H as <- <-; simpl.
  - split_and!; try done.
    split; [done|]. intros [_ Hn]. by destruct Hn.
  - by split_and!.
Qed.

Lemma update_ui_state_enables_sync_iff_configured_witness :
  let c' := Controls true true false
              [Lit "Game: "; Val (JStr "Celeste"); Lit (nl +:+ "Local Path: ");
               Val (JStr "/home/celeste")] true true in
  update_ui_state initial_controls demo_synced = (Ret c', demo_synced) ∧
  (upload_button c' = true ↔
   ∃ item gid lp,
     selected demo_synced ≫= (λ i, game_list_widget demo_synced !! i)
       = Some item ∧
     py_get "id" (item_data item) = inr (Some (JStr gid)) ∧
     local_game_paths demo_synced !! gid = Some lp).
Proof.
  intros c'. split; [reflexivity|].
  apply (update_ui_state_enables_sync_iff_configured initial_controls
           demo_synced c' demo_synced eq_refl).
Defined.

(** ** Setting the local path of a game *)

Lemma update_ui_state_state c s r s' : update_ui_state c s = (r, s') → s' = s.
Proof.
  unfold update_ui_state. intros H.
  apply bind_inv in H as [(o & s0 & Hg & H)|(e & Hg & ?)]; [|done].
  injection Hg as <- <-.
  destruct (selected s ≫= _) as [item|]; [|by injection H].
  apply bind_inv in H as [(game_id & s0 & Hid & H)|(e & Hid & _)];
    apply lift_inv in Hid as [-> Hid]; [|done].
  apply bind_inv in H as [(game_name & s0 & Hname & H)|(e & Hname & _)];
    apply lift_inv in Hname as [-> Hname]; [|done].
  apply bind_inv in H as [(local & s0 & Hp & H)|(e & Hp & _)];
    apply paths_get_default in Hp as [-> _]; [|done].
  apply bind_inv in H as [(n & s0 & Hn & H)|(e & Hn & _)]; [|done].
  injection Hn as <- <-. destruct local; by injection H.
Qed.

Lemma update_ui_state_no_selection c s :
  selected s = None →
  update_ui_state c s
  = (Ret (Controls false false false [Lit "Select a game from the list."]
            (upload_all_button c) (download_all_button c)), s).
Proof.
  intros Hsel. unfold update_ui_state, mbind, py_bind, get_selected_game_item.
  by rewrite Hsel.
Qed.

Lemma reselect_inv k s r s' :
  reselect k s = (r, s') →
  ∃ sel, s' = set_game_list (game_list_widget s) sel s.
Proof.
  unfold reselect. destruct (find_id k (game_list_widget s) 0) as [e|[i|]];
    intros [= _ <-]; [exists (selected s)|by eexists|exists (selected s)];
    by destruct s.
Qed.

Lemma reload_and_reselect_inv sp k c s r s' :
  reload_and_reselect sp k c s = (r, s') →
  fs s' = fs s ∧ local_game_paths s' = local_game_paths s.
Proof.
  unfold reload_and_reselect. intros H.
  apply bind_inv in H as [([] & s1 & Hl & H)|(e & Hl & _)];
    apply load_games_from_json_inv in Hl as (Hfs & Hlp & _); [|done].
  rewrite <-Hfs, <-Hlp.
  apply bind_inv in H as [(c1 & s2 & Hu & H)|(e & Hu & _)];
    apply update_ui_state_state in Hu as ->; [|done].
  apply bind_inv in H as [([] & s2 & Hr & H)|(e & Hr & _)];
    apply reselect_inv in Hr as [sel ->]; [|done].
  by apply update_ui_state_state in H as ->.
Qed.

(** X13. Setting the local path of the selected game (its identifier
    being a string) records the chosen directory under that identifier
    and nothing else: the other entries of the local path map and the file
    system are as before, whatever the reload of the list does.  When the
    directory dialog was cancelled, nothing changes at all. *)
Theorem set_local_path_records_the_path (server_path : path)
    (path_str : path) (c : controls) (s : state) (item : QListWidgetItem)
    (gid : string) :
  selected s ≫= (λ i, game_list_widget s !! i) = Some item →
  py_get "id" (item_data item) = inr (Some (JStr gid)) →
  ∃ r s',
    set_local_path server_path path_str c s = Some (r, s') ∧
    fs s' = fs s ∧
    (path_str = [] → r = Ret c ∧ s' = s) ∧
    (path_str ≠ [] →
     local_game_paths s' = <[gid := path_str]> (local_game_paths s)).
Proof.
  intros Hsel Hid. unfold set_local_path, get_selected_game_item.
  rewrite Hsel, Hid.
  assert (∃ name, py_get "name" (item_data item) = inr name) as [name ->].
  { destruct (item_data item); try done. by eexists. }
  destruct path_str as [|x p]; [by eexists _, _|].
  simpl default. cbv iota.
  destruct (reload_and_reselect _ _ _ _) as [r s'] eqn:H.
  apply reload_and_reselect_inv in H as [Hfs Hlp].
  exists r, s'. by split_and!.
Qed.

Lemma set_local_path_records_the_path_witness :
  ∃ r s',
    set_local_path demo_server ["home"; "saves"] initial_controls
      demo_new_machine = Some (r, s') ∧
    fs s' = fs demo_new_machine ∧
    local_game_paths s' = {[ "g1" := ["home"; "saves"] ]}.
Proof.
  destruct (set_local_path_records_the_path demo_server ["home"; "saves"]
              initial_controls demo_new_machine
              (ListItem (record_json demo_game) true) "g1" eq_refl eq_refl)
    as (r & s' & Hrun & Hfs & _ & Hlp).
  exists r, s'. split_and!; [exact Hrun|exact Hfs|].
  rewrite Hlp by discriminate. reflexivity.
Defined.

Lemma find_id_catalog gray gid (c1 c2 : list GameRecord) g i :
  gid ∉ rec_id <$> c1 → rec_id g = gid →
  find_id gid ((λ g, ListItem (record_json g) (gray g)) <$> (c1 ++ g :: c2)) i
  = inr (Some (i + length c1)).
Proof.
  revert i. induction c1 as [|g1 c1 IH]; intros i Hnin Hg; simpl.
  - rewrite bool_decide_eq_true_2 by done. do 2 f_equal. lia.
  - rewrite fmap_cons in Hnin. apply not_elem_of_cons in Hnin as [Hne Hnin].
    rewrite bool_decide_eq_false_2 by done. rewrite IH by done.
    do 2 f_equal. lia.
Qed.

(** X14. The "new PC" workflow.  For a game of the catalog that is
    selected in the list, choosing a directory in [set_local_path] (the
    manifest being readable) reloads the list with the game no longer
    greyed out, selects it again and enables the buttons "Upload" and
    "Download", the button "Set Local Path..." being hidden. *)
Theorem set_local_path_configures_the_game (server_path : path)
    (path_str : path) (c : controls) (s : state) (item : QListWidgetItem)
    (c1 c2 : list GameRecord) (g : GameRecord) :
  selected s ≫= (λ i, game_list_widget s !! i) = Some item →
  item_data item = record_json g →
  path_str ≠ [] →
  head (faults s) ≠ Some true →
  lookup_path (games_json_path server_path) (fs s)
    = Some (File (JsonText (manifest_json (c1 ++ g :: c2)))) →
  Forall valid_record (c1 ++ g :: c2) →
  rec_id g ∉ rec_id <$> c1 →
  let paths := <[rec_id g := path_str]> (local_game_paths s) in
  ∃ c' s',
    set_local_path server_path path_str c s = Some (Ret c', s') ∧
    local_game_paths s' = paths ∧
    game_list_widget s'
    = (λ g, ListItem (record_json g)
              (negb (bool_decide (is_Some (paths !! rec_id g)))))
      <$> (c1 ++ g :: c2) ∧
    game_list_widget s' !! length c1 = Some (ListItem (record_json g) false) ∧
    selected s' = Some (length c1) ∧
    upload_button c' = true ∧ download_button c' = true ∧
    set_local_path_button c' = false ∧
    shown s' = shown s.
Proof.
  intros Hsel Hdata Hne Hf Hfile Hvalid Hfirst paths.
  set (s1 := set_local_game_paths paths s).
  set (mk := λ g, ListItem (record_json g)
                    (negb (bool_decide (is_Some (paths !! rec_id g))))).
  destruct (load_games_valid_run server_path (c1 ++ g :: c2) s1 Hvalid Hfile Hf)
    as (t1 & Hio & Hload).
  fold mk in Hload. set (t2 := set_game_list (mk <$> (c1 ++ g :: c2)) None t1)
    in *.
  set (t3 := set_game_list (game_list_widget t2) (Some (length c1)) t2).
  assert (local_game_paths t1 = paths) as Hp1.
  { by rewrite (io_step_local_game_paths _ _ Hio). }
  assert (reselect (rec_id g) t2 = (Ret tt, t3)) as Hre.
  { unfold reselect.
    change (game_list_widget t2) with (mk <$> (c1 ++ g :: c2)). unfold mk.
    by rewrite (find_id_catalog _ (rec_id g)). }
  assert (game_list_widget t3 !! length c1 = Some (mk g)) as Hitem.
  { simpl. rewrite list_lookup_fmap, lookup_app_r, Nat.sub_diag by done.
    done. }
  assert (mk g = ListItem (record_json g) false) as Hmk.
  { unfold mk, paths. by rewrite lookup_insert_eq. }
  assert (∃ c', update_ui_state (Controls false false false
              [Lit "Select a game from the list."]
              (upload_all_button c) (download_all_button c)) t3
            = (Ret c', t3) ∧ upload_button c' = true ∧
            download_button c' = true ∧ set_local_path_button c' = false)
    as (c' & Hc' & Hb1 & Hb2 & Hb3).
  { unfold update_ui_state, get_selected_game_item.
    erewrite bind_Ret; [|reflexivity].
    change (selected t3 ≫= (λ i, game_list_widget t3 !! i))
      with (game_list_widget t3 !! length c1).
    rewrite Hitem, Hmk. simpl item_data.
    erewrite bind_Ret; [|reflexivity]. erewrite bind_Ret; [|reflexivity].
    erewrite bind_Ret;
      [|simpl default; unfold paths_get; simpl local_game_paths;
        rewrite Hp1; unfold paths; rewrite lookup_insert_eq; reflexivity].
    erewrite bind_Ret; [|reflexivity]. eexists. split; [reflexivity|done]. }
  exists c', t3. split_and!; try done.
  - unfold set_local_path, get_selected_game_item. rewrite Hsel, Hdata.
    simpl py_get. cbv iota. destruct path_str as [|x p]; [done|].
    simpl default. cbv iota. fold paths s1. f_equal.
    unfold reload_and_reselect.
    erewrite bind_Ret; [|exact Hload].
    erewrite bind_Ret; [|by apply update_ui_state_no_selection].
    erewrite bind_Ret; [|exact Hre]. exact Hc'.
  - by rewrite <-Hmk.
  - simpl. by rewrite (io_step_shown _ _ Hio).
Qed.

Lemma set_local_path_configures_the_game_witness :
  ∃ c' s',
    set_local_path demo_server ["home"; "saves"] initial_controls
      demo_new_machine = Some (Ret c', s') ∧
    local_game_paths s' = {[ "g1" := ["home"; "saves"] ]} ∧
    game_list_widget s' = [ListItem (record_json demo_game) false] ∧
    selected s' = Some 0 ∧
    upload_button c' = true ∧ download_button c' = true ∧
    set_local_path_button c' = false.
Proof.
  assert (Forall valid_record ([] ++ [demo_game])) as Hvalid.
  { apply Forall_singleton. split; discriminate. }
  destruct (set_local_path_configures_the_game demo_server ["home"; "saves"]
              initial_controls demo_new_machine
              (ListItem (record_json demo_game) true) [] [] demo_game
              eq_refl eq_refl ltac:(discriminate) ltac:(discriminate)
              eq_refl Hvalid (not_elem_of_nil _))
    as (c' & s' & Hrun & Hlp & Hw & _ & Hsel & Hb1 & Hb2 & Hb3 & _).
  exists c', s'. split_and!; assumption.
Defined.

(** ** The welcome dialog *)

Lemma is_PermissionError_run e s :
  ∃ refused s', is_PermissionError e s = (Ret refused, s') ∧
                io_step s s' ∧ fs s' = fs s.
Proof.
  unfold is_PermissionError.
  destruct e, (faults s) as [|refused fl]; eauto 6 using io_step_refl.
Qed.

Lemma is_PermissionError_no_fault e s :
  faults s = [] → is_PermissionError e s = (Ret false, s).
Proof. unfold is_PermissionError. intros ->. by destruct e. Qed.

Lemma is_PermissionError_OSError s refused fl :
  faults s = refused :: fl →
  is_PermissionError OSError s = (Ret refused, set_faults fl s).
Proof. unfold is_PermissionError. by intros ->. Qed.

Lemma fs_ask_head {A} (f : node → exn + A) s :
  head (faults s) ≠ Some true →
  ∃ s1, io_step s s1 ∧ fs s1 = fs s ∧ faults s1 = tail (faults s) ∧
        fs_ask f s = match f (fs s) with
                     | inl e => (Raise e, s1)
                     | inr a => (Ret a, s1)
                     end.
Proof.
  intros Hf. unfold fs_ask.
  assert (∃ s1, io_step s s1 ∧ fs s1 = fs s ∧ faults s1 = tail (faults s) ∧
                syscall s = (Ret tt, s1)) as (s1 & Hio & Hfs & Hfl & Hs).
  { unfold syscall. destruct (faults s) as [|[] fl] eqn:E; [|done|].
    - exists s. by rewrite E.
    - by exists (set_faults fl s). }
  exists s1. split_and!; [done..|]. rewrite (bind_Ret _ _ _ _ _ Hs).
  unfold mbind, py_bind, get_fs, lift. rewrite Hfs. by destruct (f (fs s)).
Qed.

Lemma json_dump_no_fault v dir x s es :
  faults s = [] →
  lookup_path dir (fs s) = Some (Dir es) →
  (∀ sub, assoc_get x es ≠ Some (Dir sub)) →
  ∃ s', json_dump v (dir ++ [x]) s = (Ret tt, s') ∧ faults s' = [].
Proof.
  intros Hf Hdir Hx.
  destruct (update_path_new_is_Some dir x (Some (File (Bytes EmptyString)))
              _ _ Hdir) as [n1 Hn1].
  assert (fs_write (dir ++ [x]) (Bytes EmptyString) (fs s) = inr n1) as Hw1.
  { unfold fs_write, fs_update. rewrite Hn1, lookup_path_snoc, Hdir.
    destruct (assoc_get x es) as [[?|sub]|] eqn:E; [done| |done].
    by destruct (Hx sub). }
  pose proof (lookup_update_parent _ _ _ _ _ _ Hn1 Hdir) as Hdir1.
  destruct (update_path_new_is_Some dir x (Some (File (JsonText v)))
              _ _ Hdir1) as [n2 Hn2].
  assert (fs_write (dir ++ [x]) (JsonText v) n1 = inr n2) as Hw2.
  { unfold fs_write, fs_update.
    by rewrite Hn2, (lookup_update_eq _ _ _ _ Hn1). }
  exists (set_fs n2 (set_fs n1 s)). split; [|done]. unfold json_dump.
  erewrite bind_Ret; [|by apply fs_do_ok]. by apply fs_do_ok.
Qed.

Lemma setup_new_server_inv path_str s r s' :
  setup_new_server path_str s = (r, s') →
  changes_only (path_str ++ ["games.json"]) (fs s) (fs s') ∧
  (∀ n, lookup_path (path_str ++ ["games.json"]) (fs s) = Some n →
        fs s' = fs s ∧ ∀ sp, r ≠ Ret (Some sp)) ∧
  (∀ sp, r = Ret (Some sp) →
         sp = path_str ∧ path_str ≠ [] ∧
         lookup_path (path_str ++ ["games.json"]) (fs s')
           = Some (File (JsonText (manifest_json [])))).
Proof.
  unfold setup_new_server. intros H.
  destruct path_str as [|x p].
  { injection H as <- <-. split_and!; [apply changes_only_refl|done|done]. }
  apply bind_inv in H as [(found & s1 & He & H)|(e & He & ->)];
    apply fs_ask_inv in He as (Hio1 & Hfs1 & He).
  2: { rewrite Hfs1. split_and!; [apply changes_only_refl|done|done]. }
  specialize (He found eq_refl). injection He as <-.
  destruct (exists_path _ (fs s)) eqn:Hex.
  - apply bind_inv in H as [([] & s2 & [= <-] & [= <- <-])|(e & [=] & _)].
    simpl. rewrite Hfs1. split_and!; [apply changes_only_refl|done|done].
  - assert (lookup_path ((x :: p) ++ ["games.json"]) (fs s) = None) as Hgj.
    { unfold exists_path in Hex. by destruct (lookup_path _ (fs s)). }
    apply bind_inv in H as [(r1 & s2 & Ht & H)|(e & Ht & _)];
      [|by apply try_inv in Ht as (? & ? & _)].
    apply try_inv in Ht as (r1' & [= ->] & Hd).
    apply bind_inv in Hd as [([] & s3 & Hd & Hi)|(e & Hd & ->)];
      apply json_dump_inv in Hd as (Hio3 & Hch3 & Hres3).
    + injection Hi as <- <-. injection H as <- <-. rewrite Hgj.
      cbn [fs add_box]. rewrite <-Hfs1. split_and!; [done|done|].
      intros sp' [= <-]. split_and!; [done|done|by apply Hres3].
    + destruct (is_PermissionError_run e s2) as (refused & s3 & Hp & _ & Hfs3).
      rewrite (bind_Ret _ _ _ _ _ Hp) in H.
      destruct refused;
        apply bind_inv in H as [([] & s4 & [= <-] & [= <- <-])|(e0 & [=] & _)];
        rewrite Hgj; cbn [fs add_box]; rewrite Hfs3, <-Hfs1; by split_and!.
Qed.

(** X15. "Set Up New Server" never touches an existing manifest: in a
    directory that already has an entry [games.json] it changes nothing on
    the file system and does not accept the dialog; when its check is not
    hit by an I/O fault, it answers with the warning "Server Already
    Exists". *)
Theorem setup_new_server_keeps_an_existing_manifest (path_str : path)
    (s : state) (r : result (option path)) (s' : state) (n : node) :
  setup_new_server path_str s = (r, s') →
  lookup_path (path_str ++ ["games.json"]) (fs s) = Some n →
  fs s' = fs s ∧ (∀ sp, r ≠ Ret (Some sp)) ∧
  (path_str ≠ [] → head (faults s) ≠ Some true →
   r = Ret None ∧ shown s' = shown s ++ [server_already_exists]).
Proof.
  intros H Hgj.
  destruct (setup_new_server_inv _ _ _ _ H) as (_ & Hkeep & _).
  destruct (Hkeep n Hgj) as [Hfs Hno]. split_and!; [done|done|].
  intros Hne Hf. unfold setup_new_server in H.
  destruct path_str as [|x p]; [done|].
  destruct (fs_ask_head (λ n, inr (exists_path ((x :: p) ++ ["games.json"]) n))
              s Hf) as (s1 & Hio & _ & _ & Hrun).
  unfold path_exists in H. rewrite (bind_Ret _ _ _ _ _ Hrun) in H.
  unfold exists_path in H. rewrite Hgj in H. injection H as <- <-.
  split; [done|]. simpl. by rewrite (io_step_shown _ _ Hio).
Qed.

Lemma setup_new_server_keeps_an_existing_manifest_witness :
  let run := setup_new_server demo_server demo_synced in
  fs run.2 = fs demo_synced ∧
  run.1 = Ret None ∧
  shown run.2 = shown demo_synced ++ [server_already_exists].
Proof.
  intros run.
  destruct (setup_new_server_keeps_an_existing_manifest demo_server
              demo_synced run.1 run.2
              (File (JsonText (manifest_json [demo_game]))))
    as (Hfs & _ & Hbox).
  - apply surjective_pairing.
  - reflexivity.
  - destruct Hbox as [Hr Hsh]; [discriminate|discriminate|]. by split_and!.
Defined.

(** X16. "Set Up New Server" in a directory without [games.json], when no
    system call fails: the manifest of the empty catalog is written there,
    nothing else changes, the dialog is accepted with that directory as
    server path; and the loader then reads the new manifest as an empty
    game list, without an error. *)
Theorem new_server_has_an_empty_catalog (path_str : path) (s : state)
    (es : list (string * node)) :
  path_str ≠ [] →
  faults s = [] →
  lookup_path path_str (fs s) = Some (Dir es) →
  assoc_get "games.json" es = None →
  ∃ s', setup_new_server path_str s = (Ret (Some path_str), s') ∧
        shown s' = shown s ++ [new_server_created path_str] ∧
        lookup_path (games_json_path path_str) (fs s')
          = Some (File (JsonText (manifest_json []))) ∧
        changes_only (games_json_path path_str) (fs s) (fs s') ∧
        ∀ t, fs t = fs s' → head (faults t) ≠ Some true →
             ∃ t', load_games_from_json path_str t = (Ret tt, t') ∧
                   game_list_widget t' = [] ∧ shown t' = shown t.
Proof.
  intros Hne Hf Hdir Hfree. unfold games_json_path.
  destruct (json_dump_no_fault (manifest_json []) path_str "games.json" s es
              Hf Hdir) as (s2 & Hd & Hf2); [by rewrite Hfree|].
  pose proof (json_dump_inv _ _ _ _ _ Hd) as (Hio & Hch & Hres).
  specialize (Hres eq_refl).
  exists (add_box (new_server_created path_str) s2). split_and!.
  - unfold setup_new_server. destruct path_str as [|x p]; [done|].
    erewrite bind_Ret;
      [|apply fs_ask_ok; [done|]; unfold exists_path;
        by rewrite lookup_path_snoc, Hdir, Hfree].
    cbv beta iota.
    erewrite bind_Ret;
      [|apply try_run; erewrite bind_Ret; [|exact Hd]; reflexivity].
    done.
  - simpl. by rewrite (io_step_shown _ _ Hio).
  - done.
  - done.
  - intros t Hfs Ht.
    destruct (load_games_valid_run path_str [] t) as (t1 & Hio1 & Hload);
      [done|by rewrite Hfs|done|].
    eexists. split; [exact Hload|]. split; [done|]. simpl.
    by rewrite (io_step_shown _ _ Hio1).
Qed.

Lemma new_server_has_an_empty_catalog_witness :
  ∃ s', setup_new_server demo_server demo_first_run
          = (Ret (Some demo_server), s') ∧
        shown s' = [new_server_created demo_server] ∧
        lookup_path (games_json_path demo_server) (fs s')
          = Some (File (JsonText (manifest_json []))) ∧
        ∃ t', load_games_from_json demo_server s' = (Ret tt, t') ∧
              game_list_widget t' = [] ∧ shown t' = shown s'.
Proof.
  destruct (new_server_has_an_empty_catalog demo_server demo_first_run []
              ltac:(discriminate) eq_refl eq_refl eq_refl)
    as (s' & Hrun & Hsh & Hgj & _ & Hload).
  exists s'. split_and!; [exact Hrun|exact Hsh|exact Hgj|].
  apply (Hload s' eq_refl).
  injection Hrun as <-. discriminate.
Defined.

Lemma fs_ask_false {A} (f : node → exn + A) s fl a :
  faults s = false :: fl → f (fs s) = inr a →
  fs_ask f s = (Ret a, set_faults fl s).
Proof.
  intros Hf Ha. unfold fs_ask, mbind, py_bind, syscall, get_fs, lift.
  rewrite Hf. simpl. by rewrite Ha.
Qed.

Lemma connect_to_existing_server_inv path_str s r s' :
  connect_to_existing_server path_str s = (r, s') →
  fs s' = fs s ∧
  ∃ o, r = Ret o ∧
       ∀ sp, o = Some sp →
             sp = path_str ∧ path_str ≠ [] ∧
             ∃ j, lookup_path (path_str ++ ["games.json"]) (fs s)
                  = Some (File (JsonText j)).
Proof.
  unfold connect_to_existing_server. intros H.
  destruct path_str as [|x p].
  { injection H as <- <-. split; [done|]. by exists None. }
  apply bind_inv in H as [(r1 & s1 & Ht & H)|(e & Ht & _)];
    [|by apply try_inv in Ht as (? & ? & _)].
  apply try_inv in Ht as (r1' & [= ->] & Hc).
  assert (fs s1 = fs s ∧
          (r1' = Ret tt →
           ∃ j, lookup_path ((x :: p) ++ ["games.json"]) (fs s)
                = Some (File (JsonText j)))) as [Hfs Hok].
  { apply bind_inv in Hc as [(found & s2 & Hf & Hc)|(e & Hf & ->)];
      apply fs_ask_inv in Hf as (_ & Hfs2 & _); [|done].
    destruct found; [|by injection Hc as <- <-].
    apply bind_inv in Hc as [(j & s3 & Hl & Hc)|(e & Hl & ->)];
      apply fs_ask_inv in Hl as (_ & Hfs3 & Hl).
    - injection Hc as _ <-. split; [congruence|]. intros _. exists j.
      rewrite <-Hfs2. by apply fs_parse_inr, Hl.
    - split; [congruence|done]. }
  destruct r1' as [[]|e].
  - apply bind_inv in H as [([] & s2 & [= <-] & [= <- <-])|(e & [=] & _)].
    split; [done|]. eexists. split; [done|].
    intros sp [= <-]. split_and!; [done|done|by apply Hok].
  - destruct (is_PermissionError_run e s1) as (refused & s2 & Hp & _ & Hfs2).
    rewrite (bind_Ret _ _ _ _ _ Hp) in H.
    destruct refused;
      apply bind_inv in H as [([] & s3 & [= <-] & [= <- <-])|(e0 & [=] & _)];
      (split; [cbn [fs add_box]; congruence|]); by exists None.
Qed.



(** X18. Creating a server is not atomic.  When the manifest was opened
    for writing and the write then fails, "Set Up New Server" reports the
    error - "Permission Error" when the write was refused, "Error"
    otherwise - and does not accept the dialog, but leaves an empty
    [games.json] behind.  From then on the directory is refused by "Set Up
    New Server" ("Server Already Exists") and by "Connect to Existing
    Server" ("File Corrupted"). *)
Theorem failed_setup_leaves_an_unusable_manifest (path_str : path)
    (s : state) (fl : list bool) (es : list (string * node)) :
  path_str ≠ [] →
  faults s = false :: false :: true :: fl →
  lookup_path path_str (fs s) = Some (Dir es) →
  assoc_get "games.json" es = None →
  ∃ s', setup_new_server path_str s = (Ret None, s') ∧
        shown s' = shown s ++ [if default false (head fl)
                               then cannot_write_directory
                               else unexpected_error OSError] ∧
        lookup_path (path_str ++ ["games.json"]) (fs s')
          = Some (File (Bytes EmptyString)) ∧
        ∀ t, fs t = fs s' → faults t = [] →
             setup_new_server path_str t
               = (Ret None, add_box server_already_exists t) ∧
             connect_to_existing_server path_str t
               = (Ret None, add_box (file_corrupted JSONDecodeError) t).
Proof.
  intros Hne Hf Hdir Hfree.
  destruct (update_path_new_is_Some path_str "games.json"
              (Some (File (Bytes EmptyString))) _ _ Hdir) as [n1 Hn1].
  assert (lookup_path (path_str ++ ["games.json"]) (fs s) = None) as Hgj.
  { by rewrite lookup_path_snoc, Hdir. }
  assert (fs_write (path_str ++ ["games.json"]) (Bytes EmptyString) (fs s)
          = inr n1) as Hw1.
  { unfold fs_write, fs_update. by rewrite Hgj, Hn1. }
  pose proof (lookup_update_eq _ _ _ _ Hn1) as Hgj1.
  exists (add_box (if default false (head fl) then cannot_write_directory
                   else unexpected_error OSError)
            (set_faults (tail fl) (set_fs n1 (set_faults (true :: fl)
               (set_faults (false :: true :: fl) s))))).
  destruct path_str as [|x p]; [done|]. split_and!.
  - unfold setup_new_server.
    erewrite bind_Ret;
      [|eapply fs_ask_false; [done|]; unfold exists_path; by rewrite Hgj].
    cbv beta iota.
    erewrite bind_Ret.
    2: { apply try_run. erewrite bind_Raise; [reflexivity|].
         unfold json_dump. erewrite bind_Ret; [|by eapply fs_do_false].
         by eapply fs_do_true. }
    cbv beta iota.
    destruct fl as [|[] fl'].
    + erewrite bind_Ret; [|by apply is_PermissionError_no_fault]. done.
    + erewrite bind_Ret; [|by eapply is_PermissionError_OSError]. done.
    + erewrite bind_Ret; [|by eapply is_PermissionError_OSError]. done.
  - done.
  - done.
  - intros t Hfs Ht. simpl in Hfs. split.
    + unfold setup_new_server.
      erewrite bind_Ret;
        [|apply fs_ask_ok; [done|]; unfold exists_path;
          by rewrite Hfs, Hgj1].
      done.
    + unfold connect_to_existing_server.
      erewrite bind_Ret.
      2: { apply try_run. erewrite bind_Ret;
             [|apply fs_ask_ok; [done|]; unfold is_file; by rewrite Hfs, Hgj1].
           cbv beta iota. erewrite bind_Raise; [reflexivity|].
           unfold json_load. rewrite fs_ask_no_fault by done.
           unfold fs_parse, stat. by rewrite Hfs, Hgj1. }
      cbv beta iota.
      erewrite bind_Ret; [|by apply is_PermissionError_no_fault]. done.
Qed.

Lemma failed_setup_leaves_an_unusable_manifest_witness :
  ∃ s', setup_new_server demo_server
          (set_faults [false; false; true; true] demo_first_run)
          = (Ret None, s') ∧
        shown s' = [cannot_write_directory] ∧
        lookup_path (demo_server ++ ["games.json"]) (fs s')
          = Some (File (Bytes EmptyString)) ∧
        setup_new_server demo_server s'
          = (Ret None, add_box server_already_exists s') ∧
        connect_to_existing_server demo_server s'
          = (Ret None, add_box (file_corrupted JSONDecodeError) s').
Proof.
  destruct (failed_setup_leaves_an_unusable_manifest demo_server
              (set_faults [false; false; true; true] demo_first_run) [true] []
              ltac:(discriminate) eq_refl eq_refl eq_refl)
    as (s' & Hrun & Hsh & Hgj & Hlater).
  exists s'. split_and!; [exact Hrun|exact Hsh|exact Hgj|..];
    apply (Hlater s' eq_refl); by injection Hrun as <-.
Defined.

(** ** Starting the application *)

Lemma MainWindow_init_inv sp s r s' :
  MainWindow_init sp s = (r, s') → fs s' = fs s.
Proof.
  unfold MainWindow_init. intros H.
  apply bind_inv in H as [([] & s1 & Hl & H)|(e & Hl & _)];
    apply load_games_from_json_inv in Hl as (Hfs & _); [|done].
  apply update_ui_state_state in H as ->. done.
Qed.

Lemma is_file_lookup p n c :
  lookup_path p n = Some (File c) → is_file p n = true.
Proof. unfold is_file. by intros ->. Qed.

Lemma WelcomeDialog_exec_inv clicks s r s' :
  WelcomeDialog_exec clicks s = (r, s') →
  ∃ accepted,
    r = Ret accepted ∧
    ∀ sp, accepted = Some sp →
          sp ≠ [] ∧ is_file (sp ++ ["games.json"]) (fs s') = true.
Proof.
  revert s. induction clicks as [|click clicks IH]; intros s H; simpl in H.
  { injection H as <- <-. by exists None. }
  destruct click as [p|p|].
  - apply bind_inv in H as [(r1 & s1 & Ht & H)|(e & Ht & _)];
      [|by apply try_inv in Ht as (? & ? & _)].
    apply try_inv in Ht as (r1' & [= ->] & Hs).
    apply setup_new_server_inv in Hs as (_ & _ & Hacc).
    destruct r1' as [[sp|]|e]; try by apply IH in H.
    injection H as <- <-. eexists. split; [done|]. intros sp' [= <-].
    destruct (Hacc sp eq_refl) as (-> & Hne & Hgj).
    split; [done|]. by eapply is_file_lookup.
  - apply bind_inv in H as [(r1 & s1 & Ht & H)|(e & Ht & _)];
      [|by apply try_inv in Ht as (? & ? & _)].
    apply try_inv in Ht as (r1' & [= ->] & Hc).
    apply connect_to_existing_server_inv in Hc as (Hfs & o & -> & Hacc).
    destruct o as [sp|]; [|by apply IH in H].
    injection H as <- <-. eexists. split; [done|]. intros sp' [= <-].
    destruct (Hacc sp eq_refl) as (-> & Hne & j & Hgj).
    split; [done|]. rewrite Hfs. by eapply is_file_lookup.
  - injection H as <- <-. by exists None.
Qed.

(** X19. [main] shows the main window only on a server with a manifest:
    whenever it gets that far, the server path of the window is not empty,
    it is the one the settings hold from then on, and [games.json] is a
    file in that directory - found by the check at startup, or by "Connect
    to Existing Server", or written by "Set Up New Server". *)
Theorem main_shows_the_window_only_with_a_manifest
    (configured : option path) (clicks : list welcome_click) (s : state)
    (server_path : path) (c : controls) (settings : option path)
    (s' : state) :
  main configured clicks s
    = (Ret (MainWindowShown server_path c, settings), s') →
  settings = Some server_path ∧ server_path ≠ [] ∧
  is_file (server_path ++ ["games.json"]) (fs s') = true.
Proof.
  intros H. unfold main in H.
  assert (∀ s0,
            (accepted ← WelcomeDialog_exec clicks;
             match accepted with
             | Some server_path =>
                 c ← MainWindow_init server_path;
                 mret (MainWindowShown server_path c, Some server_path)
             | None => mret (Exit 0, configured)
             end) s0 = (Ret (MainWindowShown server_path c, settings), s') →
            settings = Some server_path ∧ server_path ≠ [] ∧
            is_file (server_path ++ ["games.json"]) (fs s') = true) as Hwelcome.
  { clear H. intros s0 H.
    apply bind_inv in H as [(acc & s1 & Hw & H)|(e & _ & ?)]; [|done].
    apply WelcomeDialog_exec_inv in Hw as (o & [= ->] & Hacc).
    destruct o as [sp|]; [|done].
    apply bind_inv in H as [(c1 & s2 & Hi & H)|(e & _ & ?)]; [|done].
    injection H as <- <- <- <-. apply MainWindow_init_inv in Hi as ->.
    destruct (Hacc sp eq_refl). done. }
  destruct configured as [[|x p]|]; [by eapply Hwelcome| |by eapply Hwelcome].
  apply bind_inv in H as [(r1 & s1 & Ht & H)|(e & Ht & _)];
    [|by apply try_inv in Ht as (? & ? & _)].
  apply try_inv in Ht as (r1' & [= ->] & Hf).
  apply fs_ask_inv in Hf as (_ & Hfs & Hf).
  destruct r1' as [[]|e].
  - specialize (Hf true eq_refl). injection Hf as Hf.
    apply bind_inv in H as [(c1 & s2 & Hi & H)|(e & _ & ?)]; [|done].
    injection H as <- <- <- <-. apply MainWindow_init_inv in Hi as ->.
    by rewrite Hfs.
  - by apply bind_inv in H as [([] & s2 & _ & [= ])|(e & _ & [=])].
  - by apply bind_inv in H as [([] & s2 & _ & [= ])|(e0 & _ & [=])].
Qed.

Lemma main_shows_the_window_only_with_a_manifest_witness :
  let run := main (Some demo_server) [] demo_synced in
  (∃ c, run.1 = Ret (MainWindowShown demo_server c, Some demo_server)) ∧
  is_file (demo_server ++ ["games.json"]) (fs run.2) = true.
Proof.
  intros run. split; [by eexists|].
  apply (main_shows_the_window_only_with_a_manifest (Some demo_server) []
           demo_synced demo_server
           (Controls false false false [Lit "Select a game from the list."]
              true true)
           (Some demo_server) run.2).
  reflexivity.
Defined.

(** X20. The first run.  Without a server path in the settings [main]
    shows the welcome dialog; when the user then sets up a new server in a
    directory without [games.json] and no system call fails, the manifest
    of the empty catalog is written, the directory becomes the server path
    of the settings, and the main window opens with an empty game list, no
    error, and the buttons "Upload" and "Download" disabled. *)
Theorem first_run_sets_up_the_server (path_str : path)
    (clicks : list welcome_click) (s : state) (es : list (string * node)) :
  path_str ≠ [] →
  faults s = [] →
  lookup_path path_str (fs s) = Some (Dir es) →
  assoc_get "games.json" es = None →
  ∃ s', main None (SetUpNewServer path_str :: clicks) s
          = (Ret (MainWindowShown path_str
                    (no_selection_controls initial_controls),
                  Some path_str), s') ∧
        lookup_path (games_json_path path_str) (fs s')
          = Some (File (JsonText (manifest_json []))) ∧
        game_list_widget s' = [] ∧
        shown s' = shown s ++ [new_server_created path_str].
Proof.
  intros Hne Hf Hdir Hfree. unfold games_json_path.
  destruct (json_dump_no_fault (manifest_json []) path_str "games.json" s es
              Hf Hdir) as (s2 & Hd & Hf2); [by rewrite Hfree|].
  pose proof (json_dump_inv _ _ _ _ _ Hd) as (Hio & Hch & Hres).
  specialize (Hres eq_refl).
  set (s3 := add_box (new_server_created path_str) s2).
  assert (setup_new_server path_str s = (Ret (Some path_str), s3)) as Hsetup.
  { unfold setup_new_server. destruct path_str as [|x p]; [done|].
    erewrite bind_Ret;
      [|apply fs_ask_ok; [done|]; unfold exists_path;
        by rewrite lookup_path_snoc, Hdir, Hfree].
    cbv beta iota.
    erewrite bind_Ret;
      [|apply try_run; erewrite bind_Ret; [|exact Hd]; reflexivity].
    done. }
  destruct (load_games_valid_run path_str [] s3) as (t1 & Hio1 & Hload);
    [constructor|exact Hres|simpl; by rewrite Hf2|].
  simpl fmap in Hload.
  eexists. split_and!.
  - unfold main. cbn [WelcomeDialog_exec].
    erewrite bind_Ret.
    2: { erewrite bind_Ret; [|apply try_run; exact Hsetup]. reflexivity. }
    cbv beta iota. unfold MainWindow_init.
    erewrite bind_Ret.
    2: { erewrite bind_Ret; [|exact Hload].
         by apply update_ui_state_no_selection. }
    reflexivity.
  - destruct (load_games_from_json_inv _ _ _ _ Hload) as (Hfs1 & _).
    by rewrite Hfs1.
  - done.
  - simpl. rewrite (io_step_shown _ _ Hio1). simpl.
    by rewrite (io_step_shown _ _ Hio).
Qed.

Lemma first_run_sets_up_the_server_witness :
  ∃ s', main None [SetUpNewServer demo_server] demo_first_run
          = (Ret (MainWindowShown demo_server
                    (no_selection_controls initial_controls),
                  Some demo_server), s') ∧
        lookup_path (games_json_path demo_server) (fs s')
          = Some (File (JsonText (manifest_json []))) ∧
        game_list_widget s' = [] ∧
        shown s' = [new_server_created demo_server].
Proof.
  apply (first_run_sets_up_the_server demo_server [] demo_first_run []);
    [discriminate|reflexivity..].
Defined.

(** X21. The check at startup.  When the settings hold a server path
    whose [games.json] is not a file (the check not being hit by an I/O
    fault), [main] reports "Server Not Found", removes the server path from
    the settings and exits with status 1, without touching the file
    system.  When the check itself fails, [main] reports "Permission
    Error" if the access was refused and "Startup Error" otherwise, and
    exits with status 1 but keeps the server path. *)
Theorem startup_forgets_a_server_without_manifest (server_path : path)
    (clicks : list welcome_click) (s : state) :
  server_path ≠ [] →
  (head (faults s) ≠ Some true →
   is_file (server_path ++ ["games.json"]) (fs s) = false →
   ∃ s', main (Some server_path) clicks s = (Ret (Exit 1, None), s') ∧
         fs s' = fs s ∧
         shown s' = shown s ++ [server_not_found server_path]) ∧
  (∀ fl, faults s = true :: fl →
   ∃ s', main (Some server_path) clicks s
           = (Ret (Exit 1, Some server_path), s') ∧
         fs s' = fs s ∧
         shown s' = shown s ++ [if default false (head fl)
                                then cannot_access_server server_path
                                else startup_error OSError]).
Proof.
  intros Hne. destruct server_path as [|x p]; [done|]. split.
  - intros Hf Hfile.
    destruct (fs_ask_head (λ n, inr (is_file ((x :: p) ++ ["games.json"]) n))
                s Hf) as (s1 & Hio & Hfs & _ & Hrun).
    exists (add_box (server_not_found (x :: p)) s1). split_and!.
    + unfold main, path_is_file.
      erewrite bind_Ret; [|apply try_run; exact Hrun]. by rewrite Hfile.
    + done.
    + simpl. by rewrite (io_step_shown _ _ Hio).
  - intros fl E.
    exists (add_box (if default false (head fl)
                     then cannot_access_server (x :: p)
                     else startup_error OSError)
              (set_faults (tail fl) (set_faults fl s))).
    split_and!.
    + unfold main, path_is_file.
      erewrite bind_Ret.
      2: { apply try_run. unfold fs_ask. erewrite bind_Raise; [reflexivity|].
           unfold syscall. by rewrite E. }
      cbv beta iota.
      destruct fl as [|[] fl'].
      * erewrite bind_Ret; [|by apply is_PermissionError_no_fault]. done.
      * erewrite bind_Ret; [|by eapply is_PermissionError_OSError]. done.
      * erewrite bind_Ret; [|by eapply is_PermissionError_OSError]. done.
    + done.
    + done.
Qed.

Lemma startup_forgets_a_server_without_manifest_witness :
  (∃ s', main (Some demo_server) [] demo_missing = (Ret (Exit 1, None), s') ∧
         fs s' = fs demo_missing ∧
         shown s' = [server_not_found demo_server]) ∧
  (∃ s', main (Some demo_server) [] (set_faults [true] demo_synced)
           = (Ret (Exit 1, Some demo_server), s') ∧
         fs s' = fs demo_synced ∧
         shown s' = [startup_error OSError]) ∧
  (∃ s', main (Some demo_server) [] (set_faults [true; true] demo_synced)
           = (Ret (Exit 1, Some demo_server), s') ∧
         fs s' = fs demo_synced ∧
         shown s' = [cannot_access_server demo_server]).
Proof.
  split_and!.
  - apply (startup_forgets_a_server_without_manifest demo_server []
             demo_missing); [discriminate|discriminate|reflexivity].
  - apply (proj2 (startup_forgets_a_server_without_manifest demo_server []
                    (set_faults [true] demo_synced) ltac:(discriminate)) []).
    reflexivity.
  - apply (proj2 (startup_forgets_a_server_without_manifest demo_server []
                    (set_faults [true; true] demo_synced) ltac:(discriminate))
                 [true]).
    reflexivity.
Defined.

(** ** Synchronising without I/O faults *)

Lemma download_files_no_fault sp lbr now gid name (lp : path) s les ses :
  faults s = [] →
  let save := sp ++ [gid; "save_data"] in
  let bdest := lbr ++ [gid; now] in
  lookup_path lp (fs s) = Some (Dir les) → wf_node (Dir les) = true →
  lookup_path save (fs s) = Some (Dir ses) → wf_node (Dir ses) = true →
  lookup_path bdest (fs s) = None → no_file_on_the_way bdest (fs s) = true →
  incomparable lp bdest → incomparable save lp → incomparable save bdest →
  ∃ s', download_files sp lbr now (JStr gid) name lp s
          = (Ret tt, add_box (download_complete name) s') ∧
        lookup_path lp (fs s') = Some (Dir ses) ∧
        lookup_path bdest (fs s') = Some (Dir les) ∧
        ∀ q, incomparable lp q → incomparable bdest q →
             lookup_path q (fs s') = lookup_path q (fs s).
Proof.
  intros Hf save bdest Hlp Hwf Hsave Hwfs Hb Hway Hlb Hsl Hsb.
  destruct (backup_local_save_no_fault lp bdest s les Hf Hlp Hwf Hb Hway Hlb)
    as (s3 & Hbk & Hf3 & Hio3 & Hlp3 & Hb3 & Hfr3).
  assert (lookup_path save (fs s3) = Some (Dir ses)) as Hsave3.
  { rewrite Hfr3; [done|by apply incomparable_sym..]. }
  assert (lp ≠ []) as Hne.
  { intros ->. destruct Hlb as [[] _]. apply prefix_nil. }
  assert (∃ ps, lookup_path (removelast lp) (fs s3) = Some (Dir ps))
    as [ps Hpar].
  { rewrite (app_removelast_last EmptyString Hne) in Hlp3.
    apply lookup_path_parent in Hlp3 as (ps & ? & _). by exists ps. }
  destruct (shutil_copytree_no_fault true save lp s3 ses ps)
    as (s4 & Hcp & Hf4 & Hio4 & Hup4); try done.
  { by rewrite Hlp3. }
  exists s4. split_and!.
  - unfold download_files.
    erewrite bind_Ret; [|reflexivity]. erewrite bind_Ret; [|reflexivity].
    rewrite <-!app_assoc. simpl app. fold save bdest.
    erewrite bind_Ret; [|exact Hbk]. erewrite bind_Ret; [|exact Hcp]. done.
  - by eapply lookup_update_eq.
  - by rewrite (lookup_update_frame _ _ _ _ bdest Hup4).
  - intros q Hq1 Hq2.
    rewrite (lookup_update_frame _ _ _ _ q Hup4) by done. by apply Hfr3.
Qed.

Lemma download_save_no_fault
    (server_path local_backup_root : path) (now : string) (user : reply)
    (s : state) (item : QListWidgetItem) (gid : string) (name : json)
    (lp : path) (les ses : list (string * node)) :
  selected s ≫= (λ i, game_list_widget s !! i) = Some item →
  py_getitem "id" (item_data item) = inr (JStr gid) →
  py_getitem "name" (item_data item) = inr name →
  local_game_paths s !! gid = Some lp →
  clicked_ok user = true →
  faults s = [] →
  let save := server_path ++ [gid; "save_data"] in
  let bdest := local_backup_root ++ [gid; now] in
  lookup_path lp (fs s) = Some (Dir les) → wf_node (Dir les) = true →
  lookup_path save (fs s) = Some (Dir ses) → wf_node (Dir ses) = true →
  lookup_path bdest (fs s) = None → no_file_on_the_way bdest (fs s) = true →
  incomparable lp bdest → incomparable save lp → incomparable save bdest →
  ∃ s', download_save server_path local_backup_root now user s
          = (Ret tt, s') ∧
        last (shown s') = Some (download_complete name) ∧
        lookup_path lp (fs s') = Some (Dir ses) ∧
        lookup_path bdest (fs s') = Some (Dir les) ∧
        ∀ q, incomparable lp q → incomparable bdest q →
             lookup_path q (fs s') = lookup_path q (fs s).
Proof.
  intros Hsel Hid Hname Hpath Hok Hf save bdest Hlp Hwf Hsave Hwfs Hb Hway
    Hlb Hsl Hsb.
  assert (lp ≠ []) as Hne.
  { intros ->. destruct Hlb as [[] _]. apply prefix_nil. }
  destruct (sync_configured_start server_path local_backup_root now user s
              item gid name lp Hsel Hid Hname Hpath Hne) as [_ ->].
  destruct (show_overwrite_warning_ok user "Confirm Download"
              (box_text (confirm_download name)) s Hok)
    as (s0 & Hw & Hfs0 & Hf0 & _).
  erewrite bind_Ret; [|exact Hw].
  rewrite <-Hfs0 in Hlp, Hsave, Hb, Hway. rewrite <-Hf0 in Hf.
  destruct (download_files_no_fault server_path local_backup_root now gid
              name lp s0 les ses Hf Hlp Hwf Hsave Hwfs Hb Hway Hlb Hsl Hsb)
    as (s4 & Hdl & Hlp4 & Hb4 & Hfr4).
  exists (add_box (download_complete name) s4). split_and!.
  - cbn [negb]. erewrite bind_Ret; [|apply try_run; exact Hdl]. done.
  - simpl. by rewrite last_snoc.
  - done.
  - done.
  - intros q Hq1 Hq2. simpl. rewrite <-Hfs0. by apply Hfr4.
Qed.



Lemma update_path_keeps_ancestor q r v n n' es :
  r ≠ [] → update_path (q ++ r) v n = Some n' →
  lookup_path q n = Some (Dir es) →
  ∃ es', lookup_path q n' = Some (Dir es').
Proof.
  intros Hr. revert n n'. induction q as [|y q IH]; intros n n' H Hq.
  - simpl in *. injection Hq as ->. destruct r as [|x r]; [done|].
    simpl in H. destruct r.
    + injection H as <-. by eexists.
    + destruct (assoc_get x es); [|done].
      destruct (update_path _ v _); [|done]. injection H as <-. by eexists.
  - simpl in Hq. destruct n as [?|es0]; [done|].
    destruct (assoc_get y es0) as [ch|] eqn:Hy; [|done].
    simpl in H. destruct (q ++ r) as [|z t] eqn:E; [by destruct q, r|].
    rewrite Hy in H.
    destruct (update_path (z :: t) v ch) as [ch'|] eqn:Hc; [|done].
    injection H as <-. simpl. rewrite assoc_get_set_eq. by eapply IH.
Qed.

(** Moving a directory to a new name in an existing directory. *)
Lemma shutil_move_no_fault src dst s es ps :
  faults s = [] →
  lookup_path src (fs s) = Some (Dir es) →
  lookup_path dst (fs s) = None → dst ≠ [] →
  lookup_path (removelast dst) (fs s) = Some (Dir ps) →
  incomparable src dst → incomparable src (removelast dst) →
  ∃ s', shutil_move src dst s = (Ret tt, s') ∧ faults s' = [] ∧
        lookup_path dst (fs s') = Some (Dir es) ∧
        lookup_path src (fs s') = None ∧
        (∀ q, incomparable src q → incomparable dst q →
              lookup_path q (fs s') = lookup_path q (fs s)) ∧
        (∀ q r1 r2 qs, src = q ++ r1 → dst = q ++ r2 → r1 ≠ [] → r2 ≠ [] →
                       lookup_path q (fs s) = Some (Dir qs) →
                       ∃ qs', lookup_path q (fs s') = Some (Dir qs')).
Proof.
  intros Hf Hsrc Hdst Hne Hpar Hsd Hsp.
  assert (src ≠ []) as Hsne.
  { intros ->. destruct Hsd as [[] _]. apply prefix_nil. }
  destruct (update_path_is_Some src None (fs s) _ Hsne Hsrc) as [n1 Hn1].
  assert (lookup_path (removelast dst) n1 = Some (Dir ps)) as Hpar1.
  { by rewrite (lookup_update_frame _ _ _ _ _ Hn1 Hsp). }
  assert (is_Some (update_path dst (Some (Dir es)) n1)) as [n2 Hn2].
  { rewrite (app_removelast_last EmptyString Hne).
    by eapply update_path_new_is_Some. }
  assert (fs_rename src dst (fs s) = inr n2) as Hren.
  { unfold fs_rename, stat, fs_update. rewrite Hsrc, Hdst, Hn1, Hn2.
    rewrite decide_False by (intros ->; by destruct Hsd as [[] _]).
    by rewrite bool_decide_eq_false_2 by (by destruct Hsd). }
  exists (set_fs n2 s). split_and!.
  - unfold shutil_move. erewrite bind_Ret; [|reflexivity].
    unfold is_dir. rewrite Hdst. cbn [andb]. cbv beta zeta iota.
    erewrite bind_Ret; [|apply try_run, fs_do_ok; [done|exact Hren]]. done.
  - done.
  - simpl. by eapply lookup_update_eq.
  - simpl. rewrite (lookup_update_frame _ _ _ _ src Hn2)
      by (by apply incomparable_sym).
    by eapply lookup_update_eq.
  - intros q Hq1 Hq2. simpl. rewrite (lookup_update_frame _ _ _ _ q Hn2) by done.
    by rewrite (lookup_update_frame _ _ _ _ q Hn1).
  - intros q r1 r2 qs -> -> Hr1 Hr2 Hq. simpl.
    destruct (update_path_keeps_ancestor _ _ _ _ _ _ Hr1 Hn1 Hq) as [qs1 Hq1].
    by eapply update_path_keeps_ancestor.
Qed.

(** The backup step of an upload when nothing fails. *)
Lemma backup_server_save_no_fault (gd : path) now s ses bs :
  faults s = [] →
  let save := gd ++ ["save_data"] in
  let backup := gd ++ ["backup"] in
  lookup_path save (fs s) = Some (Dir ses) → ses ≠ [] →
  lookup_path backup (fs s) = Some (Dir bs) → assoc_get now bs = None →
  ∃ s', backup_server_save save (backup ++ [now]) s = (Ret tt, s') ∧
        faults s' = [] ∧
        lookup_path save (fs s') = Some (Dir []) ∧
        lookup_path (backup ++ [now]) (fs s') = Some (Dir ses) ∧
        ∀ q, incomparable gd q → lookup_path q (fs s') = lookup_path q (fs s).
Proof.
  intros Hf save backup Hsave Hses Hbackup Hnow. subst save backup.
  assert (incomparable (gd ++ ["save_data"]) ((gd ++ ["backup"]) ++ [now]))
    as Hsb.
  { apply incomparable_sym, incomparable_app_l, incomparable_sym.
    by apply incomparable_snoc. }
  destruct (shutil_move_no_fault (gd ++ ["save_data"])
              ((gd ++ ["backup"]) ++ [now]) s ses bs)
    as (s1 & Hmv & Hf1 & Hb1 & Hs1 & Hfr1 & Hanc1); try done.
  { by rewrite lookup_path_snoc, Hbackup. }
  { by destruct (gd ++ ["backup"]). }
  { by rewrite removelast_last. }
  { rewrite removelast_last. by apply incomparable_snoc. }
  destruct (lookup_path_parent _ _ _ _ Hsave) as (gs & Hgd & _).
  destruct (Hanc1 gd ["save_data"] ["backup"; now] gs) as [gs1 Hgd1];
    try done.
  { by rewrite <-app_assoc. }
  destruct (update_path_new_is_Some gd "save_data" (Some (Dir [])) _ _ Hgd1)
    as [n2 Hn2].
  exists (set_fs n2 s1). split_and!.
  - unfold backup_server_save.
    erewrite bind_Ret;
      [|apply fs_ask_ok; [done|]; unfold fs_listdir, stat;
        by rewrite Hsave].
    rewrite bool_decide_eq_false_2 by (by destruct ses).
    erewrite bind_Ret; [|exact Hmv]. apply fs_do_ok; [done|].
    unfold fs_mkdir, fs_update. by rewrite Hs1, Hn2.
  - done.
  - simpl. by eapply lookup_update_eq.
  - simpl. rewrite (lookup_update_frame _ _ _ _ _ Hn2) by done. done.
  - intros q Hq. simpl.
    rewrite (lookup_update_frame _ _ _ _ q Hn2)
      by (by apply incomparable_app_l).
    apply Hfr1; [by apply incomparable_app_l|].
    by do 2 apply incomparable_app_l.
Qed.



(** ** Clearing a directory *)

(** X24. [_clear_directory_contents] without I/O faults: a directory
    (that lists no name twice) is emptied - it stays in place, as an empty
    directory - and nothing outside it changes; a path that is not a
    directory, missing or a file, is left alone without an error. *)
Theorem clear_directory_contents_empties_the_directory (dir_path : path)
    (s : state) :
  faults s = [] →
  (∀ es, lookup_path dir_path (fs s) = Some (Dir es) → NoDup es.*1 →
         ∃ s', _clear_directory_contents dir_path s = (Ret tt, s') ∧
               lookup_path dir_path (fs s') = Some (Dir []) ∧
               changes_only dir_path (fs s) (fs s')) ∧
  (is_dir dir_path (fs s) = false →
   _clear_directory_contents dir_path s = (Ret tt, s)).
Proof.
  intros Hf. split.
  - intros es Hp Hnd.
    destruct (clear_directory_contents_no_fault dir_path s es Hf Hp Hnd)
      as (s' & Hrun & _ & _ & Hch & Hres).
    by exists s'.
  - intros Hd. unfold _clear_directory_contents, path_is_dir.
    erewrite bind_Ret; [|by apply fs_ask_ok]. by rewrite Hd.
Qed.

Lemma clear_directory_contents_empties_the_directory_witness :
  (∃ s', _clear_directory_contents demo_local demo_synced = (Ret tt, s') ∧
         lookup_path demo_local (fs s') = Some (Dir []) ∧
         changes_only demo_local (fs demo_synced) (fs s')) ∧
  _clear_directory_contents ["home"; "nowhere"] demo_synced
    = (Ret tt, demo_synced).
Proof.
  split.
  - apply (proj1 (clear_directory_contents_empties_the_directory demo_local
                    demo_synced eq_refl) [("a.txt", File (Bytes "y"))]);
      [reflexivity|]. apply (bool_decide_unpack _); vm_compute; exact I.
  - apply (proj2 (clear_directory_contents_empties_the_directory
                    ["home"; "nowhere"] demo_synced eq_refl)).
    reflexivity.
Defined.

(** ** Upload, then download *)



End Python.

(** * Registrations at concrete inputs

    The properties of [add_new_game] above at concrete inputs, with the two
    methods of [str] on ASCII strings. *)

#[global] Existing Instance ascii_str.

(** The claim C2 as it was stated fails when the rollback itself fails: the
    manifest cannot be replaced (the rename fails), the removal of the
    directories fails too, and the directories of the attempt stay on the
    server while the catalog does not list the game. *)
Lemma rollback_failure_leaves_directories :
  let s := set_faults [false; false; false; false; false; true; true] demo_state in
  let s' := (add_new_game demo_server demo_dialog 5 s).2 in
  shown s' = [could_not_update OSError; rollback_error OSError] ∧
  lookup_path (games_json_path demo_server) (fs s')
    = Some (File (JsonText (manifest_json []))) ∧
  lookup_path (demo_server ++ [uuid_str 5]) (fs s')
    = Some (Dir [("save_data", Dir []); ("backup", Dir [])]).
Proof. vm_compute. done. Qed.

Lemma registration_is_rolled_back_witness :
  ∃ s2,
    add_new_game demo_server (Dialog " CELESTE" (Some demo_local) true) 6
      (add_new_game demo_server demo_dialog 5 demo_state).2 = (Ret tt, s2) ∧
    shown s2 = [duplicate_game "CELESTE"] ∧
    lookup_path (demo_server ++ [uuid_str 6]) (fs s2) = None ∧
    lookup_path (games_json_path demo_server) (fs s2)
      = Some (File (JsonText (manifest_json
                 [Game (uuid_str 5) "Celeste"]))) ∧
    length (filter (λ g, lower (rec_name g) = lower "Celeste")
              [Game (uuid_str 5) "Celeste"]) = 1.
Proof.
  apply (proj2 (registration_is_rolled_back (python_str:=ascii_str)
                  demo_server demo_dialog 5 demo_state (Ret tt)
                  (add_new_game (python_str:=ascii_str) demo_server
                     demo_dialog 5 demo_state).2
                  eq_refl eq_refl) []
               (Dialog " CELESTE" (Some demo_local) true) 6%N);
    vm_compute; reflexivity.
Defined.



Lemma registrar_fails_on_entry_without_name_witness :
  let loaded := (load_games_from_json demo_server demo_nameless).2 in
  let s' := (add_new_game demo_server demo_dialog 5 demo_nameless).2 in
  let loaded2 := (load_games_from_json demo_server demo_idless).2 in
  let s2 := (add_new_game demo_server demo_dialog 5 demo_idless).2 in
  (game_list_widget loaded = [ListItem (record_json (Game "g1" "Hades")) true] ∧
   shown loaded = []) ∧
  (shown s' ≠ shown demo_nameless ∧
   lookup_path (games_json_path demo_server) (fs s')
     = lookup_path (games_json_path demo_server) (fs demo_nameless)) ∧
  shown s' = [could_not_update KeyError] ∧
  (game_list_widget loaded2 = [] ∧ shown loaded2 = [] ∧
   shown s2 = [duplicate_game "Celeste"]).
Proof.
  intros loaded s' loaded2 s2.
  destruct (registrar_fails_on_entry_without_name (python_str:=ascii_str)
              demo_server demo_dialog 5 demo_nameless (Ret tt) s'
              (JDict [("games", JList [record_json (Game "g1" "Hades");
                                       JDict [("id", JStr "g2")]])])
              [record_json (Game "g1" "Hades"); JDict [("id", JStr "g2")]]
              [("id", JStr "g2")]) as (_ & Hfail & Hsame).
  - reflexivity.
  - reflexivity.
  - reflexivity.
  - right. left.
  - reflexivity.
  - reflexivity.
  - split; [vm_compute; done|]. split; [split; [exact Hfail|exact Hsame]|].
    split; vm_compute; done.
Defined.



Lemma failed_directory_creation_is_not_rolled_back_witness :
  ∃ s', add_new_game demo_server demo_dialog 5
          (set_faults [false; true] demo_state) = (Ret tt, s') ∧
        shown s' = [could_not_create_directories OSError] ∧
        lookup_path (demo_server ++ [uuid_str 5]) (fs s')
          = Some (Dir [("save_data", Dir [])]) ∧
        lookup_path (games_json_path demo_server) (fs s')
          = Some (File (JsonText (manifest_json []))).
Proof.
  destruct (failed_directory_creation_is_not_rolled_back
              (python_str:=ascii_str) demo_server
              demo_dialog 5 (set_faults [false; true] demo_state) []
              [("games.json", File (JsonText (manifest_json [])))])
    as (s' & Hrun & Hsh & Hdir & Hfr); try reflexivity.
  exists s'. split_and!; [exact Hrun|exact Hsh|exact Hdir|].
  rewrite Hfr; [reflexivity|].
  apply (bool_decide_unpack _); vm_compute; exact I.
Defined.

Lemma invalid_manifest_blocks_registration_witness :
  let s' := (add_new_game demo_server demo_dialog 5 demo_not_a_list).2 in
  lookup_path (games_json_path demo_server) (fs s')
    = Some (File (JsonText (JDict [("games", JStr "not-a-list")]))) ∧
  ∃ boxes e,
    shown s' = shown demo_not_a_list ++ boxes ∧
    (could_not_create_directories e ∈ boxes ∨ could_not_update e ∈ boxes).
Proof.
  intros s'.
  apply (invalid_manifest_blocks_registration (python_str:=ascii_str)
           demo_server demo_dialog 5 demo_not_a_list
           (add_new_game (python_str:=ascii_str) demo_server demo_dialog 5
              demo_not_a_list).1 s');
    reflexivity.
Defined.
